(** * Game2AI: authoritative simulation and snapshot replication

    A shallow embedding of the simulation core of the game (vector math,
    entity records, gravity and locomotion, weapons, hazards, collisions and
    client-side snapshot interpolation) together with the properties the
    design document states about it.

    Conventions of the embedding.
    - A JavaScript [number] is a real number of [R]: the arithmetic of the
      source is read as exact arithmetic, so rounding of IEEE doubles is not
      part of the model.  [Math.round x] is [floor (x + 1/2)].
    - A class is a module holding a record [t] and its methods; a method that
      mutates [this] returns the new record, next to its JavaScript return
      value when it has one.
    - A field that the constructor does not create is an [option]: reading it
      before it was assigned gives [undefined] in the source, [None] here.
    - [Math.random ()] is a draw from a sequence [nat -> R] of values of
      [0, 1), consumed through a cursor in call order.
    - The particle pool, the camera, the HUD and [console.log] only feed the
      renderer; calls into them from the simulation are left out.  The
      pool, the camera, the joystick, the room code and the network timers
      are embedded on their own, each in a module of its own. *)

From Stdlib Require Import Reals Lra Lia List Ascii String ZArith Bool.
From Stdlib Require Import Zfloor.
Import ListNotations.
Open Scope R_scope.

(** ** Numbers *)

Module Num.

(** [a < b] and [a <= b] as JavaScript evaluates them, to a boolean. *)
Definition ltb (a b : R) : bool := if Rlt_dec a b then true else false.
Definition leb (a b : R) : bool := if Rle_dec a b then true else false.
Definition eqb (a b : R) : bool := if Req_dec_T a b then true else false.

(** [Math.round]: the nearest integer, ties towards positive infinity. *)
Definition round (a : R) : R := IZR (Zfloor (a + 1 / 2)).

(** [Math.floor] *)
Definition floor (a : R) : Z := Zfloor a.

(** [Math.atan2 y x], from the arc tangent of the library. *)
Definition atan2 (y x : R) : R :=
  if Rlt_dec 0 x then atan (y / x)
  else if Rlt_dec x 0 then
    (if Rle_dec 0 y then atan (y / x) + PI else atan (y / x) - PI)
  else if Rlt_dec 0 y then PI / 2
  else if Rlt_dec y 0 then - (PI / 2)
  else 0.

(** The values [Math.random] returns, in call order. *)
Definition Rand : Type := nat -> R.
Definition unit_draws (rnd : Rand) : Prop := forall n, 0 <= rnd n < 1.

End Num.

Arguments Num.ltb : simpl never.
Arguments Num.leb : simpl never.
Arguments Num.eqb : simpl never.

Infix "<?" := Num.ltb (at level 70, no associativity) : R_scope.
Infix "<=?" := Num.leb (at level 70, no associativity) : R_scope.
Infix "=?" := Num.eqb (at level 70, no associativity) : R_scope.

(** ** Physics.js: vectors *)

Module Vec2.

Record t : Type := mk { x : R; y : R }.

Definition add (a v : t) : t := mk (x a + x v) (y a + y v).
Definition sub (a v : t) : t := mk (x a - x v) (y a - y v).
Definition scale (a : t) (s : R) : t := mk (x a * s) (y a * s).
Definition length (a : t) : R := sqrt (x a * x a + y a * y a).
Definition lengthSq (a : t) : R := x a * x a + y a * y a.

Definition normalize (a : t) : t :=
  let len := length a in
  if len =? 0 then mk 0 0 else mk (x a / len) (y a / len).

Definition distTo (a v : t) : R := length (sub a v).

End Vec2.

(** ** Planet.js *)

(** The object [Planet.serialize] builds. *)
Module PlanetData.

Record t : Type := mk {
  x : R;
  y : R;
  radius : R;
  themeKey : string;
  mass : R
}.

End PlanetData.

Module Planet.

(** The fields of a planet that the simulation reads.  The theme palette is
    the entry of a constant table under [themeKey]; the surface details,
    which the constructor draws for the renderer, are kept next to these
    fields in [Drawn] below. *)
Record t : Type := mk {
  x : R;
  y : R;
  radius : R;
  mass : R;
  themeKey : string;
  gravityRange : R
}.

(** [new Planet (x, y, radius, themeKey)] with a given theme. *)
Definition new (x y radius : R) (themeKey : string) : t :=
  mk x y radius (radius * 1.5) themeKey (radius * 5).

Definition isInside (p : t) (px py : R) : bool :=
  let dist := sqrt ((px - x p) * (px - x p) + (py - y p) * (py - y p)) in
  dist <? radius p.

Definition getSurfacePoint (p : t) (angle : R) : Vec2.t :=
  Vec2.mk (x p + cos angle * (radius p + 2)) (y p + sin angle * (radius p + 2)).

(** [Object.keys (PLANET_THEMES)] *)
Definition THEME_KEYS : list string :=
  ["lava"; "ice"; "forest"; "crystal"; "desert"]%string.

(** An entry of [details]: a spot on the surface, in units of the radius. *)
Module Detail.

Record t : Type := mk {
  x : R;
  y : R;
  r : R
}.

End Detail.

(** A planet as the constructor leaves it: the fields above and the
    [details] array. *)
Record Drawn : Type := mkDrawn {
  fields : t;
  details : list Detail.t
}.

(** The loop of the constructor that fills [details]: three draws a
    detail. *)
Fixpoint drawDetails (numDetails : nat) (rnd : Num.Rand) (k : nat)
    : list Detail.t :=
  match numDetails with
  | O => []
  | S numDetails' =>
      let angle := rnd k * PI * 2 in
      let dist := rnd (S k) * 0.7 in
      Detail.mk (cos angle * dist) (sin angle * dist)
        (rnd (S (S k)) * 0.15 + 0.05)
      :: drawDetails numDetails' rnd (3 + k)
  end.

(** [new Planet (x, y, radius, themeKey)] for any [themeKey], with the
    cursor after its draws.  An absent or empty key is replaced by a theme
    drawn from [THEME_KEYS]; a key that is given costs no draw.  Then come
    the draw for the number of details and the draws of the details. *)
Definition construct (x y radius : R) (themeKey : option string)
    (rnd : Num.Rand) (k : nat) : Drawn * nat :=
  let drawn :=
    nth (Z.to_nat (Num.floor (rnd k * INR (List.length THEME_KEYS))))
        THEME_KEYS ""%string in
  let '(key, k) :=
    match themeKey with
    | Some key => if String.eqb key "" then (drawn, S k) else (key, k)
    | None => (drawn, S k)
    end in
  let numDetails := Z.to_nat (Num.floor (rnd k * 5) + 3) in
  (mkDrawn (mk x y radius (radius * 1.5) key (radius * 5))
     (drawDetails numDetails rnd (S k)),
   (S k + 3 * numDetails)%nat).

(** [isOnSurface (x, y, threshold)]; the default threshold is 5. *)
Definition isOnSurface (p : t) (px py threshold : R) : bool :=
  let dist := sqrt ((px - x p) * (px - x p) + (py - y p) * (py - y p)) in
  Rabs (dist - radius p) <? threshold.

Definition serialize (p : t) : PlanetData.t :=
  PlanetData.mk (x p) (y p) (radius p) (themeKey p) (mass p).

(** [Planet.deserialize (data)]: a new planet, details and all, whose mass
    is then overwritten. *)
Definition deserialize (data : PlanetData.t) (rnd : Num.Rand) (k : nat)
    : Drawn * nat :=
  let '(built, k) :=
    construct (PlanetData.x data) (PlanetData.y data)
      (PlanetData.radius data) (Some (PlanetData.themeKey data)) rnd k in
  let p := fields built in
  (mkDrawn
     (mk (x p) (y p) (radius p) (PlanetData.mass data) (themeKey p)
        (gravityRange p))
     (details built),
   k).

End Planet.

(** ** Physics.js: the [Physics] object *)

Module Physics.

Definition GRAVITY_CONSTANT : R := 2200.
Definition MAX_VELOCITY : R := 800.
Definition SURFACE_OFFSET : R := 2.

Definition gravityAccel (entityPos : Vec2.t) (planet : Planet.t) : Vec2.t :=
  let diff := Vec2.mk (Planet.x planet - Vec2.x entityPos)
                      (Planet.y planet - Vec2.y entityPos) in
  let distSq := Vec2.lengthSq diff in
  let dist := sqrt distSq in
  if dist <? Planet.radius planet * 0.5 then Vec2.mk 0 0
  else
    let force := GRAVITY_CONSTANT * Planet.mass planet / distSq in
    Vec2.scale (Vec2.normalize diff) (Rmin force 3500).

(** The loop of [nearestPlanet]; [best] is [None] while [nearest] is [null]
    and [minDist] is [Infinity]. *)
Fixpoint nearestFrom (pos : Vec2.t) (planets : list Planet.t)
    (best : option (Planet.t * R)) : option (Planet.t * R) :=
  match planets with
  | [] => best
  | planet :: rest =>
      let d := Vec2.distTo pos (Vec2.mk (Planet.x planet) (Planet.y planet))
               - Planet.radius planet in
      match best with
      | None => nearestFrom pos rest (Some (planet, d))
      | Some (_, minDist) =>
          if d <? minDist then nearestFrom pos rest (Some (planet, d))
          else nearestFrom pos rest best
      end
  end.

Definition nearestPlanet (pos : Vec2.t) (planets : list Planet.t)
    : option (Planet.t * R) :=
  nearestFrom pos planets None.

Definition projectToSurface (pos : Vec2.t) (planet : Planet.t) : Vec2.t :=
  let c := Vec2.mk (Planet.x planet) (Planet.y planet) in
  let dir := Vec2.normalize (Vec2.sub pos c) in
  Vec2.add c (Vec2.scale dir (Planet.radius planet + SURFACE_OFFSET)).

Definition surfaceAngle (pos : Vec2.t) (planet : Planet.t) : R :=
  Num.atan2 (Vec2.y pos - Planet.y planet) (Vec2.x pos - Planet.x planet).

Definition circleCollision (x1 y1 r1 x2 y2 r2 : R) : bool :=
  let dx := x2 - x1 in
  let dy := y2 - y1 in
  let distSq := dx * dx + dy * dy in
  let sumR := r1 + r2 in
  distSq <=? sumR * sumR.

Definition clampVelocity (vel : Vec2.t) : Vec2.t :=
  let len := Vec2.length vel in
  if MAX_VELOCITY <? len then Vec2.scale (Vec2.normalize vel) MAX_VELOCITY
  else vel.

Definition lerp (a b t : R) : R := a + (b - a) * t.

(** The two [while] loops of [lerpAngle].  Each turn moves [diff] by a full
    turn, so [fuel] turns are enough once [fuel] exceeds the number of full
    turns in [diff]; [lerpAngle] below supplies that many. *)
Fixpoint wrapDown (fuel : nat) (diff : R) : R :=
  match fuel with
  | O => diff
  | S fuel' => if PI <? diff then wrapDown fuel' (diff - PI * 2) else diff
  end.

Fixpoint wrapUp (fuel : nat) (diff : R) : R :=
  match fuel with
  | O => diff
  | S fuel' => if diff <? - PI then wrapUp fuel' (diff + PI * 2) else diff
  end.

Definition turns (diff : R) : nat := Z.to_nat (up (Rabs diff / (PI * 2))).

Definition lerpAngle (a b t : R) : R :=
  let diff := b - a in
  let diff := wrapDown (turns diff) diff in
  let diff := wrapUp (turns diff) diff in
  a + diff * t.

Definition pointInCircle (px py cx cy r : R) : bool :=
  let dx := px - cx in
  let dy := py - cy in
  dx * dx + dy * dy <=? r * r.

(** [rand (min, max)] on the draw [r]. *)
Definition rand (min max r : R) : R := min + r * (max - min).

(** [randInt (min, max)] on the draw [r]. *)
Definition randInt (min max r : R) : Z := Num.floor (rand min (max + 1) r).

End Physics.

(** ** Player.js *)

(** The object [Player.serialize] builds. *)
Module PlayerData.

Record t : Type := mk {
  id : string;
  idx : Z;
  n : string;
  c : string;
  x : R;
  y : R;
  vx : R;
  vy : R;
  gr : bool;
  sa : R;
  mx : R;
  fl : bool;
  hp : R;
  al : bool;
  k : Z;
  d : Z;
  df : R;
  rt : R;
  iv : bool
}.

Definition set_x (p : t) (v : R) : t :=
  mk (id p) (idx p) (n p) (c p) v (y p) (vx p) (vy p) (gr p) (sa p) (mx p)
    (fl p) (hp p) (al p) (k p) (d p) (df p) (rt p) (iv p).
Definition set_y (p : t) (v : R) : t :=
  mk (id p) (idx p) (n p) (c p) (x p) v (vx p) (vy p) (gr p) (sa p) (mx p)
    (fl p) (hp p) (al p) (k p) (d p) (df p) (rt p) (iv p).
Definition set_sa (p : t) (v : R) : t :=
  mk (id p) (idx p) (n p) (c p) (x p) (y p) (vx p) (vy p) (gr p) v (mx p)
    (fl p) (hp p) (al p) (k p) (d p) (df p) (rt p) (iv p).

End PlayerData.

Module Player.

(** [jumpGraceTimer] and [currentWeapon] are not created by the constructor:
    the first is assigned by [GravitySystem.jump], the second on a weapon
    pickup. *)
Record t : Type := mk {
  id : string;
  index : Z;
  name : string;
  color : string;
  x : R;
  y : R;
  vx : R;
  vy : R;
  radius : R;
  isGrounded : bool;
  groundedPlanetIndex : Z;
  surfaceAngle : R;
  moveX : R;
  facingLeft : bool;
  aimAngle : R;
  health : R;
  maxHealth : R;
  alive : bool;
  kills : Z;
  deaths : Z;
  shotsFired : Z;
  shotsHit : Z;
  damageDealt : R;
  shootCooldown : R;
  shootCooldownMax : R;
  damageFlash : R;
  respawnTimer : R;
  respawnTime : R;
  invulnerable : R;
  jumpForce : R;
  canJump : bool;
  jumpCooldown : R;
  moveSpeed : R;
  airControl : R;
  jumpGraceTimer : option R;
  currentWeapon : option string
}.

Definition set_name (p : t) (v : string) : t :=
  mk (id p) (index p) v (color p) (x p) (y p) (vx p) (vy p) (radius p)
    (isGrounded p) (groundedPlanetIndex p) (surfaceAngle p) (moveX p)
    (facingLeft p) (aimAngle p) (health p) (maxHealth p) (alive p)
    (kills p) (deaths p) (shotsFired p) (shotsHit p) (damageDealt p)
    (shootCooldown p) (shootCooldownMax p) (damageFlash p)
    (respawnTimer p) (respawnTime p) (invulnerable p) (jumpForce p)
    (canJump p) (jumpCooldown p) (moveSpeed p) (airControl p)
    (jumpGraceTimer p) (currentWeapon p).
Definition set_color (p : t) (v : string) : t :=
  mk (id p) (index p) (name p) v (x p) (y p) (vx p) (vy p) (radius p)
    (isGrounded p) (groundedPlanetIndex p) (surfaceAngle p) (moveX p)
    (facingLeft p) (aimAngle p) (health p) (maxHealth p) (alive p)
    (kills p) (deaths p) (shotsFired p) (shotsHit p) (damageDealt p)
    (shootCooldown p) (shootCooldownMax p) (damageFlash p)
    (respawnTimer p) (respawnTime p) (invulnerable p) (jumpForce p)
    (canJump p) (jumpCooldown p) (moveSpeed p) (airControl p)
    (jumpGraceTimer p) (currentWeapon p).
Definition set_x (p : t) (v : R) : t :=
  mk (id p) (index p) (name p) (color p) v (y p) (vx p) (vy p) (radius p)
    (isGrounded p) (groundedPlanetIndex p) (surfaceAngle p) (moveX p)
    (facingLeft p) (aimAngle p) (health p) (maxHealth p) (alive p)
    (kills p) (deaths p) (shotsFired p) (shotsHit p) (damageDealt p)
    (shootCooldown p) (shootCooldownMax p) (damageFlash p)
    (respawnTimer p) (respawnTime p) (invulnerable p) (jumpForce p)
    (canJump p) (jumpCooldown p) (moveSpeed p) (airControl p)
    (jumpGraceTimer p) (currentWeapon p).
Definition set_y (p : t) (v : R) : t :=
  mk (id p) (index p) (name p) (color p) (x p) v (vx p) (vy p) (radius p)
    (isGrounded p) (groundedPlanetIndex p) (surfaceAngle p) (moveX p)
    (facingLeft p) (aimAngle p) (health p) (maxHealth p) (alive p)
    (kills p) (deaths p) (shotsFired p) (shotsHit p) (damageDealt p)
    (shootCooldown p) (shootCooldownMax p) (damageFlash p)
    (respawnTimer p) (respawnTime p) (invulnerable p) (jumpForce p)
    (canJump p) (jumpCooldown p) (moveSpeed p) (airControl p)
    (jumpGraceTimer p) (currentWeapon p).
Definition set_vx (p : t) (v : R) : t :=
  mk (id p) (index p) (name p) (color p) (x p) (y p) v (vy p) (radius p)
    (isGrounded p) (groundedPlanetIndex p) (surfaceAngle p) (moveX p)
    (facingLeft p) (aimAngle p) (health p) (maxHealth p) (alive p)
    (kills p) (deaths p) (shotsFired p) (shotsHit p) (damageDealt p)
    (shootCooldown p) (shootCooldownMax p) (damageFlash p)
    (respawnTimer p) (respawnTime p) (invulnerable p) (jumpForce p)
    (canJump p) (jumpCooldown p) (moveSpeed p) (airControl p)
    (jumpGraceTimer p) (currentWeapon p).
Definition set_vy (p : t) (v : R) : t :=
  mk (id p) (index p) (name p) (color p) (x p) (y p) (vx p) v (radius p)
    (isGrounded p) (groundedPlanetIndex p) (surfaceAngle p) (moveX p)
    (facingLeft p) (aimAngle p) (health p) (maxHealth p) (alive p)
    (kills p) (deaths p) (shotsFired p) (shotsHit p) (damageDealt p)
    (shootCooldown p) (shootCooldownMax p) (damageFlash p)
    (respawnTimer p) (respawnTime p) (invulnerable p) (jumpForce p)
    (canJump p) (jumpCooldown p) (moveSpeed p) (airControl p)
    (jumpGraceTimer p) (currentWeapon p).
Definition set_isGrounded (p : t) (v : bool) : t :=
  mk (id p) (index p) (name p) (color p) (x p) (y p) (vx p) (vy p)
    (radius p) v (groundedPlanetIndex p) (surfaceAngle p) (moveX p)
    (facingLeft p) (aimAngle p) (health p) (maxHealth p) (alive p)
    (kills p) (deaths p) (shotsFired p) (shotsHit p) (damageDealt p)
    (shootCooldown p) (shootCooldownMax p) (damageFlash p)
    (respawnTimer p) (respawnTime p) (invulnerable p) (jumpForce p)
    (canJump p) (jumpCooldown p) (moveSpeed p) (airControl p)
    (jumpGraceTimer p) (currentWeapon p).
Definition set_groundedPlanetIndex (p : t) (v : Z) : t :=
  mk (id p) (index p) (name p) (color p) (x p) (y p) (vx p) (vy p)
    (radius p) (isGrounded p) v (surfaceAngle p) (moveX p) (facingLeft p)
    (aimAngle p) (health p) (maxHealth p) (alive p) (kills p) (deaths p)
    (shotsFired p) (shotsHit p) (damageDealt p) (shootCooldown p)
    (shootCooldownMax p) (damageFlash p) (respawnTimer p) (respawnTime p)
    (invulnerable p) (jumpForce p) (canJump p) (jumpCooldown p)
    (moveSpeed p) (airControl p) (jumpGraceTimer p) (currentWeapon p).
Definition set_surfaceAngle (p : t) (v : R) : t :=
  mk (id p) (index p) (name p) (color p) (x p) (y p) (vx p) (vy p)
    (radius p) (isGrounded p) (groundedPlanetIndex p) v (moveX p)
    (facingLeft p) (aimAngle p) (health p) (maxHealth p) (alive p)
    (kills p) (deaths p) (shotsFired p) (shotsHit p) (damageDealt p)
    (shootCooldown p) (shootCooldownMax p) (damageFlash p)
    (respawnTimer p) (respawnTime p) (invulnerable p) (jumpForce p)
    (canJump p) (jumpCooldown p) (moveSpeed p) (airControl p)
    (jumpGraceTimer p) (currentWeapon p).
Definition set_moveX (p : t) (v : R) : t :=
  mk (id p) (index p) (name p) (color p) (x p) (y p) (vx p) (vy p)
    (radius p) (isGrounded p) (groundedPlanetIndex p) (surfaceAngle p) v
    (facingLeft p) (aimAngle p) (health p) (maxHealth p) (alive p)
    (kills p) (deaths p) (shotsFired p) (shotsHit p) (damageDealt p)
    (shootCooldown p) (shootCooldownMax p) (damageFlash p)
    (respawnTimer p) (respawnTime p) (invulnerable p) (jumpForce p)
    (canJump p) (jumpCooldown p) (moveSpeed p) (airControl p)
    (jumpGraceTimer p) (currentWeapon p).
Definition set_facingLeft (p : t) (v : bool) : t :=
  mk (id p) (index p) (name p) (color p) (x p) (y p) (vx p) (vy p)
    (radius p) (isGrounded p) (groundedPlanetIndex p) (surfaceAngle p)
    (moveX p) v (aimAngle p) (health p) (maxHealth p) (alive p) (kills p)
    (deaths p) (shotsFired p) (shotsHit p) (damageDealt p)
    (shootCooldown p) (shootCooldownMax p) (damageFlash p)
    (respawnTimer p) (respawnTime p) (invulnerable p) (jumpForce p)
    (canJump p) (jumpCooldown p) (moveSpeed p) (airControl p)
    (jumpGraceTimer p) (currentWeapon p).
Definition set_health (p : t) (v : R) : t :=
  mk (id p) (index p) (name p) (color p) (x p) (y p) (vx p) (vy p)
    (radius p) (isGrounded p) (groundedPlanetIndex p) (surfaceAngle p)
    (moveX p) (facingLeft p) (aimAngle p) v (maxHealth p) (alive p)
    (kills p) (deaths p) (shotsFired p) (shotsHit p) (damageDealt p)
    (shootCooldown p) (shootCooldownMax p) (damageFlash p)
    (respawnTimer p) (respawnTime p) (invulnerable p) (jumpForce p)
    (canJump p) (jumpCooldown p) (moveSpeed p) (airControl p)
    (jumpGraceTimer p) (currentWeapon p).
Definition set_alive (p : t) (v : bool) : t :=
  mk (id p) (index p) (name p) (color p) (x p) (y p) (vx p) (vy p)
    (radius p) (isGrounded p) (groundedPlanetIndex p) (surfaceAngle p)
    (moveX p) (facingLeft p) (aimAngle p) (health p) (maxHealth p) v
    (kills p) (deaths p) (shotsFired p) (shotsHit p) (damageDealt p)
    (shootCooldown p) (shootCooldownMax p) (damageFlash p)
    (respawnTimer p) (respawnTime p) (invulnerable p) (jumpForce p)
    (canJump p) (jumpCooldown p) (moveSpeed p) (airControl p)
    (jumpGraceTimer p) (currentWeapon p).
Definition set_kills (p : t) (v : Z) : t :=
  mk (id p) (index p) (name p) (color p) (x p) (y p) (vx p) (vy p)
    (radius p) (isGrounded p) (groundedPlanetIndex p) (surfaceAngle p)
    (moveX p) (facingLeft p) (aimAngle p) (health p) (maxHealth p)
    (alive p) v (deaths p) (shotsFired p) (shotsHit p) (damageDealt p)
    (shootCooldown p) (shootCooldownMax p) (damageFlash p)
    (respawnTimer p) (respawnTime p) (invulnerable p) (jumpForce p)
    (canJump p) (jumpCooldown p) (moveSpeed p) (airControl p)
    (jumpGraceTimer p) (currentWeapon p).
Definition set_deaths (p : t) (v : Z) : t :=
  mk (id p) (index p) (name p) (color p) (x p) (y p) (vx p) (vy p)
    (radius p) (isGrounded p) (groundedPlanetIndex p) (surfaceAngle p)
    (moveX p) (facingLeft p) (aimAngle p) (health p) (maxHealth p)
    (alive p) (kills p) v (shotsFired p) (shotsHit p) (damageDealt p)
    (shootCooldown p) (shootCooldownMax p) (damageFlash p)
    (respawnTimer p) (respawnTime p) (invulnerable p) (jumpForce p)
    (canJump p) (jumpCooldown p) (moveSpeed p) (airControl p)
    (jumpGraceTimer p) (currentWeapon p).
Definition set_shotsFired (p : t) (v : Z) : t :=
  mk (id p) (index p) (name p) (color p) (x p) (y p) (vx p) (vy p)
    (radius p) (isGrounded p) (groundedPlanetIndex p) (surfaceAngle p)
    (moveX p) (facingLeft p) (aimAngle p) (health p) (maxHealth p)
    (alive p) (kills p) (deaths p) v (shotsHit p) (damageDealt p)
    (shootCooldown p) (shootCooldownMax p) (damageFlash p)
    (respawnTimer p) (respawnTime p) (invulnerable p) (jumpForce p)
    (canJump p) (jumpCooldown p) (moveSpeed p) (airControl p)
    (jumpGraceTimer p) (currentWeapon p).
Definition set_shotsHit (p : t) (v : Z) : t :=
  mk (id p) (index p) (name p) (color p) (x p) (y p) (vx p) (vy p)
    (radius p) (isGrounded p) (groundedPlanetIndex p) (surfaceAngle p)
    (moveX p) (facingLeft p) (aimAngle p) (health p) (maxHealth p)
    (alive p) (kills p) (deaths p) (shotsFired p) v (damageDealt p)
    (shootCooldown p) (shootCooldownMax p) (damageFlash p)
    (respawnTimer p) (respawnTime p) (invulnerable p) (jumpForce p)
    (canJump p) (jumpCooldown p) (moveSpeed p) (airControl p)
    (jumpGraceTimer p) (currentWeapon p).
Definition set_damageDealt (p : t) (v : R) : t :=
  mk (id p) (index p) (name p) (color p) (x p) (y p) (vx p) (vy p)
    (radius p) (isGrounded p) (groundedPlanetIndex p) (surfaceAngle p)
    (moveX p) (facingLeft p) (aimAngle p) (health p) (maxHealth p)
    (alive p) (kills p) (deaths p) (shotsFired p) (shotsHit p) v
    (shootCooldown p) (shootCooldownMax p) (damageFlash p)
    (respawnTimer p) (respawnTime p) (invulnerable p) (jumpForce p)
    (canJump p) (jumpCooldown p) (moveSpeed p) (airControl p)
    (jumpGraceTimer p) (currentWeapon p).
Definition set_shootCooldown (p : t) (v : R) : t :=
  mk (id p) (index p) (name p) (color p) (x p) (y p) (vx p) (vy p)
    (radius p) (isGrounded p) (groundedPlanetIndex p) (surfaceAngle p)
    (moveX p) (facingLeft p) (aimAngle p) (health p) (maxHealth p)
    (alive p) (kills p) (deaths p) (shotsFired p) (shotsHit p)
    (damageDealt p) v (shootCooldownMax p) (damageFlash p)
    (respawnTimer p) (respawnTime p) (invulnerable p) (jumpForce p)
    (canJump p) (jumpCooldown p) (moveSpeed p) (airControl p)
    (jumpGraceTimer p) (currentWeapon p).
Definition set_shootCooldownMax (p : t) (v : R) : t :=
  mk (id p) (index p) (name p) (color p) (x p) (y p) (vx p) (vy p)
    (radius p) (isGrounded p) (groundedPlanetIndex p) (surfaceAngle p)
    (moveX p) (facingLeft p) (aimAngle p) (health p) (maxHealth p)
    (alive p) (kills p) (deaths p) (shotsFired p) (shotsHit p)
    (damageDealt p) (shootCooldown p) v (damageFlash p) (respawnTimer p)
    (respawnTime p) (invulnerable p) (jumpForce p) (canJump p)
    (jumpCooldown p) (moveSpeed p) (airControl p) (jumpGraceTimer p)
    (currentWeapon p).
Definition set_damageFlash (p : t) (v : R) : t :=
  mk (id p) (index p) (name p) (color p) (x p) (y p) (vx p) (vy p)
    (radius p) (isGrounded p) (groundedPlanetIndex p) (surfaceAngle p)
    (moveX p) (facingLeft p) (aimAngle p) (health p) (maxHealth p)
    (alive p) (kills p) (deaths p) (shotsFired p) (shotsHit p)
    (damageDealt p) (shootCooldown p) (shootCooldownMax p) v
    (respawnTimer p) (respawnTime p) (invulnerable p) (jumpForce p)
    (canJump p) (jumpCooldown p) (moveSpeed p) (airControl p)
    (jumpGraceTimer p) (currentWeapon p).
Definition set_respawnTimer (p : t) (v : R) : t :=
  mk (id p) (index p) (name p) (color p) (x p) (y p) (vx p) (vy p)
    (radius p) (isGrounded p) (groundedPlanetIndex p) (surfaceAngle p)
    (moveX p) (facingLeft p) (aimAngle p) (health p) (maxHealth p)
    (alive p) (kills p) (deaths p) (shotsFired p) (shotsHit p)
    (damageDealt p) (shootCooldown p) (shootCooldownMax p) (damageFlash p)
    v (respawnTime p) (invulnerable p) (jumpForce p) (canJump p)
    (jumpCooldown p) (moveSpeed p) (airControl p) (jumpGraceTimer p)
    (currentWeapon p).
Definition set_invulnerable (p : t) (v : R) : t :=
  mk (id p) (index p) (name p) (color p) (x p) (y p) (vx p) (vy p)
    (radius p) (isGrounded p) (groundedPlanetIndex p) (surfaceAngle p)
    (moveX p) (facingLeft p) (aimAngle p) (health p) (maxHealth p)
    (alive p) (kills p) (deaths p) (shotsFired p) (shotsHit p)
    (damageDealt p) (shootCooldown p) (shootCooldownMax p) (damageFlash p)
    (respawnTimer p) (respawnTime p) v (jumpForce p) (canJump p)
    (jumpCooldown p) (moveSpeed p) (airControl p) (jumpGraceTimer p)
    (currentWeapon p).
Definition set_jumpCooldown (p : t) (v : R) : t :=
  mk (id p) (index p) (name p) (color p) (x p) (y p) (vx p) (vy p)
    (radius p) (isGrounded p) (groundedPlanetIndex p) (surfaceAngle p)
    (moveX p) (facingLeft p) (aimAngle p) (health p) (maxHealth p)
    (alive p) (kills p) (deaths p) (shotsFired p) (shotsHit p)
    (damageDealt p) (shootCooldown p) (shootCooldownMax p) (damageFlash p)
    (respawnTimer p) (respawnTime p) (invulnerable p) (jumpForce p)
    (canJump p) v (moveSpeed p) (airControl p) (jumpGraceTimer p)
    (currentWeapon p).
Definition set_jumpGraceTimer (p : t) (v : option R) : t :=
  mk (id p) (index p) (name p) (color p) (x p) (y p) (vx p) (vy p)
    (radius p) (isGrounded p) (groundedPlanetIndex p) (surfaceAngle p)
    (moveX p) (facingLeft p) (aimAngle p) (health p) (maxHealth p)
    (alive p) (kills p) (deaths p) (shotsFired p) (shotsHit p)
    (damageDealt p) (shootCooldown p) (shootCooldownMax p) (damageFlash p)
    (respawnTimer p) (respawnTime p) (invulnerable p) (jumpForce p)
    (canJump p) (jumpCooldown p) (moveSpeed p) (airControl p) v
    (currentWeapon p).
Definition set_currentWeapon (p : t) (v : option string) : t :=
  mk (id p) (index p) (name p) (color p) (x p) (y p) (vx p) (vy p)
    (radius p) (isGrounded p) (groundedPlanetIndex p) (surfaceAngle p)
    (moveX p) (facingLeft p) (aimAngle p) (health p) (maxHealth p)
    (alive p) (kills p) (deaths p) (shotsFired p) (shotsHit p)
    (damageDealt p) (shootCooldown p) (shootCooldownMax p) (damageFlash p)
    (respawnTimer p) (respawnTime p) (invulnerable p) (jumpForce p)
    (canJump p) (jumpCooldown p) (moveSpeed p) (airControl p)
    (jumpGraceTimer p) v.

Definition PLAYER_COLORS : list string :=
  ["#00d4ff"; "#ff6b35"; "#00ff88"; "#ff3366"]%string.
Definition PLAYER_NAMES_DEFAULT : list string :=
  ["Player 1"; "Player 2"; "Player 3"; "Player 4"]%string.

(** [new Player (id, playerIndex)].  For an index outside the two tables the
    source builds the name from the index and takes a white colour; the four
    players of a match never get there, and [fallbackName] stands for the
    formatted name. *)
Definition new (id : string) (playerIndex : Z) (fallbackName : string) : t :=
  let entry (table : list string) (default : string) :=
    if (playerIndex <? 0)%Z then default
    else nth (Z.to_nat playerIndex) table default in
  mk id playerIndex
     (entry PLAYER_NAMES_DEFAULT fallbackName)
     (entry PLAYER_COLORS "#ffffff"%string)
     0 0 0 0 12
     false (-1) 0 0 false 0
     100 100 true 0 0 0 0 0
     0 0.6 0 0 3 0
     300 true 0
     200 80
     None None.

(** [spawn (planet, angle)] *)
Definition spawn (p : t) (planet : Planet.t) (angle : R) : t :=
  let surfPos := Planet.getSurfacePoint planet angle in
  let p := set_x p (Vec2.x surfPos) in
  let p := set_y p (Vec2.y surfPos) in
  let p := set_vx p 0 in
  let p := set_vy p 0 in
  let p := set_isGrounded p true in
  let p := set_surfaceAngle p angle in
  let p := set_health p (maxHealth p) in
  let p := set_alive p true in
  let p := set_damageFlash p 0 in
  let p := set_invulnerable p 2 in
  set_respawnTimer p 0.

Definition takeDamage (p : t) (amount : R) : t * bool :=
  if negb (alive p) || (0 <? invulnerable p) then (p, false)
  else
    let p := set_health p (health p - amount) in
    let p := set_damageFlash p 0.5 in
    if health p <=? 0 then
      let p := set_health p 0 in
      let p := set_alive p false in
      let p := set_deaths p (deaths p + 1)%Z in
      let p := set_respawnTimer p (respawnTime p) in
      (p, true)
    else (p, false).

Definition updateTimers (p : t) (dt : R) : t :=
  let p := if 0 <? shootCooldown p
           then set_shootCooldown p (shootCooldown p - dt) else p in
  let p := if 0 <? damageFlash p
           then set_damageFlash p (damageFlash p - dt * 3) else p in
  let p := if 0 <? jumpCooldown p
           then set_jumpCooldown p (jumpCooldown p - dt) else p in
  let p := if 0 <? invulnerable p
           then set_invulnerable p (invulnerable p - dt) else p in
  let p := if negb (alive p) && (0 <? respawnTimer p)
           then set_respawnTimer p (respawnTimer p - dt) else p in
  p.

Definition canShoot (p : t) : bool :=
  alive p && (shootCooldown p <=? 0).

Definition serialize (p : t) : PlayerData.t :=
  PlayerData.mk
    (id p)
    (index p)
    (name p)
    (color p)
    (Num.round (x p * 10) / 10)
    (Num.round (y p * 10) / 10)
    (Num.round (vx p * 10) / 10)
    (Num.round (vy p * 10) / 10)
    (isGrounded p)
    (Num.round (surfaceAngle p * 100) / 100)
    (Num.round (moveX p * 100) / 100)
    (facingLeft p)
    (health p)
    (alive p)
    (kills p)
    (deaths p)
    (Num.round (damageFlash p * 100) / 100)
    (Num.round (respawnTimer p * 100) / 100)
    (0 <? invulnerable p).

Definition applyState (p : t) (data : PlayerData.t) : t :=
  let p := set_x p (PlayerData.x data) in
  let p := set_y p (PlayerData.y data) in
  let p := set_vx p (PlayerData.vx data) in
  let p := set_vy p (PlayerData.vy data) in
  let p := set_isGrounded p (PlayerData.gr data) in
  let p := set_surfaceAngle p (PlayerData.sa data) in
  let p := set_moveX p (PlayerData.mx data) in
  let p := set_facingLeft p (PlayerData.fl data) in
  let p := set_health p (PlayerData.hp data) in
  let p := set_alive p (PlayerData.al data) in
  let p := set_kills p (PlayerData.k data) in
  let p := set_deaths p (PlayerData.d data) in
  let p := set_damageFlash p (PlayerData.df data) in
  let p := set_respawnTimer p (PlayerData.rt data) in
  let p := set_invulnerable p (if PlayerData.iv data then 1 else 0) in
  p.

Definition fromSerialized (data : PlayerData.t) (fallbackName : string)
    : t :=
  let p := new (PlayerData.id data) (PlayerData.idx data) fallbackName in
  let p := set_name p (PlayerData.n data) in
  let p := set_color p (PlayerData.c data) in
  applyState p data.

End Player.

(** ** Projectile.js *)

(** The object [Projectile.serialize] builds. *)
Module ProjectileData.

Record t : Type := mk {
  x : R;
  y : R;
  vx : R;
  vy : R;
  o : string;
  c : string;
  a : R
}.

End ProjectileData.

Module Projectile.

Record t : Type := mk {
  x : R;
  y : R;
  vx : R;
  vy : R;
  ownerId : string;
  color : string;
  radius : R;
  damage : R;
  lifetime : R;
  age : R;
  active : bool
}.

Definition set_x (p : t) (v : R) : t :=
  mk v (y p) (vx p) (vy p) (ownerId p) (color p) (radius p) (damage p)
    (lifetime p) (age p) (active p).
Definition set_y (p : t) (v : R) : t :=
  mk (x p) v (vx p) (vy p) (ownerId p) (color p) (radius p) (damage p)
    (lifetime p) (age p) (active p).
Definition set_vx (p : t) (v : R) : t :=
  mk (x p) (y p) v (vy p) (ownerId p) (color p) (radius p) (damage p)
    (lifetime p) (age p) (active p).
Definition set_vy (p : t) (v : R) : t :=
  mk (x p) (y p) (vx p) v (ownerId p) (color p) (radius p) (damage p)
    (lifetime p) (age p) (active p).
Definition set_radius (p : t) (v : R) : t :=
  mk (x p) (y p) (vx p) (vy p) (ownerId p) (color p) v (damage p)
    (lifetime p) (age p) (active p).
Definition set_damage (p : t) (v : R) : t :=
  mk (x p) (y p) (vx p) (vy p) (ownerId p) (color p) (radius p) v
    (lifetime p) (age p) (active p).
Definition set_lifetime (p : t) (v : R) : t :=
  mk (x p) (y p) (vx p) (vy p) (ownerId p) (color p) (radius p) (damage p) v
    (age p) (active p).
Definition set_age (p : t) (v : R) : t :=
  mk (x p) (y p) (vx p) (vy p) (ownerId p) (color p) (radius p) (damage p)
    (lifetime p) v (active p).
Definition set_active (p : t) (v : bool) : t :=
  mk (x p) (y p) (vx p) (vy p) (ownerId p) (color p) (radius p) (damage p)
    (lifetime p) (age p) v.

(** [new Projectile (x, y, vx, vy, ownerId, color)] *)
Definition new (x y vx vy : R) (ownerId color : string) : t :=
  mk x y vx vy ownerId color 3 20 3 0 true.

Definition update (p : t) (dt : R) : t :=
  let p := set_x p (x p + vx p * dt) in
  let p := set_y p (y p + vy p * dt) in
  let p := set_age p (age p + dt) in
  if lifetime p <=? age p then set_active p false else p.

Definition serialize (p : t) : ProjectileData.t :=
  ProjectileData.mk
    (Num.round (x p))
    (Num.round (y p))
    (Num.round (vx p))
    (Num.round (vy p))
    (ownerId p)
    (color p)
    (Num.round (age p * 100) / 100).

Definition fromSerialized (data : ProjectileData.t) : t :=
  let p := new (ProjectileData.x data) (ProjectileData.y data)
             (ProjectileData.vx data) (ProjectileData.vy data)
             (ProjectileData.o data) (ProjectileData.c data) in
  set_age p (ProjectileData.a data).

End Projectile.

(** ** Meteorite.js *)

(** The object [Meteorite.serialize] builds. *)
Module MeteoriteData.

Record t : Type := mk {
  x : R;
  y : R;
  vx : R;
  vy : R;
  r : R;
  rot : R;
  sh : list R
}.

End MeteoriteData.

Module Meteorite.

Record t : Type := mk {
  x : R;
  y : R;
  vx : R;
  vy : R;
  radius : R;
  rotation : R;
  rotationSpeed : R;
  active : bool;
  lifetime : R;
  age : R;
  damage : R;
  shape : list R
}.

Definition set_x (p : t) (v : R) : t :=
  mk v (y p) (vx p) (vy p) (radius p) (rotation p) (rotationSpeed p)
    (active p) (lifetime p) (age p) (damage p) (shape p).
Definition set_y (p : t) (v : R) : t :=
  mk (x p) v (vx p) (vy p) (radius p) (rotation p) (rotationSpeed p)
    (active p) (lifetime p) (age p) (damage p) (shape p).
Definition set_vx (p : t) (v : R) : t :=
  mk (x p) (y p) v (vy p) (radius p) (rotation p) (rotationSpeed p)
    (active p) (lifetime p) (age p) (damage p) (shape p).
Definition set_vy (p : t) (v : R) : t :=
  mk (x p) (y p) (vx p) v (radius p) (rotation p) (rotationSpeed p)
    (active p) (lifetime p) (age p) (damage p) (shape p).
Definition set_rotation (p : t) (v : R) : t :=
  mk (x p) (y p) (vx p) (vy p) (radius p) v (rotationSpeed p) (active p)
    (lifetime p) (age p) (damage p) (shape p).
Definition set_active (p : t) (v : bool) : t :=
  mk (x p) (y p) (vx p) (vy p) (radius p) (rotation p) (rotationSpeed p) v
    (lifetime p) (age p) (damage p) (shape p).
Definition set_age (p : t) (v : R) : t :=
  mk (x p) (y p) (vx p) (vy p) (radius p) (rotation p) (rotationSpeed p)
    (active p) (lifetime p) v (damage p) (shape p).
Definition set_shape (p : t) (v : list R) : t :=
  mk (x p) (y p) (vx p) (vy p) (radius p) (rotation p) (rotationSpeed p)
    (active p) (lifetime p) (age p) (damage p) v.

(** The loop that fills [shape]: one draw per point. *)
Fixpoint shapeDraws (rnd : Num.Rand) (k : nat) (points : nat) : list R :=
  match points with
  | O => []
  | S points' => (0.7 + rnd k * 0.5) :: shapeDraws rnd (S k) points'
  end.

(** [new Meteorite (x, y, vx, vy, radius)]: the constructor draws the
    rotation, the spin and the outline; it returns the cursor after its
    draws. *)
Definition new (x y vx vy radius : R) (rnd : Num.Rand) (k : nat) : t * nat :=
  let rotation := rnd k * PI * 2 in
  let rotationSpeed := (rnd (1 + k)%nat - 0.5) * 4 in
  let points := (8 + Z.to_nat (Num.floor (rnd (2 + k)%nat * 4)))%nat in
  let shape := shapeDraws rnd (3 + k)%nat points in
  (mk x y vx vy radius rotation rotationSpeed true 10 0 50 shape,
   (3 + k + points)%nat).

Definition update (m : t) (dt : R) : t :=
  let m := set_x m (x m + vx m * dt) in
  let m := set_y m (y m + vy m * dt) in
  let m := set_rotation m (rotation m + rotationSpeed m * dt) in
  let m := set_age m (age m + dt) in
  if lifetime m <=? age m then set_active m false else m.

Definition serialize (m : t) : MeteoriteData.t :=
  MeteoriteData.mk
    (Num.round (x m))
    (Num.round (y m))
    (Num.round (vx m))
    (Num.round (vy m))
    (radius m)
    (Num.round (rotation m * 100) / 100)
    (shape m).

Definition fromSerialized (data : MeteoriteData.t) (rnd : Num.Rand) (k : nat)
    : t * nat :=
  let '(m, k) := new (MeteoriteData.x data) (MeteoriteData.y data)
                   (MeteoriteData.vx data) (MeteoriteData.vy data)
                   (MeteoriteData.r data) rnd k in
  let m := set_rotation m (MeteoriteData.rot data) in
  let m := set_shape m (MeteoriteData.sh data) in
  (m, k).

End Meteorite.

(** ** Pickup.js *)

(** The object [Pickup.serialize] builds. *)
Module PickupData.

Record t : Type := mk {
  id : string;
  x : R;
  y : R;
  t_ : string
}.

End PickupData.

(** An entry of the constant table [PICKUP_TYPES], or any other object found
    under a key of the table; a property the object lacks is [None]. *)
Module PickupType.

Record t : Type := mk {
  color : option string;
  icon : option string;
  name : option string
}.

End PickupType.

Module Pickup.

Definition PICKUP_TYPES : list (string * PickupType.t) :=
  [("HEALTH"%string,
    PickupType.mk (Some "#00ff88"%string) (Some "+"%string)
      (Some "Health Pack"%string));
   ("SNIPER"%string,
    PickupType.mk (Some "#ff3366"%string) (Some "⌖"%string)
      (Some "Railgun"%string));
   ("MACHINE_GUN"%string,
    PickupType.mk (Some "#00d4ff"%string) (Some "»"%string)
      (Some "Machine Gun"%string));
   ("SHOTGUN"%string,
    PickupType.mk (Some "#ff6b35"%string) (Some "∴"%string)
      (Some "Shotgun"%string))].

(** What a key that is no key of the table finds on the prototype of the
    table, an object literal: the members of [Object.prototype].  They are
    functions, which carry their name, but for [__proto__], which is the
    prototype itself; none has a colour or an icon. *)
Definition inherited : list (string * PickupType.t) :=
  [("constructor"%string, PickupType.mk None None (Some "Object"%string));
   ("hasOwnProperty"%string,
    PickupType.mk None None (Some "hasOwnProperty"%string));
   ("isPrototypeOf"%string,
    PickupType.mk None None (Some "isPrototypeOf"%string));
   ("propertyIsEnumerable"%string,
    PickupType.mk None None (Some "propertyIsEnumerable"%string));
   ("toLocaleString"%string,
    PickupType.mk None None (Some "toLocaleString"%string));
   ("toString"%string, PickupType.mk None None (Some "toString"%string));
   ("valueOf"%string, PickupType.mk None None (Some "valueOf"%string));
   ("__defineGetter__"%string,
    PickupType.mk None None (Some "__defineGetter__"%string));
   ("__defineSetter__"%string,
    PickupType.mk None None (Some "__defineSetter__"%string));
   ("__lookupGetter__"%string,
    PickupType.mk None None (Some "__lookupGetter__"%string));
   ("__lookupSetter__"%string,
    PickupType.mk None None (Some "__lookupSetter__"%string));
   ("__proto__"%string, PickupType.mk None None None)].

(** [PICKUP_TYPES[typeKey]]; [None] is [undefined]. *)
Definition lookup (typeKey : string) : option PickupType.t :=
  option_map snd
    (find (fun entry => String.eqb (fst entry) typeKey)
       (PICKUP_TYPES ++ inherited)).

(** [type] is [PICKUP_TYPES[typeKey]] as the constructor found it. *)
Record t : Type := mk {
  id : string;
  x : R;
  y : R;
  typeKey : string;
  type : option PickupType.t;
  radius : R;
  active : bool;
  baseX : R;
  baseY : R;
  time : R;
  surfaceAngle : R
}.

(** [new Pickup (id, x, y, typeKey)]: one draw for the bobbing phase. *)
Definition new (id : string) (x y : R) (typeKey : string)
    (rnd : Num.Rand) (k : nat) : t * nat :=
  (mk id x y typeKey (lookup typeKey) 15 true x y (rnd k * 10) 0, S k).

Definition update (p : t) (dt : R) : t :=
  mk (id p) (x p) (y p) (typeKey p) (type p) (radius p) (active p) (baseX p)
    (baseY p) (time p + dt * 3) (surfaceAngle p).

Definition set_active (p : t) (v : bool) : t :=
  mk (id p) (x p) (y p) (typeKey p) (type p) (radius p) v (baseX p)
    (baseY p) (time p) (surfaceAngle p).

Definition serialize (p : t) : PickupData.t :=
  PickupData.mk (id p) (Num.round (x p))
    (Num.round (y p)) (typeKey p).

Definition fromSerialized (data : PickupData.t) (rnd : Num.Rand) (k : nat)
    : t * nat :=
  new (PickupData.id data) (PickupData.x data) (PickupData.y data)
    (PickupData.t_ data) rnd k.

End Pickup.


(** ** GravitySystem.js (the rewritten revision, with the jump grace) *)

(** [applyGravity] tells a player from a projectile or a meteorite by probing
    for the field [isGrounded]; the three shapes it is called with are the
    constructors of [Entity.t]. *)
Module Entity.

Inductive t : Type :=
| OfPlayer (p : Player.t)
| OfProjectile (p : Projectile.t)
| OfMeteorite (m : Meteorite.t).

Definition x (e : t) : R :=
  match e with
  | OfPlayer p => Player.x p
  | OfProjectile p => Projectile.x p
  | OfMeteorite m => Meteorite.x m
  end.

Definition y (e : t) : R :=
  match e with
  | OfPlayer p => Player.y p
  | OfProjectile p => Projectile.y p
  | OfMeteorite m => Meteorite.y m
  end.

Definition vx (e : t) : R :=
  match e with
  | OfPlayer p => Player.vx p
  | OfProjectile p => Projectile.vx p
  | OfMeteorite m => Meteorite.vx m
  end.

Definition vy (e : t) : R :=
  match e with
  | OfPlayer p => Player.vy p
  | OfProjectile p => Projectile.vy p
  | OfMeteorite m => Meteorite.vy m
  end.

(** [!entity.alive && entity.alive !== undefined] or the same on [active]:
    the entity is skipped by [GravitySystem.update]. *)
Definition skipped (e : t) : bool :=
  match e with
  | OfPlayer p => negb (Player.alive p)
  | OfProjectile p => negb (Projectile.active p)
  | OfMeteorite m => negb (Meteorite.active m)
  end.

End Entity.

Module GravitySystem.

Definition surfaceThreshold : R := 8.
Definition surfaceFriction : R := 0.85.

(** The loop of [applyGravity] that sums the pull of the planets in range. *)
Fixpoint totalAccel (pos : Vec2.t) (planets : list Planet.t) (acc : Vec2.t)
    : Vec2.t :=
  match planets with
  | [] => acc
  | planet :: rest =>
      let dist :=
        Vec2.distTo pos (Vec2.mk (Planet.x planet) (Planet.y planet)) in
      if dist <? Planet.gravityRange planet
      then totalAccel pos rest (Vec2.add acc (Physics.gravityAccel pos planet))
      else totalAccel pos rest acc
  end.

(** [player.jumpGraceTimer <= 0]; the comparison is false on [undefined]. *)
Definition canLand (player : Player.t) : bool :=
  match Player.jumpGraceTimer player with
  | Some g => g <=? 0
  | None => false
  end.

(** The grounded branch of [_handlePlayerGravity]. *)
Definition grounded (player : Player.t) (nearestPlanet : Planet.t) (dt : R)
    (rnd : Num.Rand) (k : nat) : Player.t * nat :=
  let surfPoint :=
    Physics.projectToSurface (Vec2.mk (Player.x player) (Player.y player))
      nearestPlanet in
  let player := Player.set_x player (Vec2.x surfPoint) in
  let player := Player.set_y player (Vec2.y surfPoint) in
  let player :=
    Player.set_surfaceAngle player
      (Physics.surfaceAngle (Vec2.mk (Player.x player) (Player.y player))
         nearestPlanet) in
  let currentMoveSpeed := Player.moveSpeed player in
  let currentFriction := surfaceFriction in
  let theme := Planet.themeKey nearestPlanet in
  let '(player, currentMoveSpeed, currentFriction, k) :=
    if String.eqb theme "ice" then
      (player, currentMoveSpeed, 0.98, k)
    else if String.eqb theme "desert" then
      (player, Player.moveSpeed player * 0.6, currentFriction, k)
    else if String.eqb theme "lava" then
      (if rnd k <? dt * 5
       then fst (Player.takeDamage player 1) else player,
       currentMoveSpeed, currentFriction, S k)
    else if String.eqb theme "forest" then
      if Player.health player <? Player.maxHealth player then
        (if rnd k <? dt * 5
         then Player.set_health player (Player.health player + 1) else player,
         currentMoveSpeed, currentFriction, S k)
      else (player, currentMoveSpeed, currentFriction, k)
    else (player, currentMoveSpeed, currentFriction, k) in
  let player :=
    if 0.1 <? Rabs (Player.moveX player) then
      let moveDir := if 0 <? Player.moveX player then 1 else -1 in
      let angularSpeed :=
        currentMoveSpeed / Planet.radius nearestPlanet * dt in
      let player :=
        Player.set_surfaceAngle player
          (Player.surfaceAngle player + angularSpeed * moveDir) in
      let newPos :=
        Planet.getSurfacePoint nearestPlanet (Player.surfaceAngle player) in
      let player := Player.set_x player (Vec2.x newPos) in
      let player := Player.set_y player (Vec2.y newPos) in
      Player.set_facingLeft player (moveDir <? 0)
    else player in
  let player := Player.set_vx player (Player.vx player * currentFriction) in
  let player := Player.set_vy player (Player.vy player * currentFriction) in
  (player, k).

(** The airborne branch of [_handlePlayerGravity]; [landable] is the value
    of [canLand] computed at the top of the method. *)
Definition airborne (player : Player.t) (nearestPlanet : Planet.t)
    (accel : Vec2.t) (dt : R) (landable : bool) : Player.t :=
  let player := Player.set_vx player (Player.vx player + Vec2.x accel * dt) in
  let player := Player.set_vy player (Player.vy player + Vec2.y accel * dt) in
  let player := Player.set_x player (Player.x player + Player.vx player * dt) in
  let player := Player.set_y player (Player.y player + Player.vy player * dt) in
  let player :=
    if 0.1 <? Rabs (Player.moveX player) then
      let player :=
        Player.set_vx player
          (Player.vx player
           + Player.moveX player * Player.airControl player * dt) in
      Player.set_facingLeft player (Player.moveX player <? 0)
    else player in
  let player :=
    Player.set_surfaceAngle player
      (Physics.surfaceAngle (Vec2.mk (Player.x player) (Player.y player))
         nearestPlanet) in
  let vel :=
    Physics.clampVelocity (Vec2.mk (Player.vx player) (Player.vy player)) in
  let player := Player.set_vx player (Vec2.x vel) in
  let player := Player.set_vy player (Vec2.y vel) in
  if landable
     && Planet.isInside nearestPlanet (Player.x player) (Player.y player)
  then
    let surfPoint :=
      Physics.projectToSurface (Vec2.mk (Player.x player) (Player.y player))
        nearestPlanet in
    let player := Player.set_x player (Vec2.x surfPoint) in
    let player := Player.set_y player (Vec2.y surfPoint) in
    let player := Player.set_isGrounded player true in
    let player := Player.set_vx player (Player.vx player * 0.2) in
    Player.set_vy player (Player.vy player * 0.2)
  else player.

(** The landing transition at the top of [_handlePlayerGravity]. *)
Definition lands (player : Player.t) (dist : R) : bool :=
  let onSurface := dist <=? surfaceThreshold in
  onSurface && negb (Player.isGrounded player) && canLand player.

Definition _handlePlayerGravity (player : Player.t)
    (nearest : option (Planet.t * R)) (accel : Vec2.t) (dt : R)
    (rnd : Num.Rand) (k : nat) : Player.t * nat :=
  match nearest with
  | None => (player, k)
  | Some (nearestPlanet, dist) =>
      let landable := canLand player in
      let player :=
        if lands player dist then
          let player := Player.set_isGrounded player true in
          let player := Player.set_groundedPlanetIndex player (-1) in
          let player := Player.set_vx player (Player.vx player * 0.3) in
          Player.set_vy player (Player.vy player * 0.3)
        else player in
      if Player.isGrounded player
      then grounded player nearestPlanet dt rnd k
      else (airborne player nearestPlanet accel dt landable, k)
  end.

(** [applyGravity] on an entity that has the field [isGrounded]. *)
Definition applyGravityPlayer (player : Player.t) (planets : list Planet.t)
    (dt : R) (rnd : Num.Rand) (k : nat) : Player.t * nat :=
  let pos := Vec2.mk (Player.x player) (Player.y player) in
  let nearest := Physics.nearestPlanet pos planets in
  let accel := totalAccel pos planets (Vec2.mk 0 0) in
  _handlePlayerGravity player nearest accel dt rnd k.

Definition applyGravity (entity : Entity.t) (planets : list Planet.t)
    (dt : R) (rnd : Num.Rand) (k : nat) : Entity.t * nat :=
  let pos := Vec2.mk (Entity.x entity) (Entity.y entity) in
  let accel := totalAccel pos planets (Vec2.mk 0 0) in
  match entity with
  | Entity.OfPlayer p =>
      let '(p, k) := applyGravityPlayer p planets dt rnd k in
      (Entity.OfPlayer p, k)
  | Entity.OfProjectile p =>
      let p := Projectile.set_vx p (Projectile.vx p + Vec2.x accel * dt) in
      let p := Projectile.set_vy p (Projectile.vy p + Vec2.y accel * dt) in
      (Entity.OfProjectile p, k)
  | Entity.OfMeteorite m =>
      let m := Meteorite.set_vx m (Meteorite.vx m + Vec2.x accel * dt) in
      let m := Meteorite.set_vy m (Meteorite.vy m + Vec2.y accel * dt) in
      (Entity.OfMeteorite m, k)
  end.

Fixpoint update (entities : list Entity.t) (planets : list Planet.t) (dt : R)
    (rnd : Num.Rand) (k : nat) : list Entity.t * nat :=
  match entities with
  | [] => ([], k)
  | entity :: rest =>
      let '(entity, k) :=
        if Entity.skipped entity then (entity, k)
        else applyGravity entity planets dt rnd k in
      let '(rest, k) := update rest planets dt rnd k in
      (entity :: rest, k)
  end.

(** [jump (player, nearestPlanet)] *)
Definition jump (player : Player.t) (nearestPlanet : Planet.t)
    : Player.t * bool :=
  if negb (Player.isGrounded player) then (player, false)
  else if negb (Player.canJump player) then (player, false)
  else
    let jumpDir :=
      Vec2.normalize
        (Vec2.mk (Player.x player - Planet.x nearestPlanet)
                 (Player.y player - Planet.y nearestPlanet)) in
    let jumpMultiplier :=
      if String.eqb (Planet.themeKey nearestPlanet) "crystal"
      then 1.5 else 1.0 in
    let player :=
      Player.set_vx player
        (Vec2.x jumpDir * Player.jumpForce player * jumpMultiplier) in
    let player :=
      Player.set_vy player
        (Vec2.y jumpDir * Player.jumpForce player * jumpMultiplier) in
    let player := Player.set_isGrounded player false in
    let player := Player.set_jumpGraceTimer player (Some 0.35) in
    let player :=
      Player.set_x player
        (Player.x player + Vec2.x jumpDir * (surfaceThreshold + 4)) in
    let player :=
      Player.set_y player
        (Player.y player + Vec2.y jumpDir * (surfaceThreshold + 4)) in
    (player, true).

End GravitySystem.

(** ** WeaponSystem.js (the revision with the weapon profiles) *)

Module WeaponSystem.

Definition pelletCount : nat := 7.
Definition spreadAngle : R := PI / 4.
Definition pelletSpeed : R := 1200.
Definition muzzleOffset : R := 30.

(** [player.currentWeapon || 'SHOTGUN'] *)
Definition weaponOf (player : Player.t) : string :=
  match Player.currentWeapon player with
  | Some w => if String.eqb w "" then "SHOTGUN"%string else w
  | None => "SHOTGUN"%string
  end.

(** The angle of pellet [i] before the jitter. *)
Definition pelletAngle (baseAngle spreadAngle : R) (pelletCount i : nat) : R :=
  let halfSpread := spreadAngle / 2 in
  let t := if (1 <? pelletCount)%nat
           then INR i / (INR pelletCount - 1) else 0.5 in
  baseAngle - halfSpread + spreadAngle * t.

(** One turn of the pellet loop: two draws, the angle jitter then the speed
    jitter. *)
Definition pellet (player : Player.t) (muzzleX muzzleY baseAngle : R)
    (spreadAngle pelletSpeed : R) (pColor : string)
    (damage radius lifetime : R) (pelletCount i : nat)
    (rnd : Num.Rand) (k : nat) : Projectile.t :=
  let angle := pelletAngle baseAngle spreadAngle pelletCount i in
  let finalAngle := angle + (rnd k - 0.5) * 0.05 in
  let speed := pelletSpeed + (rnd (S k) - 0.5) * 50 in
  let vx := cos finalAngle * speed in
  let vy := sin finalAngle * speed in
  let proj :=
    Projectile.new muzzleX muzzleY vx vy (Player.id player) pColor in
  let proj := Projectile.set_damage proj damage in
  let proj := Projectile.set_radius proj radius in
  Projectile.set_lifetime proj lifetime.

(** The pellet loop from index [i], with [todo] turns left. *)
Fixpoint pellets (player : Player.t) (muzzleX muzzleY baseAngle : R)
    (spreadAngle pelletSpeed : R) (pColor : string)
    (damage radius lifetime : R) (pelletCount : nat)
    (todo i : nat) (rnd : Num.Rand) (k : nat) : list Projectile.t :=
  match todo with
  | O => []
  | S todo' =>
      pellet player muzzleX muzzleY baseAngle spreadAngle pelletSpeed pColor
        damage radius lifetime pelletCount i rnd k
      :: pellets player muzzleX muzzleY baseAngle spreadAngle pelletSpeed
           pColor damage radius lifetime pelletCount todo' (S i) rnd
           (2 + k)%nat
  end.

(** [fire (player, targetX, targetY, particles)]: the player after the shot,
    the new projectiles and the cursor after the draws. *)
Definition fire (player : Player.t) (targetX targetY : R)
    (rnd : Num.Rand) (k : nat) : Player.t * list Projectile.t * nat :=
  if negb (Player.canShoot player) then (player, [], k)
  else
    let weapon := weaponOf player in
    let '(pelletCount, spreadAngle, pelletSpeed, cooldownMax, pColor,
          damage, radius, lifetime, recoilForce) :=
      if String.eqb weapon "SNIPER" then
        (1%nat, 0, 2200, 1.0, "#ff3366"%string, 70, 4, 2.0, 400)
      else if String.eqb weapon "MACHINE_GUN" then
        (1%nat, PI / 12, 1000, 0.12, "#00d4ff"%string, 10, 2, 1.5, 30)
      else
        (pelletCount, spreadAngle, pelletSpeed, 0.35, Player.color player,
         15, 2, 1.5, 150) in
    let player := Player.set_shootCooldownMax player cooldownMax in
    let player :=
      Player.set_shootCooldown player (Player.shootCooldownMax player) in
    let player :=
      Player.set_shotsFired player (Player.shotsFired player + 1)%Z in
    let dx := targetX - Player.x player in
    let dy := targetY - Player.y player in
    let baseAngle := Num.atan2 dy dx in
    let muzzleX := Player.x player + cos baseAngle * muzzleOffset in
    let muzzleY := Player.y player + sin baseAngle * muzzleOffset in
    let projectiles :=
      pellets player muzzleX muzzleY baseAngle spreadAngle pelletSpeed pColor
        damage radius lifetime pelletCount pelletCount 0 rnd k in
    let player :=
      Player.set_vx player (Player.vx player - cos baseAngle * recoilForce) in
    let player :=
      Player.set_vy player (Player.vy player - sin baseAngle * recoilForce) in
    (player, projectiles, (k + 2 * pelletCount)%nat).

End WeaponSystem.

(** ** HazardSystem.js *)

Module HazardSystem.

Record t : Type := mk {
  spawnTimer : R;
  baseInterval : R;
  minInterval : R;
  escalationRate : R;
  gameTime : R;
  showerTimer : R;
  showerInterval : R;
  showerActive : bool;
  showerDuration : R;
  showerElapsed : R;
  mapRadius : R
}.

Definition new : t := mk 0 4 1 0.05 0 0 30 false 5 0 700.

Definition set_spawnTimer (h : t) (v : R) : t :=
  mk v (baseInterval h) (minInterval h) (escalationRate h) (gameTime h)
    (showerTimer h) (showerInterval h) (showerActive h) (showerDuration h)
    (showerElapsed h) (mapRadius h).
Definition set_gameTime (h : t) (v : R) : t :=
  mk (spawnTimer h) (baseInterval h) (minInterval h) (escalationRate h) v
    (showerTimer h) (showerInterval h) (showerActive h) (showerDuration h)
    (showerElapsed h) (mapRadius h).
Definition set_showerTimer (h : t) (v : R) : t :=
  mk (spawnTimer h) (baseInterval h) (minInterval h) (escalationRate h)
    (gameTime h) v (showerInterval h) (showerActive h) (showerDuration h)
    (showerElapsed h) (mapRadius h).
Definition set_showerActive (h : t) (v : bool) : t :=
  mk (spawnTimer h) (baseInterval h) (minInterval h) (escalationRate h)
    (gameTime h) (showerTimer h) (showerInterval h) v (showerDuration h)
    (showerElapsed h) (mapRadius h).
Definition set_showerElapsed (h : t) (v : R) : t :=
  mk (spawnTimer h) (baseInterval h) (minInterval h) (escalationRate h)
    (gameTime h) (showerTimer h) (showerInterval h) (showerActive h)
    (showerDuration h) v (mapRadius h).

(** [_spawnMeteorite (meteorites, planets)] *)
Definition _spawnMeteorite (h : t) (meteorites : list Meteorite.t)
    (rnd : Num.Rand) (k : nat) : list Meteorite.t * nat :=
  if (15 <? List.length meteorites)%nat then (meteorites, k)
  else
    let angle := rnd k * PI * 2 in
    let spawnDist := mapRadius h + 100 in
    let x := cos angle * spawnDist in
    let y := sin angle * spawnDist in
    let targetAngle := angle + PI + (rnd (1 + k)%nat - 0.5) * 0.8 in
    let speed := 100 + rnd (2 + k)%nat * 150 in
    let vx := cos targetAngle * speed in
    let vy := sin targetAngle * speed in
    let radius := 10 + rnd (3 + k)%nat * 15 in
    let '(m, k) := Meteorite.new x y vx vy radius rnd (4 + k)%nat in
    (meteorites ++ [m], k).

(** The interval computed at the top of [update], from the match time
    already advanced by [dt]. *)
Definition interval (h : t) : R :=
  Rmax (minInterval h) (baseInterval h - gameTime h * escalationRate h).

(** [update (dt, meteorites, planets)] *)
Definition update (h : t) (dt : R) (meteorites : list Meteorite.t)
    (rnd : Num.Rand) (k : nat) : t * list Meteorite.t * nat :=
  let h := set_gameTime h (gameTime h + dt) in
  let h := set_spawnTimer h (spawnTimer h - dt) in
  let h := set_showerTimer h (showerTimer h + dt) in
  let interval := interval h in
  let h :=
    if showerInterval h <=? showerTimer h then
      let h := set_showerActive h true in
      let h := set_showerElapsed h 0 in
      set_showerTimer h 0
    else h in
  let h :=
    if showerActive h then
      let h := set_showerElapsed h (showerElapsed h + dt) in
      if showerDuration h <=? showerElapsed h
      then set_showerActive h false else h
    else h in
  let effectiveInterval := if showerActive h then 0.3 else interval in
  if spawnTimer h <=? 0 then
    let h := set_spawnTimer h effectiveInterval in
    let '(meteorites, k) := _spawnMeteorite h meteorites rnd k in
    (h, meteorites, k)
  else (h, meteorites, k).

Definition isShowerActive (h : t) : bool := showerActive h.

Definition reset (h : t) : t :=
  let h := set_spawnTimer h (baseInterval h) in
  let h := set_gameTime h 0 in
  let h := set_showerTimer h 0 in
  set_showerActive h false.

End HazardSystem.

(** ** CollisionSystem.js *)

(** The events [CollisionSystem.update] pushes.  [killerName] is
    [attacker?.name]: absent when no player carries the owner's id. *)
Module Event.

Inductive t : Type :=
| Kill (killerId victimId : string) (killerName : option string)
       (victimName : string)
| Hit (targetId : string) (damage : R)
| MeteoriteImpact (x y : R).

Definition isKill (e : t) : bool :=
  match e with Kill _ _ _ _ => true | _ => false end.

Definition isHit (e : t) : bool :=
  match e with Hit _ _ => true | _ => false end.

End Event.

(** Arrays of players are mutated through references: [findIndex] locates
    the object a loop or [Array.find] stops at, [updateAt] writes it back. *)
Module Arr.

Fixpoint findIndex {A : Type} (f : A -> bool) (l : list A) : option nat :=
  match l with
  | [] => None
  | a :: rest =>
      if f a then Some O
      else match findIndex f rest with
           | Some i => Some (S i)
           | None => None
           end
  end.

Fixpoint updateAt {A : Type} (i : nat) (f : A -> A) (l : list A) : list A :=
  match l, i with
  | [], _ => []
  | a :: rest, O => f a :: rest
  | a :: rest, S i' => a :: updateAt i' f rest
  end.

End Arr.

Module CollisionSystem.

(** The test a player must pass for a projectile to hit it: the three
    [continue] guards, then the overlap. *)
Definition projectileHits (proj : Projectile.t) (player : Player.t) : bool :=
  Player.alive player
  && negb (String.eqb (Player.id player) (Projectile.ownerId proj))
  && negb (0 <? Player.invulnerable player)
  && Physics.circleCollision
       (Projectile.x proj) (Projectile.y proj) (Projectile.radius proj)
       (Player.x player) (Player.y player) (Player.radius player + 4).

(** The inner loop of the first phase for one active projectile.  The loop
    runs its body at the first player that passes [projectileHits] and
    leaves by [break]. *)
Definition hitPlayer (proj : Projectile.t) (players : list Player.t)
    : Projectile.t * list Player.t * list Event.t :=
  match Arr.findIndex (projectileHits proj) players with
  | None => (proj, players, [])
  | Some i =>
      match nth_error players i with
      | None => (proj, players, [])
      | Some player =>
          let '(victim, died) :=
            Player.takeDamage player (Projectile.damage proj) in
          let players := Arr.updateAt i (fun _ => victim) players in
          let proj' := Projectile.set_active proj false in
          let isOwner p := String.eqb (Player.id p) (Projectile.ownerId proj) in
          let attacker := Arr.findIndex isOwner players in
          let credit f :=
            match attacker with
            | Some a => Arr.updateAt a f players
            | None => players
            end in
          let killerName :=
            match attacker with
            | Some a => option_map Player.name (nth_error players a)
            | None => None
            end in
          let hitStats p :=
            let p := Player.set_shotsHit p (Player.shotsHit p + 1)%Z in
            Player.set_damageDealt p
              (Player.damageDealt p + Projectile.damage proj) in
          if died then
            (proj',
             credit (fun p =>
                       let p := hitStats p in
                       Player.set_kills p (Player.kills p + 1)%Z),
             [Event.Kill (Projectile.ownerId proj) (Player.id victim)
                killerName (Player.name victim)])
          else
            (proj', credit hitStats,
             [Event.Hit (Player.id victim) (Projectile.damage proj)])
      end
  end.

(** Phase 1, projectile against players.  The source walks the projectiles
    from the last index down, so the tail is resolved before the head. *)
Fixpoint projectilesVsPlayers (projectiles : list Projectile.t)
    (players : list Player.t)
    : list Projectile.t * list Player.t * list Event.t :=
  match projectiles with
  | [] => ([], players, [])
  | proj :: rest =>
      let '(rest, players, events) := projectilesVsPlayers rest players in
      if negb (Projectile.active proj) then (proj :: rest, players, events)
      else
        let '(proj, players, ev) := hitPlayer proj players in
        (proj :: rest, players, events ++ ev)
  end.

(** Phase 2, projectile against planets. *)
Definition projectileVsPlanets (planets : list Planet.t) (proj : Projectile.t)
    : Projectile.t :=
  if negb (Projectile.active proj) then proj
  else if existsb
            (fun planet =>
               Planet.isInside planet (Projectile.x proj) (Projectile.y proj))
            planets
  then Projectile.set_active proj false
  else proj.

(** The test a player must pass for a meteorite to damage it. *)
Definition meteoriteHits (met : Meteorite.t) (player : Player.t) : bool :=
  negb (negb (Player.alive player) || (0 <? Player.invulnerable player))
  && Physics.circleCollision
       (Meteorite.x met) (Meteorite.y met) (Meteorite.radius met)
       (Player.x player) (Player.y player) (Player.radius player + 2).

(** The inner loop of the third phase for one active meteorite: every
    player is tested, there is no [break]. *)
Fixpoint meteoriteVsPlayers (met : Meteorite.t) (players : list Player.t)
    : list Player.t * list Event.t :=
  match players with
  | [] => ([], [])
  | player :: rest =>
      let '(player, ev) :=
        if meteoriteHits met player then
          let '(player, died) :=
            Player.takeDamage player (Meteorite.damage met) in
          if died then
            (player,
             [Event.Kill "__meteorite" (Player.id player)
                (Some "☄️ Meteorite"%string) (Player.name player)])
          else (player, [])
        else (player, []) in
      let '(rest, events) := meteoriteVsPlayers met rest in
      (player :: rest, ev ++ events)
  end.

(** Phase 3, meteorite against players, in array order. *)
Fixpoint meteoritesVsPlayers (meteorites : list Meteorite.t)
    (players : list Player.t) : list Player.t * list Event.t :=
  match meteorites with
  | [] => (players, [])
  | met :: rest =>
      if negb (Meteorite.active met) then meteoritesVsPlayers rest players
      else
        let '(players, ev) := meteoriteVsPlayers met players in
        let '(players, events) := meteoritesVsPlayers rest players in
        (players, ev ++ events)
  end.

Definition meteoriteHitsPlanet (met : Meteorite.t) (planet : Planet.t)
    : bool :=
  Physics.circleCollision
    (Meteorite.x met) (Meteorite.y met) (Meteorite.radius met * 0.5)
    (Planet.x planet) (Planet.y planet) (Planet.radius planet).

(** Phase 4, meteorite against planets, from the last index down. *)
Fixpoint meteoritesVsPlanets (meteorites : list Meteorite.t)
    (planets : list Planet.t) : list Meteorite.t * list Event.t :=
  match meteorites with
  | [] => ([], [])
  | met :: rest =>
      let '(rest, events) := meteoritesVsPlanets rest planets in
      if negb (Meteorite.active met) then (met :: rest, events)
      else if existsb (meteoriteHitsPlanet met) planets then
        (Meteorite.set_active met false :: rest,
         events ++ [Event.MeteoriteImpact (Meteorite.x met) (Meteorite.y met)])
      else (met :: rest, events)
  end.

(** [update (players, projectiles, meteorites, planets, particles)]: the
    three arrays after the call, and the events returned. *)
Definition update (players : list Player.t) (projectiles : list Projectile.t)
    (meteorites : list Meteorite.t) (planets : list Planet.t)
    : list Player.t * list Projectile.t * list Meteorite.t * list Event.t :=
  let '(projectiles, players, events1) :=
    projectilesVsPlayers projectiles players in
  let projectiles := map (projectileVsPlanets planets) projectiles in
  let '(players, events3) := meteoritesVsPlayers meteorites players in
  let '(meteorites, events4) := meteoritesVsPlanets meteorites planets in
  let projectiles := filter Projectile.active projectiles in
  let meteorites := filter Meteorite.active meteorites in
  (players, projectiles, meteorites, events1 ++ events3 ++ events4).

End CollisionSystem.

(** ** main.js: the host tick *)

(** The statements of [Game._updateHost] and [Game._processInput] that move
    the entities: jump input, player gravity and timers, projectile and
    meteorite gravity. *)
Module Game.

(** The jump part of [_processInput], for an input whose [jump] is set. *)
Definition processJump (player : Player.t) (planets : list Planet.t)
    : Player.t :=
  if negb (Player.alive player) then player
  else
    match Physics.nearestPlanet
            (Vec2.mk (Player.x player) (Player.y player)) planets with
    | Some (planet, _) => fst (GravitySystem.jump player planet)
    | None => player
    end.

(** [this.gravity.update (this.players.filter (p => p.alive), ...)] followed
    by [player.updateTimers (dt)], for one player.  The filtered array holds
    the player objects themselves, so the update shows in [this.players];
    over one player the two loops compose. *)
Definition tickPlayer (player : Player.t) (planets : list Planet.t) (dt : R)
    (rnd : Num.Rand) (k : nat) : Player.t * nat :=
  let '(player, k) :=
    if Player.alive player
    then GravitySystem.applyGravityPlayer player planets dt rnd k
    else (player, k) in
  (Player.updateTimers player dt, k).

(** [n] ticks of one player. *)
Fixpoint tickPlayerN (n : nat) (player : Player.t) (planets : list Planet.t)
    (dt : R) (rnd : Num.Rand) (k : nat) : Player.t * nat :=
  match n with
  | O => (player, k)
  | S n' =>
      let '(player, k) := tickPlayer player planets dt rnd k in
      tickPlayerN n' player planets dt rnd k
  end.

(** The planet loop over one projectile. *)
Fixpoint projectileGravity (proj : Projectile.t) (planets : list Planet.t)
    (dt : R) : Projectile.t :=
  match planets with
  | [] => proj
  | planet :: rest =>
      let pos := Vec2.mk (Projectile.x proj) (Projectile.y proj) in
      let dist :=
        Vec2.distTo pos (Vec2.mk (Planet.x planet) (Planet.y planet)) in
      let proj :=
        if dist <? Planet.gravityRange planet then
          let accel := Physics.gravityAccel pos planet in
          let proj :=
            Projectile.set_vx proj (Projectile.vx proj + Vec2.x accel * dt) in
          Projectile.set_vy proj (Projectile.vy proj + Vec2.y accel * dt)
        else proj in
      projectileGravity proj rest dt
  end.

Definition tickProjectile (planets : list Planet.t) (dt : R)
    (proj : Projectile.t) : Projectile.t :=
  if negb (Projectile.active proj) then proj
  else Projectile.update (projectileGravity proj planets dt) dt.

(** The planet loop over one meteorite. *)
Fixpoint meteoriteGravity (met : Meteorite.t) (planets : list Planet.t)
    (dt : R) : Meteorite.t :=
  match planets with
  | [] => met
  | planet :: rest =>
      let pos := Vec2.mk (Meteorite.x met) (Meteorite.y met) in
      let dist :=
        Vec2.distTo pos (Vec2.mk (Planet.x planet) (Planet.y planet)) in
      let met :=
        if dist <? Planet.gravityRange planet then
          let accel := Physics.gravityAccel pos planet in
          let met :=
            Meteorite.set_vx met
              (Meteorite.vx met + Vec2.x accel * dt * 0.5) in
          Meteorite.set_vy met (Meteorite.vy met + Vec2.y accel * dt * 0.5)
        else met in
      meteoriteGravity met rest dt
  end.

Definition tickMeteorite (planets : list Planet.t) (dt : R)
    (met : Meteorite.t) : Meteorite.t :=
  if negb (Meteorite.active met) then met
  else Meteorite.update (meteoriteGravity met planets dt) dt.

(** What a piece of the tick that can throw leaves: the state it returns,
    or the state the objects are in when it throws. *)
Inductive Run (A : Type) : Type :=
| Returned (a : A)
| Threw (a : A).

Arguments Returned {A} a.
Arguments Threw {A} a.

Definition mapRun {A B : Type} (f : A -> B) (r : Run A) : Run B :=
  match r with
  | Returned a => Returned (f a)
  | Threw a => Threw (f a)
  end.

(** [_handlePickupEffect (player, pickup)].  The weapon branch assigns the
    weapon and then reads [pickup.type.color], which throws when the pickup
    has no [type]. *)
Definition _handlePickupEffect (player : Player.t) (pickup : Pickup.t)
    : Run Player.t :=
  if String.eqb (Pickup.typeKey pickup) "HEALTH" then
    Returned
      (Player.set_health player
         (Rmin (Player.maxHealth player) (Player.health player + 40)))
  else
    let player :=
      Player.set_currentWeapon player (Some (Pickup.typeKey pickup)) in
    match Pickup.type pickup with
    | Some _ => Returned player
    | None => Threw player
    end.

(** The test of the pickup loop of [_updateHost]. *)
Definition reaches (player : Player.t) (pickup : Pickup.t) : bool :=
  let dist :=
    sqrt ((Player.x player - Pickup.x pickup)
          * (Player.x player - Pickup.x pickup)
          + (Player.y player - Pickup.y pickup)
            * (Player.y player - Pickup.y pickup)) in
  dist <? Player.radius player + Pickup.radius pickup.

(** The inner loop of the pickup collisions, for one alive player.  When
    [_handlePickupEffect] throws, the pickup it was called on has been
    switched off and the pickups after it have not been visited. *)
Fixpoint collectPickups (player : Player.t) (pickups : list Pickup.t)
    : Run (Player.t * list Pickup.t) :=
  match pickups with
  | [] => Returned (player, [])
  | pickup :: rest =>
      if negb (Pickup.active pickup) then
        mapRun (fun '(player, rest) => (player, pickup :: rest))
          (collectPickups player rest)
      else if reaches player pickup then
        let pickup := Pickup.set_active pickup false in
        match _handlePickupEffect player pickup with
        | Returned player =>
            mapRun (fun '(player, rest) => (player, pickup :: rest))
              (collectPickups player rest)
        | Threw player => Threw (player, pickup :: rest)
        end
      else
        mapRun (fun '(player, rest) => (player, pickup :: rest))
          (collectPickups player rest)
  end.

(** The outer loop of the pickup collisions. *)
Fixpoint pickupCollisions (players : list Player.t) (pickups : list Pickup.t)
    : Run (list Player.t * list Pickup.t) :=
  match players with
  | [] => Returned ([], pickups)
  | player :: rest =>
      let turn :=
        if negb (Player.alive player) then Returned (player, pickups)
        else collectPickups player pickups in
      match turn with
      | Returned (player, pickups) =>
          mapRun (fun '(rest, pickups) => (player :: rest, pickups))
            (pickupCollisions rest pickups)
      | Threw (player, pickups) => Threw (player :: rest, pickups)
      end
  end.

(** The pickup collisions of [_updateHost] and the cleanup that follows,
    which a throw skips. *)
Definition updatePickups (players : list Player.t) (pickups : list Pickup.t)
    : Run (list Player.t * list Pickup.t) :=
  match pickupCollisions players pickups with
  | Returned (players, pickups) =>
      Returned (players, filter Pickup.active pickups)
  | Threw state => Threw state
  end.

(** [this.planets[1 + (player.index % (this.planets.length - 1))]]: the
    remainder is [NaN] on a divisor of 0, and an index that is [NaN],
    negative or past the end reads [undefined]. *)
Definition spawnPlanet (planets : list Planet.t) (index : Z)
    : option Planet.t :=
  let n := (Z.of_nat (List.length planets) - 1)%Z in
  if (n =? 0)%Z then None
  else
    let i := (1 + Z.rem index n)%Z in
    if (i <? 0)%Z then None else nth_error planets (Z.to_nat i).

Definition voidBoundary : R := 2000.

(** The body of the respawn loop of [_updateHost] for one player: the void
    check, then the respawn.  [spawn] on an [undefined] planet throws; the
    result is then [None]. *)
Definition respawnStep (player : Player.t) (planets : list Planet.t)
    (rnd : Num.Rand) (k : nat) : option (Player.t * nat) :=
  let player :=
    if Player.alive player then
      let distFromCenter :=
        sqrt (Player.x player * Player.x player
              + Player.y player * Player.y player) in
      if voidBoundary <? distFromCenter
      then fst (Player.takeDamage player 9999) else player
    else player in
  if negb (Player.alive player) && (Player.respawnTimer player <=? 0) then
    match spawnPlanet planets (Player.index player) with
    | Some planet => Some (Player.spawn player planet (rnd k * PI * 2), S k)
    | None => None
    end
  else Some (player, k).

End Game.

(** ** ClientState.js (the rewritten revision, with the snapshot buffer) *)

(** The object [Game._serializeGameState] builds.  The interpolation guards
    on the presence of [players], so the field is optional. *)
Module GameState.

Record t : Type := mk {
  players : option (list PlayerData.t);
  projectiles : list ProjectileData.t;
  meteorites : list MeteoriteData.t;
  timer : R;
  time : R
}.

Definition set_players (s : t) (v : option (list PlayerData.t)) : t :=
  mk v (projectiles s) (meteorites s) (timer s) (time s).

End GameState.

Module Snapshot.

Record t : Type := mk {
  state : GameState.t;
  timestamp : R
}.

End Snapshot.

Module ClientState.

Record t : Type := mk {
  sendRate : R;
  sendTimer : R;
  _stateBuffer : list Snapshot.t;
  _interpDelay : R;
  ping : R
}.

Definition new : t := mk (1 / 30) 0 [] 100 0.



(** [buffer[buffer.length - 1]] *)
Definition newest (buffer : list Snapshot.t) : option Snapshot.t :=
  nth_error buffer (List.length buffer - 1).

(** The search loop: the first adjacent pair around [renderTime]. *)
Fixpoint bracket (buffer : list Snapshot.t) (renderTime : R)
    : option (Snapshot.t * Snapshot.t) :=
  match buffer with
  | from :: (to :: _) as rest =>
      if (Snapshot.timestamp from <=? renderTime)
         && (renderTime <=? Snapshot.timestamp to)
      then Some (from, to)
      else bracket rest renderTime
  | _ => None
  end.

(** The body of the player loop. *)
Definition interpolatePlayer (fromPlayers : list PlayerData.t) (clampedT : R)
    (p : PlayerData.t) : PlayerData.t :=
  match find (fun q => String.eqb (PlayerData.id q) (PlayerData.id p))
             fromPlayers with
  | Some fp =>
      let p :=
        PlayerData.set_x p
          (Physics.lerp (PlayerData.x fp) (PlayerData.x p) clampedT) in
      let p :=
        PlayerData.set_y p
          (Physics.lerp (PlayerData.y fp) (PlayerData.y p) clampedT) in
      PlayerData.set_sa p
        (Physics.lerpAngle (PlayerData.sa fp) (PlayerData.sa p) clampedT)
  | None => p
  end.

(** The interpolation factor of [renderTime] between two snapshots. *)
Definition factor (from to : Snapshot.t) (renderTime : R) : R :=
  let range := Snapshot.timestamp to - Snapshot.timestamp from in
  let t := if 0 <? range
           then (renderTime - Snapshot.timestamp from) / range else 0 in
  Rmax 0 (Rmin 1 t).

(** [getInterpolatedState ()]; [None] is [null]. *)
Definition getInterpolatedState (c : t) (now : R) : option GameState.t :=
  if (List.length (_stateBuffer c) <? 2)%nat then
    if (0 <? List.length (_stateBuffer c))%nat
    then option_map Snapshot.state (newest (_stateBuffer c))
    else None
  else
    let renderTime := now - _interpDelay c in
    match bracket (_stateBuffer c) renderTime with
    | None => option_map Snapshot.state (newest (_stateBuffer c))
    | Some (from, to) =>
        let clampedT := factor from to renderTime in
        let interpolated := Snapshot.state to in
        match GameState.players interpolated,
              GameState.players (Snapshot.state from) with
        | Some players, Some fromPlayers =>
            Some (GameState.set_players interpolated
                    (Some (map (interpolatePlayer fromPlayers clampedT)
                               players)))
        | _, _ => Some interpolated
        end
    end.

(** [sendInput (dt, input)]: the client after the call, and the input sent
    to the host if one was. *)
Definition sendInput {Input : Type} (c : t) (dt : R) (input : Input)
    : t * option Input :=
  let timer := sendTimer c - dt in
  if 0 <? timer
  then (mk (sendRate c) timer (_stateBuffer c) (_interpDelay c) (ping c),
        None)
  else (mk (sendRate c) (sendRate c) (_stateBuffer c) (_interpDelay c)
          (ping c),
        Some input).

End ClientState.

(** ** main.js: the client side of the game *)

(** The fields of [Game] that [_applyNetworkState] writes. *)
Module GameClient.

Record t : Type := mk {
  players : list Player.t;
  projectiles : list Projectile.t;
  meteorites : list Meteorite.t;
  matchTimer : R
}.

(** One turn of the player loop of [_applyNetworkState]: the player that
    carries the id is updated in place, an unknown id is appended. *)
Definition applyPlayer (fallbackName : string) (players : list Player.t)
    (pd : PlayerData.t) : list Player.t :=
  match Arr.findIndex
          (fun p => String.eqb (Player.id p) (PlayerData.id pd)) players with
  | Some i => Arr.updateAt i (fun p => Player.applyState p pd) players
  | None => players ++ [Player.fromSerialized pd fallbackName]
  end.

(** [state.meteorites.map (md => Meteorite.fromSerialized (md))]: each
    constructor call consumes its draws. *)
Fixpoint meteoritesFromSerialized (mds : list MeteoriteData.t)
    (rnd : Num.Rand) (k : nat) : list Meteorite.t * nat :=
  match mds with
  | [] => ([], k)
  | md :: rest =>
      let '(m, k) := Meteorite.fromSerialized md rnd k in
      let '(rest, k) := meteoritesFromSerialized rest rnd k in
      (m :: rest, k)
  end.

(** [_applyNetworkState (state)] for a state as [_serializeGameState]
    builds it, with or without its players. *)
Definition _applyNetworkState (fallbackName : string) (g : t)
    (state : GameState.t) (rnd : Num.Rand) (k : nat) : t * nat :=
  let players :=
    match GameState.players state with
    | Some pds => fold_left (applyPlayer fallbackName) pds (players g)
    | None => players g
    end in
  let projectiles :=
    map Projectile.fromSerialized (GameState.projectiles state) in
  let '(meteorites, k) :=
    meteoritesFromSerialized (GameState.meteorites state) rnd k in
  (mk players projectiles meteorites (GameState.timer state), k).

End GameClient.

(** ** Camera.js *)

Module Camera.

Record t : Type := mk {
  x : R;
  y : R;
  zoom : R;
  targetX : R;
  targetY : R;
  targetZoom : R;
  width : R;
  height : R;
  minZoom : R;
  maxZoom : R;
  lerpSpeed : R;
  zoomLerpSpeed : R;
  padding : R;
  shakeIntensity : R;
  shakeDuration : R;
  shakeTimer : R;
  shakeOffsetX : R;
  shakeOffsetY : R
}.

(** [new Camera (canvasWidth, canvasHeight)] *)
Definition new (canvasWidth canvasHeight : R) : t :=
  mk 0 0 1 0 0 1 canvasWidth canvasHeight 0.3 1.5 3 2 200 0 0 0 0 0.

(** The running bounds of the loop of [follow]; [None] is the infinity the
    bound starts from. *)
Definition lower (bound : option R) (v : R) : option R :=
  match bound with
  | None => Some v
  | Some b => if v <? b then Some v else Some b
  end.

Definition upper (bound : option R) (v : R) : option R :=
  match bound with
  | None => Some v
  | Some b => if b <? v then Some v else Some b
  end.

(** The loop of [follow] over the positions: the sums and the bounds. *)
Fixpoint bounds (positions : list Vec2.t)
    (acc : R * R * option R * option R * option R * option R)
    : R * R * option R * option R * option R * option R :=
  match positions with
  | [] => acc
  | p :: rest =>
      let '(cx, cy, minX, maxX, minY, maxY) := acc in
      bounds rest
        (cx + Vec2.x p, cy + Vec2.y p,
         lower minX (Vec2.x p), upper maxX (Vec2.x p),
         lower minY (Vec2.y p), upper maxY (Vec2.y p))
  end.

(** [follow (positions, dt)]; the shake consumes two draws while it runs. *)
Definition follow (c : t) (positions : list Vec2.t) (dt : R)
    (rnd : Num.Rand) (k : nat) : t * nat :=
  match bounds positions (0, 0, None, None, None, None) with
  | (cx, cy, Some minX, Some maxX, Some minY, Some maxY) =>
      let cx := cx / INR (List.length positions) in
      let cy := cy / INR (List.length positions) in
      let spanX := maxX - minX + padding c * 2 in
      let spanY := maxY - minY + padding c * 2 in
      let zoomX := width c / spanX in
      let zoomY := height c / spanY in
      let targetZoom := Rmin zoomX zoomY in
      let targetZoom := Rmax (minZoom c) (Rmin (maxZoom c) targetZoom) in
      let x' := Physics.lerp (x c) cx (lerpSpeed c * dt) in
      let y' := Physics.lerp (y c) cy (lerpSpeed c * dt) in
      let zoom' := Physics.lerp (zoom c) targetZoom (zoomLerpSpeed c * dt) in
      if 0 <? shakeTimer c then
        let shakeTimer' := shakeTimer c - dt in
        let progress := shakeTimer' / shakeDuration c in
        let intensity := shakeIntensity c * progress in
        (mk x' y' zoom' cx cy targetZoom (width c) (height c) (minZoom c)
           (maxZoom c) (lerpSpeed c) (zoomLerpSpeed c) (padding c)
           (shakeIntensity c) (shakeDuration c) shakeTimer'
           ((rnd k - 0.5) * 2 * intensity)
           ((rnd (S k) - 0.5) * 2 * intensity),
         S (S k))
      else
        (mk x' y' zoom' cx cy targetZoom (width c) (height c) (minZoom c)
           (maxZoom c) (lerpSpeed c) (zoomLerpSpeed c) (padding c)
           (shakeIntensity c) (shakeDuration c) (shakeTimer c) 0 0,
         k)
  | _ => (c, k)
  end.

(** [shake (intensity, duration)] *)
Definition shake (c : t) (intensity duration : R) : t :=
  mk (x c) (y c) (zoom c) (targetX c) (targetY c) (targetZoom c) (width c)
    (height c) (minZoom c) (maxZoom c) (lerpSpeed c) (zoomLerpSpeed c)
    (padding c) intensity duration duration (shakeOffsetX c)
    (shakeOffsetY c).

Definition screenToWorld (c : t) (sx sy : R) : Vec2.t :=
  Vec2.mk ((sx - width c / 2) / zoom c + x c)
          ((sy - height c / 2) / zoom c + y c).

Definition worldToScreen (c : t) (wx wy : R) : Vec2.t :=
  Vec2.mk ((wx - x c) * zoom c + width c / 2)
          ((wy - y c) * zoom c + height c / 2).

End Camera.

(** ** Particle.js *)

(** [gravity] is not set by the constructor but by [ParticlePool.emit]; it
    is only read by the truth test of [ParticlePool.update], which an unset
    field fails as 0 does, so an unset [gravity] is 0 here.  [color] is
    absent when [emit] reads past the end of its colour table. *)
Module Particle.

Record t : Type := mk {
  x : R;
  y : R;
  vx : R;
  vy : R;
  color : option string;
  size : R;
  maxSize : R;
  lifetime : R;
  age : R;
  alpha : R;
  active : bool;
  gravity : R
}.

(** [new Particle (x, y, vx, vy, color, size, lifetime)] *)
Definition new (x y vx vy : R) (color : option string) (size lifetime : R)
    : t :=
  mk x y vx vy color size size lifetime 0 1 true 0.

Definition set_vy (p : t) (v : R) : t :=
  mk (x p) (y p) (vx p) v (color p) (size p) (maxSize p) (lifetime p)
    (age p) (alpha p) (active p) (gravity p).

Definition set_gravity (p : t) (v : R) : t :=
  mk (x p) (y p) (vx p) (vy p) (color p) (size p) (maxSize p) (lifetime p)
    (age p) (alpha p) (active p) v.

Definition update (p : t) (dt : R) : t :=
  let x' := x p + vx p * dt in
  let y' := y p + vy p * dt in
  let age' := age p + dt in
  let progress := age' / lifetime p in
  let alpha' := 1 - progress in
  let size' := maxSize p * (1 - progress * 0.5) in
  mk x' y' (vx p) (vy p) (color p) size' (maxSize p) (lifetime p) age'
    alpha' (if lifetime p <=? age' then false else active p) (gravity p).

End Particle.

Module ParticlePool.

(** The options of [emit], after the defaults. *)
Module Options.

Record t : Type := mk {
  speed : R;
  speedVar : R;
  color : string;
  colors : option (list string);
  size : R;
  sizeVar : R;
  lifetime : R;
  lifetimeVar : R;
  angle : R;
  spread : R;
  gravity : R
}.

Definition default : t :=
  mk 100 50 "#ffaa00" None 3 1 0.5 0.2 0 (PI * 2) 0.

End Options.

Record t : Type := mk {
  particles : list Particle.t;
  maxParticles : nat
}.

(** [new ParticlePool (maxParticles)] *)
Definition new (maxParticles : nat) : t := mk [] maxParticles.

(** [splice (idx, 1)] *)
Fixpoint splice1 {A : Type} (idx : nat) (l : list A) : list A :=
  match l, idx with
  | [], _ => []
  | _ :: rest, O => rest
  | a :: rest, S idx' => a :: splice1 idx' rest
  end.

(** The eviction at the top of the loop of [emit]: the first inactive
    particle goes, or else the oldest. *)
Definition evict (particles : list Particle.t) : list Particle.t :=
  match Arr.findIndex (fun p => negb (Particle.active p)) particles with
  | Some idx => splice1 idx particles
  | None => tl particles
  end.

(** One turn of the loop of [emit]: four draws, and one more for the colour
    when a colour table is given. *)
Definition emitOne (pool : t) (x y : R) (o : Options.t) (rnd : Num.Rand)
    (k : nat) : t * nat :=
  let particles :=
    if (maxParticles pool <=? List.length (particles pool))%nat
    then evict (particles pool) else particles pool in
  let a := Options.angle o + (rnd k - 0.5) * Options.spread o in
  let s := Options.speed o + (rnd (S k) - 0.5) * Options.speedVar o in
  let '(c, k') :=
    match Options.colors o with
    | Some colors =>
        (nth_error colors
           (Z.to_nat
              (Num.floor (rnd (S (S k)) * INR (List.length colors)))),
         S (S (S k)))
    | None => (Some (Options.color o), S (S k))
    end in
  let sz := Options.size o + (rnd k' - 0.5) * Options.sizeVar o in
  let lt := Options.lifetime o + (rnd (S k') - 0.5) * Options.lifetimeVar o in
  let p :=
    Particle.new x y (cos a * s) (sin a * s) c (Rmax 0.5 sz) (Rmax 0.1 lt) in
  let p := Particle.set_gravity p (Options.gravity o) in
  (mk (particles ++ [p]) (maxParticles pool), S (S k')).

(** [emit (x, y, count, options)] *)
Fixpoint emit (pool : t) (x y : R) (count : nat) (o : Options.t)
    (rnd : Num.Rand) (k : nat) : t * nat :=
  match count with
  | O => (pool, k)
  | S count' =>
      let '(pool, k) := emitOne pool x y o rnd k in
      emit pool x y count' o rnd k
  end.

(** The loop of [update], from the last index down: the tail is resolved
    before the head, and a particle that is not active after its update is
    spliced out. *)
Fixpoint updateLoop (particles : list Particle.t) (dt : R)
    : list Particle.t :=
  match particles with
  | [] => []
  | p :: rest =>
      let rest := updateLoop rest dt in
      let p :=
        if negb (Particle.gravity p =? 0)
        then Particle.set_vy p (Particle.vy p + Particle.gravity p * dt)
        else p in
      let p := Particle.update p dt in
      if negb (Particle.active p) then rest else p :: rest
  end.

Definition update (pool : t) (dt : R) : t :=
  mk (updateLoop (particles pool) dt) (maxParticles pool).

End ParticlePool.

(** ** InputManager.js (the rewritten revision): the joystick *)

Module InputManager.

Record Joystick : Type := mkJoystick {
  x : R;
  y : R;
  force : R
}.

Record t : Type := mk {
  joystick : Joystick;
  joystickRadius : R;
  joystickDeadZone : R
}.

(** The joystick fields of [new InputManager (canvas)]. *)
Definition new : t := mk (mkJoystick 0 0 0) 50 8.

(** [_updateJoystick (clientX, clientY)]; [centre] is the centre of the
    rectangle of the joystick base, absent when the page has no base. *)
Definition _updateJoystick (m : t) (centre : option (R * R))
    (clientX clientY : R) : t :=
  match centre with
  | None => m
  | Some (centerX, centerY) =>
      let dx := clientX - centerX in
      let dy := clientY - centerY in
      let dist := sqrt (dx * dx + dy * dy) in
      let maxDist := joystickRadius m in
      let '(dx, dy) :=
        if maxDist <? dist
        then (dx / dist * maxDist, dy / dist * maxDist) else (dx, dy) in
      let jx := dx / maxDist in
      let jy := dy / maxDist in
      let jforce := Rmin (dist / maxDist) 1 in
      if jforce <? joystickDeadZone m / maxDist
      then mk (mkJoystick 0 0 0) (joystickRadius m) (joystickDeadZone m)
      else mk (mkJoystick jx jy jforce) (joystickRadius m)
             (joystickDeadZone m)
  end.

End InputManager.

(** ** HostState.js *)

(** [inputBuffer] is a [Map] from peer ids to their latest input, here the
    list of its entries in insertion order. *)
Module HostState.

Record t (Input : Type) : Type := mk {
  broadcastRate : R;
  broadcastTimer : R;
  inputBuffer : list (string * Input)
}.

Arguments mk {Input} _ _ _.
Arguments broadcastRate {Input} _.
Arguments broadcastTimer {Input} _.
Arguments inputBuffer {Input} _.

Definition new {Input : Type} : t Input := mk (1 / 60) 0 [].

(** [Map.prototype.set] *)
Fixpoint mapSet {Input : Type} (key : string) (value : Input)
    (entries : list (string * Input)) : list (string * Input) :=
  match entries with
  | [] => [(key, value)]
  | (key', value') :: rest =>
      if String.eqb key' key then (key, value) :: rest
      else (key', value') :: mapSet key value rest
  end.

(** The ['input'] case of the handler installed by [init]. *)
Definition receiveInput {Input : Type} (h : t Input) (peerId : string)
    (input : Input) : t Input :=
  mk (broadcastRate h) (broadcastTimer h)
    (mapSet peerId input (inputBuffer h)).

(** [getInput (peerId)]; [None] is [null]. *)
Definition getInput {Input : Type} (h : t Input) (peerId : string)
    : option Input :=
  option_map snd
    (find (fun entry => String.eqb (fst entry) peerId) (inputBuffer h)).

(** [broadcastState (dt, gameState)]: the host state after the call, and the
    state broadcast if one was. *)
Definition broadcastState {Input State : Type} (h : t Input) (dt : R)
    (gameState : State) : t Input * option State :=
  let timer := broadcastTimer h - dt in
  if 0 <? timer then (mk (broadcastRate h) timer (inputBuffer h), None)
  else (mk (broadcastRate h) (broadcastRate h) (inputBuffer h),
        Some gameState).

End HostState.

(** ** NetworkManager.js: the room code *)

Module NetworkManager.

Definition chars : string := "ABCDEFGHJKLMNPQRSTUVWXYZ23456789".

(** [chars[index]] as [+=] appends it: a read off the string yields
    [undefined], which is appended as the word. *)
Definition charAt (index : Z) : string :=
  if (index <? 0)%Z then "undefined"%string
  else
    match String.get (Z.to_nat index) chars with
    | Some c => String c EmptyString
    | None => "undefined"%string
    end.

(** The loop of [_generateCode], with [todo] turns left. *)
Fixpoint codeLoop (todo : nat) (code : string) (rnd : Num.Rand) (k : nat)
    : string * nat :=
  match todo with
  | O => (code, k)
  | S todo' =>
      let index := Num.floor (rnd k * INR (String.length chars)) in
      codeLoop todo' (code ++ charAt index) rnd (S k)
  end.

Definition _generateCode (rnd : Num.Rand) (k : nat) : string * nat :=
  codeLoop 4 "" rnd k.

End NetworkManager.

(** ** Sample values *)

(** Concrete entities, the inputs of the worked examples below. *)
Module Sample.

Definition host : Player.t := Player.new "host" 0 "Player 1".
Definition dead : Player.t := Player.set_alive host false.

(** Two more players standing where [host] stands, a projectile of [host]
    at the same point, and a fresh meteorite there. *)
Definition second : Player.t := Player.new "peer-2" 1 "Player 2".
Definition third : Player.t := Player.new "peer-3" 2 "Player 3".
Definition bullet : Projectile.t :=
  Projectile.new 0 0 0 0 "host" "#00d4ff".

(** A planet of radius 100 at the origin, a pellet at shotgun speed out of
    its gravity range, and a meteorite at rest 200 units from its centre. *)
Definition pellet : Projectile.t :=
  Projectile.new 1000 0 1200 0 "host" "#00d4ff".
Definition planet : Planet.t := Planet.new 0 0 100 "lava".
Definition drifter : Meteorite.t :=
  Meteorite.mk 200 0 0 0 15 0 0 true 10 0 50 [].

(** A shotgun pellet as [WeaponSystem.fire] configures it. *)
Definition shot : Projectile.t :=
  Projectile.set_lifetime
    (Projectile.set_radius (Projectile.set_damage pellet 15) 2) 1.5.

(** [host] spawned on [planet] at angle 0, as a respawn does. *)
Definition grounded : Player.t := Player.spawn host planet 0.

(** A client that holds two snapshots, received at 0 ms and at 100 ms, of a
    player that moved from x = 0 to x = 10. *)
Definition wire0 : PlayerData.t :=
  PlayerData.mk "host" 0 "Player 1" "#00d4ff" 0 0 0 0 true 0 0 false 100 true
    0 0 0 0 false.
Definition wire10 : PlayerData.t := PlayerData.set_x wire0 10.
Definition snap0 : Snapshot.t :=
  Snapshot.mk (GameState.mk (Some [wire0]) [] [] 180 0) 0.
Definition snap100 : Snapshot.t :=
  Snapshot.mk (GameState.mk (Some [wire10]) [] [] 179.9 0.1) 100.
Definition client : ClientState.t :=
  ClientState.mk (1 / 30) 0 [snap0; snap100] 100 0.

(** A source of draws that always returns 0, and the 60 Hz step. *)
Definition zeros : Num.Rand := fun _ => 0.
Definition dt : R := 1 / 60.

End Sample.

(** ** Vocabulary of the statements *)

Module Says.

(** [p'] shows no trace of a call to [takeDamage] since [p]: the fields
    that [takeDamage] writes are the same. *)
Definition undamaged (p p' : Player.t) : Prop :=
  Player.health p' = Player.health p
  /\ Player.alive p' = Player.alive p
  /\ Player.deaths p' = Player.deaths p
  /\ Player.damageFlash p' = Player.damageFlash p
  /\ Player.respawnTimer p' = Player.respawnTimer p.

(** [p'] is [p] but for the attacker statistics. *)
Definition sameButCredit (p p' : Player.t) : Prop :=
  p' = Player.set_kills
         (Player.set_damageDealt
            (Player.set_shotsHit p (Player.shotsHit p'))
            (Player.damageDealt p'))
         (Player.kills p').

(** An event of the meteorite phases: a kill credited to the meteorite, or
    an impact; never a hit. *)
Definition meteoriteEvent (e : Event.t) : Prop :=
  match e with
  | Event.Kill killer _ _ _ => killer = "__meteorite"%string
  | Event.Hit _ _ => False
  | Event.MeteoriteImpact _ _ => True
  end.

(** The speed of a velocity. *)
Definition speed (vx vy : R) : R := Vec2.length (Vec2.mk vx vy).

(** A planet pulls at [pos]: the test of the gravity loops. *)
Definition pulls (pos : Vec2.t) (planet : Planet.t) : bool :=
  Vec2.distTo pos (Vec2.mk (Planet.x planet) (Planet.y planet))
  <? Planet.gravityRange planet.

(** The vector sum of the accelerations of the planets that pull at [pos]. *)
Definition pull (pos : Vec2.t) (planets : list Planet.t) : Vec2.t :=
  fold_right (fun planet acc => Vec2.add (Physics.gravityAccel pos planet) acc)
    (Vec2.mk 0 0) (filter (pulls pos) planets).

(** The height of [pos] above the surface of a planet, the quantity
    [nearestPlanet] minimises. *)
Definition altitude (pos : Vec2.t) (planet : Planet.t) : R :=
  Vec2.distTo pos (Vec2.mk (Planet.x planet) (Planet.y planet))
  - Planet.radius planet.

(** What the pickup loop of one alive player does to a pickup. *)
Definition collected (player : Player.t) (pickup : Pickup.t) : Pickup.t :=
  if Pickup.active pickup && Game.reaches player pickup
  then Pickup.set_active pickup false else pickup.

(** A particle that is shown: switched on and younger than its lifetime. *)
Definition live (p : Particle.t) : Prop :=
  Particle.active p = true /\ 0 <= Particle.age p < Particle.lifetime p.

(** A particle as [emit] leaves it at [(x, y)] under the options [o]. *)
Definition emitted (x y : R) (o : ParticlePool.Options.t) (p : Particle.t)
    : Prop :=
  Particle.x p = x /\ Particle.y p = y
  /\ Particle.active p = true /\ Particle.age p = 0 /\ Particle.alpha p = 1
  /\ 0.5 <= Particle.size p /\ Particle.maxSize p = Particle.size p
  /\ 0.1 <= Particle.lifetime p
  /\ Particle.gravity p = ParticlePool.Options.gravity o.

(** A pickup whose collection throws: its key is not [HEALTH] and it has no
    [type]. *)
Definition typeless (pickup : Pickup.t) : bool :=
  negb (String.eqb (Pickup.typeKey pickup) "HEALTH")
  && match Pickup.type pickup with
     | Some _ => false
     | None => true
     end.

(** What the pickup pass leaves of a player: the same player, alive or dead
    as before and untouched if dead, with a health that has not gone down
    nor, from within the maximum, above it. *)
Definition served (player player' : Player.t) : Prop :=
  Player.id player' = Player.id player
  /\ Player.alive player' = Player.alive player
  /\ (Player.alive player = false -> player' = player)
  /\ (Player.health player <= Player.maxHealth player ->
      Player.health player <= Player.health player'
      <= Player.maxHealth player).

End Says.

(** * Properties *)

(** ** Comparisons and rounding *)

Lemma ltb_true (a b : R) : (a <? b) = true <-> a < b.
Proof. unfold Num.ltb. destruct (Rlt_dec a b); split; intros; try easy. Qed.

Lemma ltb_false (a b : R) : (a <? b) = false <-> b <= a.
Proof.
  unfold Num.ltb. destruct (Rlt_dec a b); split; intros; try easy; lra.
Qed.

Lemma leb_true (a b : R) : (a <=? b) = true <-> a <= b.
Proof. unfold Num.leb. destruct (Rle_dec a b); split; intros; try easy. Qed.

Lemma leb_false (a b : R) : (a <=? b) = false <-> b < a.
Proof.
  unfold Num.leb. destruct (Rle_dec a b); split; intros; try easy; lra.
Qed.

Lemma eqb_true (a b : R) : (a =? b) = true <-> a = b.
Proof. unfold Num.eqb. destruct (Req_dec_T a b); split; intros; try easy. Qed.

Lemma eqb_false (a b : R) : (a =? b) = false <-> a <> b.
Proof. unfold Num.eqb. destruct (Req_dec_T a b); split; intros; try easy. Qed.

(** Decide the comparisons of a goal whose operands are numerals. *)
Ltac decide_cmp :=
  repeat match goal with
  | |- context [?a <? ?b] =>
      first [ replace (a <? b) with true by (symmetry; apply ltb_true; lra)
            | replace (a <? b) with false by (symmetry; apply ltb_false; lra) ]
  | |- context [?a <=? ?b] =>
      first [ replace (a <=? b) with true by (symmetry; apply leb_true; lra)
            | replace (a <=? b) with false by (symmetry; apply leb_false; lra) ]
  | |- context [?a =? ?b] =>
      first [ replace (a =? b) with true by (symmetry; apply eqb_true; lra)
            | replace (a =? b) with false by (symmetry; apply eqb_false; lra) ]
  end.

(** Case analysis on every test of the goal, then the comparisons found are
    turned into inequalities. *)
Ltac split_tests :=
  repeat match goal with
  | |- context [if ?c then _ else _] => destruct c eqn:?
  | |- context [let '(_, _) := ?e in _] => destruct e eqn:?
  end.

Ltac cmp_hyps :=
  repeat match goal with
  | H : (_ <? _) = true |- _ => apply ltb_true in H
  | H : (_ <? _) = false |- _ => apply ltb_false in H
  | H : (_ <=? _) = true |- _ => apply leb_true in H
  | H : (_ <=? _) = false |- _ => apply leb_false in H
  | H : (_ =? _) = true |- _ => apply eqb_true in H
  | H : (_ =? _) = false |- _ => apply eqb_false in H
  end.

(** ** Damage on a dead or invulnerable player *)

(** C10.  [takeDamage] on a player that is dead or invulnerable reports no
    death and returns the player as it was, whatever the amount; and a dead
    player cannot shoot. *)
Theorem takeDamage_ignored (p : Player.t) (amount : R) :
  Player.alive p = false \/ 0 < Player.invulnerable p ->
  Player.takeDamage p amount = (p, false)
  /\ (Player.alive p = false -> Player.canShoot p = false).
Proof.
  intros H. split.
  - unfold Player.takeDamage. destruct H as [Hdead | Hinv].
    + rewrite Hdead. reflexivity.
    + apply ltb_true in Hinv. rewrite Hinv, orb_true_r. reflexivity.
  - intros Hdead. unfold Player.canShoot. rewrite Hdead. reflexivity.
Qed.

Lemma takeDamage_ignored_witness :
  Player.takeDamage Sample.dead 20 = (Sample.dead, false)
  /\ (Player.alive Sample.dead = false -> Player.canShoot Sample.dead = false).
Proof. apply (takeDamage_ignored Sample.dead 20). left. reflexivity. Defined.

(** ** The meteorite spawner *)





(** ** Arrays *)

Lemma findIndex_some {A : Type} (f : A -> bool) (l : list A) (i : nat) :
  Arr.findIndex f l = Some i ->
  exists a, nth_error l i = Some a /\ f a = true.
Proof.
  revert i. induction l as [|a l IH]; intros i H; cbn in H; [discriminate|].
  destruct (f a) eqn:Hf.
  - inversion H; subst. exists a. split; [reflexivity | exact Hf].
  - destruct (Arr.findIndex f l) as [j|]; [|discriminate].
    inversion H; subst. cbn. apply IH. reflexivity.
Qed.

Lemma updateAt_length {A : Type} (i : nat) (f : A -> A) (l : list A) :
  List.length (Arr.updateAt i f l) = List.length l.
Proof.
  revert i. induction l as [|a l IH]; intros [|i]; cbn; auto.
Qed.

Lemma updateAt_same {A : Type} (i : nat) (f : A -> A) (l : list A) (a : A) :
  nth_error l i = Some a -> nth_error (Arr.updateAt i f l) i = Some (f a).
Proof.
  revert i. induction l as [|b l IH]; intros [|i] H; cbn in *;
    try discriminate.
  - inversion H; reflexivity.
  - apply IH, H.
Qed.

Lemma updateAt_other {A : Type} (i j : nat) (f : A -> A) (l : list A) :
  i <> j -> nth_error (Arr.updateAt i f l) j = nth_error l j.
Proof.
  revert i j. induction l as [|b l IH]; intros [|i] [|j] H; cbn;
    try reflexivity; try congruence.
  apply IH. congruence.
Qed.

(** ** Projectiles against players *)

Lemma takeDamage_id (p : Player.t) (amount : R) :
  Player.id (fst (Player.takeDamage p amount)) = Player.id p.
Proof. unfold Player.takeDamage. split_tests; reflexivity. Qed.

Lemma sameButCredit_refl (p : Player.t) : Says.sameButCredit p p.
Proof. destruct p. reflexivity. Qed.

Lemma sameButCredit_undamaged (p p' : Player.t) :
  Says.sameButCredit p p' -> Says.undamaged p p' /\ Player.id p' = Player.id p.
Proof.
  unfold Says.sameButCredit, Says.undamaged. intros H.
  rewrite H. cbn. repeat split; reflexivity.
Qed.

Lemma hitPlayer_miss (proj : Projectile.t) (players : list Player.t) :
  Arr.findIndex (CollisionSystem.projectileHits proj) players = None ->
  CollisionSystem.hitPlayer proj players = (proj, players, []).
Proof. intros H. unfold CollisionSystem.hitPlayer. rewrite H. reflexivity. Qed.

(** What the loop body does when it runs: the first player that passes the
    guards and overlaps takes the damage, the projectile is switched off,
    one event is pushed, and any other player is left as it was but for the
    attacker's statistics. *)
Lemma hitPlayer_hit (proj : Projectile.t) (players : list Player.t)
    (j : nat) :
  Arr.findIndex (CollisionSystem.projectileHits proj) players = Some j ->
  exists victim,
    nth_error players j = Some victim
    /\ CollisionSystem.projectileHits proj victim = true
    /\ fst (fst (CollisionSystem.hitPlayer proj players))
       = Projectile.set_active proj false
    /\ List.length (snd (CollisionSystem.hitPlayer proj players)) = 1%nat
    /\ forall i p,
         nth_error players i = Some p ->
         exists p',
           nth_error (snd (fst (CollisionSystem.hitPlayer proj players))) i
           = Some p'
           /\ (i <> j -> Says.sameButCredit p p')
           /\ (i = j ->
               p' = fst (Player.takeDamage p (Projectile.damage proj))).
Proof.
  intros Hfind.
  destruct (findIndex_some _ _ _ Hfind) as [victim [Hnth Hhit]].
  exists victim. split; [exact Hnth|]. split; [exact Hhit|].
  unfold CollisionSystem.hitPlayer. rewrite Hfind, Hnth.
  pose proof (takeDamage_id victim (Projectile.damage proj)) as Hid.
  destruct (Player.takeDamage victim (Projectile.damage proj))
    as [victim' died] eqn:Htd.
  cbn [fst] in Hid.
  set (players1 := Arr.updateAt j (fun _ => victim') players).
  assert (Hj1 : nth_error players1 j = Some victim')
    by (apply (updateAt_same j (fun _ => victim') players victim), Hnth).
  assert (Hnotowner :
            String.eqb (Player.id victim') (Projectile.ownerId proj) = false).
  { rewrite Hid. unfold CollisionSystem.projectileHits in Hhit.
    apply andb_true_iff in Hhit. destruct Hhit as [Hhit _].
    apply andb_true_iff in Hhit. destruct Hhit as [Hhit _].
    apply andb_true_iff in Hhit. destruct Hhit as [_ Hhit].
    apply negb_true_iff in Hhit. exact Hhit. }
  set (isOwner :=
         fun p : Player.t =>
           String.eqb (Player.id p) (Projectile.ownerId proj)).
  assert (Hother : forall i, i <> j ->
                     nth_error players1 i = nth_error players i).
  { intros i Hi. unfold players1. apply updateAt_other. congruence. }
  destruct (Arr.findIndex isOwner players1) as [a|] eqn:Ha.
  - destruct (findIndex_some _ _ _ Ha) as [att [Hatt Hown]].
    assert (Haj : a <> j).
    { intros ->. rewrite Hj1 in Hatt. inversion Hatt; subst att.
      unfold isOwner in Hown. congruence. }
    destruct died; cbn [fst snd]; (split; [reflexivity|]);
      (split; [reflexivity|]); intros i p Hp;
      (destruct (Nat.eq_dec i j) as [->|Hij];
       [ exists victim'; rewrite updateAt_other by exact Haj;
         rewrite Hj1; split; [reflexivity|]; split; [congruence|];
         intros _; rewrite Hnth in Hp; inversion Hp; subst p;
         rewrite Htd; reflexivity
       | destruct (Nat.eq_dec i a) as [->|Hia];
         [ rewrite Hother in Hatt by exact Hij;
           rewrite Hatt in Hp; inversion Hp; subst p;
           eexists; split;
           [ apply updateAt_same; rewrite Hother by exact Hij; exact Hatt |];
           split; [intros _; destruct att; reflexivity | congruence]
         | exists p; rewrite updateAt_other by congruence;
           rewrite Hother by exact Hij; split; [exact Hp|];
           split; [intros _; apply sameButCredit_refl | congruence] ] ]).
  - destruct died; cbn [fst snd]; (split; [reflexivity|]);
      (split; [reflexivity|]); intros i p Hp;
      (destruct (Nat.eq_dec i j) as [->|Hij];
       [ exists victim'; rewrite Hj1; split; [reflexivity|];
         split; [congruence|];
         intros _; rewrite Hnth in Hp; inversion Hp; subst p;
         rewrite Htd; reflexivity
       | exists p; rewrite Hother by exact Hij; split; [exact Hp|];
         split; [intros _; apply sameButCredit_refl | congruence] ]).
Qed.

Lemma findIndex_first {A : Type} (f : A -> bool) (l : list A) (i : nat) :
  Arr.findIndex f l = Some i ->
  forall k a, (k < i)%nat -> nth_error l k = Some a -> f a = false.
Proof.
  revert i. induction l as [|b l IH]; intros i H k a Hk Ha; cbn in H;
    [discriminate|].
  destruct (f b) eqn:Hf.
  - inversion H; subst. lia.
  - destruct (Arr.findIndex f l) as [j|] eqn:Hj; [|discriminate].
    inversion H; subst. destruct k as [|k]; cbn in Ha.
    + inversion Ha; subst. exact Hf.
    + apply (IH j eq_refl k a); [lia | exact Ha].
Qed.

Lemma undamaged_trans (p q r : Player.t) :
  Says.undamaged p q -> Says.undamaged q r -> Says.undamaged p r.
Proof.
  unfold Says.undamaged. intros [? [? [? [? ?]]]] [? [? [? [? ?]]]].
  repeat split; congruence.
Qed.

(** The loop body keeps every player's id and does not damage a player that
    carries the owner's id. *)
Lemma hitPlayer_spares_owner (proj : Projectile.t) (players : list Player.t)
    (i : nat) (p : Player.t) :
  nth_error players i = Some p ->
  exists p',
    nth_error (snd (fst (CollisionSystem.hitPlayer proj players))) i = Some p'
    /\ Player.id p' = Player.id p
    /\ (Player.id p = Projectile.ownerId proj -> Says.undamaged p p').
Proof.
  intros Hp.
  destruct (Arr.findIndex (CollisionSystem.projectileHits proj) players)
    as [j|] eqn:Hfind.
  - destruct (hitPlayer_hit proj players j Hfind)
      as [victim [Hnth [Hhit [_ [_ Hall]]]]].
    destruct (Hall i p Hp) as [p' [Hp' [Hne Heq]]].
    exists p'. split; [exact Hp'|].
    destruct (Nat.eq_dec i j) as [->|Hij].
    + rewrite (Heq eq_refl). split; [apply takeDamage_id|].
      intros Hid. exfalso. rewrite Hnth in Hp. inversion Hp; subst p.
      unfold CollisionSystem.projectileHits in Hhit.
      rewrite Hid, String.eqb_refl, andb_false_r in Hhit. discriminate.
    + destruct (sameButCredit_undamaged p p' (Hne Hij)) as [Hu Hid].
      split; [exact Hid | intros _; exact Hu].
  - rewrite (hitPlayer_miss proj players Hfind). cbn [fst snd].
    exists p. split; [exact Hp|]. split; [reflexivity|]. intros _.
    apply sameButCredit_undamaged, sameButCredit_refl.
Qed.

(** The first phase over any array of projectiles of one owner: a player
    that carries the owner's id is not damaged. *)
Lemma projectiles_spare_owner (projectiles : list Projectile.t)
    (owner : string) :
  (forall proj, In proj projectiles -> Projectile.active proj = true ->
                Projectile.ownerId proj = owner) ->
  forall (players : list Player.t) (i : nat) (p : Player.t),
    nth_error players i = Some p ->
    Player.id p = owner ->
    exists p',
      nth_error
        (snd (fst (CollisionSystem.projectilesVsPlayers projectiles players)))
        i = Some p'
      /\ Player.id p' = Player.id p
      /\ Says.undamaged p p'.
Proof.
  induction projectiles as [|proj rest IH]; intros Hown players i p Hp Hid.
  - exists p. split; [exact Hp|]. split; [reflexivity|].
    apply sameButCredit_undamaged, sameButCredit_refl.
  - cbn [CollisionSystem.projectilesVsPlayers].
    destruct (IH (fun q Hq => Hown q (or_intror Hq)) players i p Hp Hid)
      as [p1 [Hp1 [Hid1 Hu1]]].
    destruct (CollisionSystem.projectilesVsPlayers rest players)
      as [[rest' players1] events]. cbn [fst snd] in Hp1.
    destruct (Projectile.active proj) eqn:Hact; cbn [negb fst snd].
    + destruct (hitPlayer_spares_owner proj players1 i p1 Hp1)
        as [p' [Hp' [Hid' Hu']]].
      destruct (CollisionSystem.hitPlayer proj players1)
        as [[proj' players'] ev]. cbn [fst snd] in *.
      exists p'. split; [exact Hp'|]. split; [congruence|].
      apply (undamaged_trans p p1 p' Hu1). apply Hu'.
      rewrite Hid1, Hid. symmetry. apply Hown; [left; reflexivity | exact Hact].
    + exists p1. split; [exact Hp1|]. split; assumption.
Qed.

(** The first phase pushes at most one event per active projectile. *)
Lemma projectiles_one_event_each (projectiles : list Projectile.t)
    (players : list Player.t) :
  (List.length
     (snd (CollisionSystem.projectilesVsPlayers projectiles players))
   <= List.length (filter Projectile.active projectiles))%nat.
Proof.
  induction projectiles as [|proj rest IH]; [cbn; lia|].
  cbn [CollisionSystem.projectilesVsPlayers filter].
  destruct (CollisionSystem.projectilesVsPlayers rest players)
    as [[rest' players1] events]. cbn [fst snd] in IH.
  destruct (Projectile.active proj) eqn:Hact; cbn [negb snd].
  - destruct (Arr.findIndex (CollisionSystem.projectileHits proj) players1)
      as [j|] eqn:Hfind.
    + destruct (hitPlayer_hit proj players1 j Hfind)
        as [_ [_ [_ [_ [Hev _]]]]].
      destruct (CollisionSystem.hitPlayer proj players1)
        as [[proj' players'] ev]. cbn [fst snd] in *.
      rewrite length_app, Hev. cbn [List.length]. lia.
    + rewrite (hitPlayer_miss proj players1 Hfind). cbn [snd].
      rewrite app_nil_r. cbn [List.length]. lia.
  - exact IH.
Qed.

(** The first phase over a single projectile. *)
Lemma update_single (players : list Player.t) (proj : Projectile.t)
    (planets : list Planet.t) :
  CollisionSystem.update players [proj] [] planets
  = if negb (Projectile.active proj) then (players, [], [], [])
    else
      let '(proj', players', ev) := CollisionSystem.hitPlayer proj players in
      (players',
       filter Projectile.active
         [CollisionSystem.projectileVsPlanets planets proj'],
       [], ev ++ []).
Proof.
  unfold CollisionSystem.update. cbn [CollisionSystem.projectilesVsPlayers].
  destruct (negb (Projectile.active proj)) eqn:Hact.
  - cbn. unfold CollisionSystem.projectileVsPlanets. rewrite Hact. cbn.
    apply negb_true_iff in Hact. rewrite Hact. reflexivity.
  - destruct (CollisionSystem.hitPlayer proj players) as [[proj' players'] ev].
    cbn. rewrite app_nil_r. reflexivity.
Qed.

(** C7.  [CollisionSystem.update] over one projectile: a player that carries
    the owner's id is not damaged, wherever it stands; all players but at
    most one are left undamaged; and when the projectile is active and some
    player passes the guards and overlaps, the first such player in the
    array takes the damage, the projectile is switched off and removed, and
    one event is returned.  Over any array of projectiles, the first phase
    does not damage a player whose id owns them all, and pushes at most one
    event per active projectile. *)
Theorem projectile_spares_owner_hits_one (players : list Player.t)
    (proj : Projectile.t) (planets : list Planet.t) :
  let result := CollisionSystem.update players [proj] [] planets in
  let players' := fst (fst (fst result)) in
  let projectiles' := snd (fst (fst result)) in
  let events := snd result in
  (forall i p,
     nth_error players i = Some p ->
     Player.id p = Projectile.ownerId proj ->
     exists p', nth_error players' i = Some p' /\ Says.undamaged p p')
  /\ (exists j, forall i p,
        nth_error players i = Some p -> i <> j ->
        exists p', nth_error players' i = Some p' /\ Says.undamaged p p')
  /\ (forall j,
        Projectile.active proj = true ->
        Arr.findIndex (CollisionSystem.projectileHits proj) players = Some j ->
        projectiles' = []
        /\ List.length events = 1%nat
        /\ (forall k q, (k < j)%nat -> nth_error players k = Some q ->
                        CollisionSystem.projectileHits proj q = false)
        /\ exists victim,
             nth_error players j = Some victim
             /\ nth_error players' j
                = Some (fst (Player.takeDamage victim
                               (Projectile.damage proj))))
  /\ (List.length events <= 1)%nat
  /\ (forall projectiles owner i p,
        (forall q, In q projectiles -> Projectile.active q = true ->
                   Projectile.ownerId q = owner) ->
        nth_error players i = Some p ->
        Player.id p = owner ->
        exists p',
          nth_error
            (snd (fst (CollisionSystem.projectilesVsPlayers projectiles
                         players))) i = Some p'
          /\ Says.undamaged p p')
  /\ (forall projectiles,
        (List.length
           (snd (CollisionSystem.projectilesVsPlayers projectiles players))
         <= List.length (filter Projectile.active projectiles))%nat).
Proof.
  cbv zeta.
  assert (Hmany :
    (forall projectiles owner i p,
        (forall q, In q projectiles -> Projectile.active q = true ->
                   Projectile.ownerId q = owner) ->
        nth_error players i = Some p ->
        Player.id p = owner ->
        exists p',
          nth_error
            (snd (fst (CollisionSystem.projectilesVsPlayers projectiles
                         players))) i = Some p'
          /\ Says.undamaged p p')
    /\ (forall projectiles,
          (List.length
             (snd (CollisionSystem.projectilesVsPlayers projectiles players))
           <= List.length (filter Projectile.active projectiles))%nat)).
  { split.
    - intros projectiles owner i p Hown Hp Hid.
      destruct (projectiles_spare_owner projectiles owner Hown players i p
                  Hp Hid) as [p' [Hp' [_ Hu]]].
      exists p'. split; assumption.
    - intros projectiles. apply projectiles_one_event_each. }
  rewrite <- !and_assoc. split; [|exact (proj2 Hmany)].
  split; [|exact (proj1 Hmany)]. rewrite !and_assoc. clear Hmany.
  rewrite update_single.
  assert (Hsame : forall i p, nth_error players i = Some p ->
            exists p', nth_error players i = Some p' /\ Says.undamaged p p').
  { intros i p Hp. exists p. split; [exact Hp|].
    apply sameButCredit_undamaged, sameButCredit_refl. }
  destruct (Projectile.active proj) eqn:Hact; cbn [negb].
  2:{ cbn [fst snd]. split; [|split; [|split]].
      - intros i p Hp _. apply Hsame, Hp.
      - exists O. intros i p Hp _. apply Hsame, Hp.
      - intros j Hc. discriminate Hc.
      - cbn. lia. }
  destruct (Arr.findIndex (CollisionSystem.projectileHits proj) players)
    as [j|] eqn:Hfind.
  - destruct (hitPlayer_hit proj players j Hfind)
      as [victim [Hnth [Hhit [Hproj [Hev Hall]]]]].
    destruct (CollisionSystem.hitPlayer proj players)
      as [[proj' players'] ev] eqn:Hhp.
    cbn [fst snd] in *. rewrite app_nil_r. subst proj'.
    assert (Hgone :
      filter Projectile.active
        [CollisionSystem.projectileVsPlanets planets
           (Projectile.set_active proj false)] = []).
    { unfold CollisionSystem.projectileVsPlanets. cbn. reflexivity. }
    split; [|split; [|split]].
    + intros i p Hp Hid. destruct (Hall i p Hp) as [p' [Hp' [Hne _]]].
      exists p'. split; [exact Hp'|].
      apply sameButCredit_undamaged, Hne. intros ->.
      rewrite Hnth in Hp. inversion Hp; subst p.
      unfold CollisionSystem.projectileHits in Hhit.
      rewrite Hid, String.eqb_refl in Hhit.
      rewrite andb_false_r in Hhit. discriminate.
    + exists j. intros i p Hp Hij. destruct (Hall i p Hp) as [p' [Hp' [Hne _]]].
      exists p'. split; [exact Hp'|]. apply sameButCredit_undamaged, Hne, Hij.
    + intros j0 _ Hj0. inversion Hj0; subst j0.
      split; [exact Hgone|]. split; [exact Hev|]. split.
      * intros k q Hk Hq. apply (findIndex_first _ _ _ Hfind k q Hk Hq).
      * exists victim. split; [exact Hnth|].
        destruct (Hall j victim Hnth) as [p' [Hp' [_ Heq]]].
        rewrite Hp', (Heq eq_refl). reflexivity.
    + rewrite Hev. lia.
  - rewrite (hitPlayer_miss proj players Hfind). cbn [fst snd].
    split; [|split; [|split]].
    + intros i p Hp _. apply Hsame, Hp.
    + exists O. intros i p Hp _. apply Hsame, Hp.
    + intros j _ Hc. discriminate Hc.
    + cbn. lia.
Qed.

Lemma projectile_spares_owner_hits_one_witness :
  exists p',
    nth_error
      (fst (fst (fst (CollisionSystem.update
                        [Sample.host; Sample.second; Sample.third]
                        [Sample.bullet] [] []))))
      0 = Some p'
    /\ Says.undamaged Sample.host p'.
Proof.
  destruct (projectile_spares_owner_hits_one
              [Sample.host; Sample.second; Sample.third] Sample.bullet [])
    as [Howner _].
  apply (Howner O Sample.host); reflexivity.
Defined.

(** Two players stacked on the owner: the first one in the array takes the
    20 points of the projectile, the other none, and the owner is credited
    with the hit. *)
Lemma stacked_players :
  exists owner' second',
    CollisionSystem.update [Sample.host; Sample.second; Sample.third]
      [Sample.bullet] [] []
    = ([owner'; second'; Sample.third], [], [], [Event.Hit "peer-2" 20])
    /\ Player.health owner' = 100
    /\ Player.shotsHit owner' = 1%Z
    /\ Player.health second' = 80.
Proof.
  assert (Hfind :
    Arr.findIndex (CollisionSystem.projectileHits Sample.bullet)
      [Sample.host; Sample.second; Sample.third] = Some 1%nat).
  { unfold CollisionSystem.projectileHits, Physics.circleCollision.
    cbn. decide_cmp. reflexivity. }
  rewrite update_single. unfold CollisionSystem.hitPlayer. rewrite Hfind.
  unfold Player.takeDamage. cbn. decide_cmp. cbn. decide_cmp. cbn.
  do 2 eexists. split; [reflexivity|]. cbn. repeat split; lra.
Qed.

(** ** Meteorites *)

(** The third phase for one meteorite, player by player. *)
Lemma meteoriteVsPlayers_map (met : Meteorite.t) (players : list Player.t) :
  CollisionSystem.meteoriteVsPlayers met players
  = (map (fun p =>
            if CollisionSystem.meteoriteHits met p
            then fst (Player.takeDamage p (Meteorite.damage met)) else p)
         players,
     flat_map
       (fun p =>
          if CollisionSystem.meteoriteHits met p
             && snd (Player.takeDamage p (Meteorite.damage met))
          then [Event.Kill "__meteorite" (Player.id p)
                  (Some "☄️ Meteorite"%string) (Player.name p)]
          else [])
       players).
Proof.
  induction players as [|p players IH]; [reflexivity|].
  cbn [CollisionSystem.meteoriteVsPlayers map flat_map]. rewrite IH.
  destruct (CollisionSystem.meteoriteHits met p); cbn [andb].
  - pose proof (takeDamage_id p (Meteorite.damage met)) as Hid.
    assert (Hname :
              Player.name (fst (Player.takeDamage p (Meteorite.damage met)))
              = Player.name p)
      by (unfold Player.takeDamage; split_tests; reflexivity).
    destruct (Player.takeDamage p (Meteorite.damage met)) as [p' died].
    cbn [fst snd] in *. destruct died; rewrite ?Hid, ?Hname; reflexivity.
  - reflexivity.
Qed.


Lemma meteoritesVsPlanets_spec (meteorites : list Meteorite.t)
    (planets : list Planet.t) :
  filter Meteorite.active
    (fst (CollisionSystem.meteoritesVsPlanets meteorites planets))
  = filter
      (fun m =>
         Meteorite.active m
         && negb (existsb (CollisionSystem.meteoriteHitsPlanet m) planets))
      meteorites
  /\ Forall Says.meteoriteEvent
       (snd (CollisionSystem.meteoritesVsPlanets meteorites planets)).
Proof.
  induction meteorites as [|met rest [IHf IHe]];
    [split; [reflexivity|constructor]|].
  cbn [CollisionSystem.meteoritesVsPlanets].
  destruct (CollisionSystem.meteoritesVsPlanets rest planets) as [rest' evs].
  cbn [fst snd] in *.
  destruct (Meteorite.active met) eqn:Hact; cbn [negb].
  - destruct (existsb (CollisionSystem.meteoriteHitsPlanet met) planets)
      eqn:Hhit; cbn [fst snd filter].
    + rewrite Hact, Hhit. cbn. split; [exact IHf|].
      apply Forall_app. split; [exact IHe|]. repeat constructor.
    + rewrite Hact, Hhit. cbn. rewrite IHf. split; [reflexivity | exact IHe].
  - cbn [fst snd filter]. rewrite Hact. cbn. split; [exact IHf | exact IHe].
Qed.






(** ** Speed *)

Lemma sqrt_le_bound (a m : R) : 0 <= m -> a <= m * m -> sqrt a <= m.
Proof.
  intros Hm Ha. rewrite <- (sqrt_square m Hm). apply sqrt_le_1_alt, Ha.
Qed.

Lemma sqrt_bound_sq (a m : R) : 0 <= a -> sqrt a <= m -> a <= m * m.
Proof.
  intros Ha Hs. pose proof (sqrt_pos a) as Hp.
  rewrite <- (sqrt_def a Ha). nra.
Qed.

Lemma sum_squares_nonneg (x y : R) : 0 <= x * x + y * y.
Proof. nra. Qed.

(** Evaluate [sqrt] of a numeral that is the square of [v]. *)
Ltac sqrt_is v :=
  match goal with
  | |- context [sqrt ?e] =>
      replace (sqrt e) with v
        by (replace e with (v * v) by lra; symmetry; apply sqrt_square; lra)
  end.

Lemma clampVelocity_bound (vel : Vec2.t) :
  Vec2.length (Physics.clampVelocity vel) <= Physics.MAX_VELOCITY.
Proof.
  unfold Physics.clampVelocity, Physics.MAX_VELOCITY.
  destruct (800 <? Vec2.length vel) eqn:Hc; cmp_hyps; [|exact Hc].
  unfold Vec2.normalize.
  destruct (Vec2.length vel =? 0) eqn:Hz; cmp_hyps; [lra|].
  unfold Vec2.scale, Vec2.length in *. cbn [Vec2.x Vec2.y] in *.
  set (len := sqrt (Vec2.x vel * Vec2.x vel + Vec2.y vel * Vec2.y vel)) in *.
  assert (Hlen : len * len = Vec2.x vel * Vec2.x vel + Vec2.y vel * Vec2.y vel)
    by (apply sqrt_def, sum_squares_nonneg).
  apply sqrt_le_bound; [lra|].
  replace (Vec2.x vel / len * 800 * (Vec2.x vel / len * 800)
           + Vec2.y vel / len * 800 * (Vec2.y vel / len * 800))
    with ((Vec2.x vel * Vec2.x vel + Vec2.y vel * Vec2.y vel)
          / (len * len) * (800 * 800))
    by (field; exact Hz).
  rewrite <- Hlen. right. field. exact Hz.
Qed.

Lemma speed_damped (vx vy m c : R) :
  0 <= m -> 0 <= c <= 1 ->
  Says.speed vx vy <= m -> Says.speed (vx * c) (vy * c) <= m.
Proof.
  unfold Says.speed, Vec2.length. cbn [Vec2.x Vec2.y]. intros Hm Hc H.
  apply sqrt_bound_sq in H; [|apply sum_squares_nonneg].
  apply sqrt_le_bound; [exact Hm|].
  assert (0 <= c * c <= 1) by nra.
  assert (0 <= vx * vx + vy * vy) by nra.
  nra.
Qed.

(** C2, as the code has it.  A player that goes through the airborne branch
    of [_handlePlayerGravity] (it is not grounded and does not land at the
    top of the method) leaves it with a speed of at most [MAX_VELOCITY];
    the timers that follow in the tick do not touch the velocity. *)
Theorem airborne_player_speed_bounded (player : Player.t)
    (nearestPlanet : Planet.t) (dist : R) (accel : Vec2.t) (dt : R)
    (rnd : Num.Rand) (k : nat) :
  Player.isGrounded player = false ->
  GravitySystem.lands player dist = false ->
  let player' :=
    fst (GravitySystem._handlePlayerGravity player
           (Some (nearestPlanet, dist)) accel dt rnd k) in
  Says.speed (Player.vx player') (Player.vy player') <= Physics.MAX_VELOCITY
  /\ Says.speed (Player.vx (Player.updateTimers player' dt))
                (Player.vy (Player.updateTimers player' dt))
     <= Physics.MAX_VELOCITY.
Proof.
  intros Hair Hland. cbv zeta.
  assert (Htimers : forall p d,
            Player.vx (Player.updateTimers p d) = Player.vx p
            /\ Player.vy (Player.updateTimers p d) = Player.vy p).
  { intros p d. unfold Player.updateTimers. split_tests; split; reflexivity. }
  destruct (Htimers
              (fst (GravitySystem._handlePlayerGravity player
                      (Some (nearestPlanet, dist)) accel dt rnd k)) dt)
    as [-> ->].
  assert (Says.speed
    (Player.vx (fst (GravitySystem._handlePlayerGravity player
                       (Some (nearestPlanet, dist)) accel dt rnd k)))
    (Player.vy (fst (GravitySystem._handlePlayerGravity player
                       (Some (nearestPlanet, dist)) accel dt rnd k)))
    <= Physics.MAX_VELOCITY); [|split; assumption].
  unfold GravitySystem._handlePlayerGravity. rewrite Hland, Hair. cbn [fst].
  unfold GravitySystem.airborne.
  match goal with
  | |- context [Physics.clampVelocity ?v] =>
      pose proof (clampVelocity_bound v) as Hb;
      set (vel := Physics.clampVelocity v) in *
  end.
  match goal with
  | |- context [if ?c then _ else _] => destruct c
  end; cbn [Player.vx Player.vy Player.set_vx Player.set_vy Player.set_x
            Player.set_y Player.set_isGrounded].
  - apply speed_damped; [unfold Physics.MAX_VELOCITY; lra | lra |].
    destruct vel; exact Hb.
  - destruct vel; exact Hb.
Qed.

Lemma airborne_player_speed_bounded_witness :
  let player' :=
    fst (GravitySystem._handlePlayerGravity Sample.host
           (Some (Sample.planet, 88)) (Vec2.mk 0 0) Sample.dt
           Sample.zeros O) in
  Says.speed (Player.vx player') (Player.vy player') <= Physics.MAX_VELOCITY
  /\ Says.speed (Player.vx (Player.updateTimers player' Sample.dt))
                (Player.vy (Player.updateTimers player' Sample.dt))
     <= Physics.MAX_VELOCITY.
Proof.
  apply (airborne_player_speed_bounded Sample.host Sample.planet 88
           (Vec2.mk 0 0) Sample.dt Sample.zeros O).
  - reflexivity.
  - unfold GravitySystem.lands. cbn. apply andb_false_r.
Defined.

(** C2 as stated fails: nothing clamps a projectile.  A pellet fired at the
    shotgun's speed keeps its 1200 units/s through the gravity step of the
    tick. *)
Lemma pellet_exceeds_max_velocity :
  let proj := Game.tickProjectile [Sample.planet] Sample.dt Sample.pellet in
  Projectile.active Sample.pellet = true
  /\ Physics.MAX_VELOCITY
     < Says.speed (Projectile.vx proj) (Projectile.vy proj).
Proof.
  cbv zeta. split; [reflexivity|].
  unfold Game.tickProjectile, Game.projectileGravity, Vec2.distTo,
    Vec2.length, Vec2.sub.
  cbn. sqrt_is 1000. decide_cmp.
  unfold Projectile.update. cbn. unfold Sample.dt. decide_cmp. cbn.
  unfold Says.speed, Vec2.length, Physics.MAX_VELOCITY. cbn.
  sqrt_is 1200. lra.
Qed.

(** ** Gravity on projectiles and meteorites *)

Lemma totalAccel_pull (pos : Vec2.t) (planets : list Planet.t)
    (acc : Vec2.t) :
  Vec2.x (GravitySystem.totalAccel pos planets acc)
  = Vec2.x acc + Vec2.x (Says.pull pos planets)
  /\ Vec2.y (GravitySystem.totalAccel pos planets acc)
     = Vec2.y acc + Vec2.y (Says.pull pos planets).
Proof.
  revert acc. induction planets as [|planet rest IH]; intros acc.
  - cbn. split; lra.
  - cbn [GravitySystem.totalAccel]. unfold Says.pull. cbn [filter].
    fold (Says.pulls pos planet).
    destruct (Says.pulls pos planet).
    + destruct (IH (Vec2.add acc (Physics.gravityAccel pos planet)))
        as [-> ->].
      cbn [fold_right]. fold (Says.pull pos rest). cbn. split; lra.
    + destruct (IH acc) as [-> ->]. split; reflexivity.
Qed.

Lemma projectileGravity_pull (proj : Projectile.t) (planets : list Planet.t)
    (dt : R) :
  let pos := Vec2.mk (Projectile.x proj) (Projectile.y proj) in
  let proj' := Game.projectileGravity proj planets dt in
  Projectile.x proj' = Projectile.x proj
  /\ Projectile.y proj' = Projectile.y proj
  /\ Projectile.active proj' = Projectile.active proj
  /\ Projectile.vx proj'
     = Projectile.vx proj + Vec2.x (Says.pull pos planets) * dt
  /\ Projectile.vy proj'
     = Projectile.vy proj + Vec2.y (Says.pull pos planets) * dt.
Proof.
  cbv zeta. revert proj. induction planets as [|planet rest IH]; intros proj.
  - cbn. repeat split; lra.
  - cbn [Game.projectileGravity]. unfold Says.pull. cbn [filter].
    fold (Says.pulls (Vec2.mk (Projectile.x proj) (Projectile.y proj)) planet).
    destruct (Says.pulls (Vec2.mk (Projectile.x proj) (Projectile.y proj))
                planet).
    + match goal with
      | |- context [Game.projectileGravity ?p rest dt] =>
          destruct (IH p) as [-> [-> [-> [-> ->]]]]
      end.
      cbn. fold (Says.pull (Vec2.mk (Projectile.x proj) (Projectile.y proj))
                   rest).
      repeat split; lra.
    + destruct (IH proj) as [-> [-> [-> [-> ->]]]]. repeat split; reflexivity.
Qed.

Lemma meteoriteGravity_pull (met : Meteorite.t) (planets : list Planet.t)
    (dt : R) :
  let pos := Vec2.mk (Meteorite.x met) (Meteorite.y met) in
  let met' := Game.meteoriteGravity met planets dt in
  Meteorite.x met' = Meteorite.x met
  /\ Meteorite.y met' = Meteorite.y met
  /\ Meteorite.active met' = Meteorite.active met
  /\ Meteorite.vx met'
     = Meteorite.vx met + Vec2.x (Says.pull pos planets) * dt * 0.5
  /\ Meteorite.vy met'
     = Meteorite.vy met + Vec2.y (Says.pull pos planets) * dt * 0.5.
Proof.
  cbv zeta. revert met. induction planets as [|planet rest IH]; intros met.
  - cbn. repeat split; lra.
  - cbn [Game.meteoriteGravity]. unfold Says.pull. cbn [filter].
    fold (Says.pulls (Vec2.mk (Meteorite.x met) (Meteorite.y met)) planet).
    destruct (Says.pulls (Vec2.mk (Meteorite.x met) (Meteorite.y met))
                planet).
    + match goal with
      | |- context [Game.meteoriteGravity ?m rest dt] =>
          destruct (IH m) as [-> [-> [-> [-> ->]]]]
      end.
      cbn. fold (Says.pull (Vec2.mk (Meteorite.x met) (Meteorite.y met))
                   rest).
      repeat split; lra.
    + destruct (IH met) as [-> [-> [-> [-> ->]]]]. repeat split; reflexivity.
Qed.

(** C4, as the code has it.  In the tick an active projectile gets
    [v += a * dt], where [a] is the vector sum of the accelerations of the
    planets whose gravity range exceeds the distance, and no locomotion
    logic; an active meteorite gets half of it, [v += a * dt * 0.5].
    [GravitySystem.applyGravity] on a projectile or a meteorite adds the
    full [a * dt]. *)
Theorem tick_gravity_integrates (planets : list Planet.t) (dt : R) :
  (forall proj,
     Projectile.active proj = true ->
     let a :=
       Says.pull (Vec2.mk (Projectile.x proj) (Projectile.y proj)) planets in
     let proj' := Game.tickProjectile planets dt proj in
     Projectile.vx proj' = Projectile.vx proj + Vec2.x a * dt
     /\ Projectile.vy proj' = Projectile.vy proj + Vec2.y a * dt)
  /\ (forall met,
        Meteorite.active met = true ->
        let a :=
          Says.pull (Vec2.mk (Meteorite.x met) (Meteorite.y met)) planets in
        let met' := Game.tickMeteorite planets dt met in
        Meteorite.vx met' = Meteorite.vx met + Vec2.x a * dt * 0.5
        /\ Meteorite.vy met' = Meteorite.vy met + Vec2.y a * dt * 0.5)
  /\ (forall entity rnd k,
        (forall p, entity <> Entity.OfPlayer p) ->
        let a :=
          Says.pull (Vec2.mk (Entity.x entity) (Entity.y entity)) planets in
        let entity' :=
          fst (GravitySystem.applyGravity entity planets dt rnd k) in
        Entity.vx entity' = Entity.vx entity + Vec2.x a * dt
        /\ Entity.vy entity' = Entity.vy entity + Vec2.y a * dt).
Proof.
  split; [|split].
  - intros proj Hact. cbv zeta. unfold Game.tickProjectile.
    rewrite Hact. cbn [negb].
    destruct (projectileGravity_pull proj planets dt)
      as [_ [_ [_ [Hvx Hvy]]]].
    rewrite <- Hvx, <- Hvy. unfold Projectile.update.
    split_tests; split; reflexivity.
  - intros met Hact. cbv zeta. unfold Game.tickMeteorite.
    rewrite Hact. cbn [negb].
    destruct (meteoriteGravity_pull met planets dt)
      as [_ [_ [_ [Hvx Hvy]]]].
    rewrite <- Hvx, <- Hvy. unfold Meteorite.update.
    split_tests; split; reflexivity.
  - intros entity rnd k Hnp. cbv zeta. unfold GravitySystem.applyGravity.
    destruct (totalAccel_pull (Vec2.mk (Entity.x entity) (Entity.y entity))
                planets (Vec2.mk 0 0)) as [Hx Hy].
    cbn [Vec2.x Vec2.y] in Hx, Hy.
    destruct entity as [p|p|m].
    + exfalso. apply (Hnp p). reflexivity.
    + cbn. cbn in Hx, Hy. rewrite Hx, Hy. split; lra.
    + cbn. cbn in Hx, Hy. rewrite Hx, Hy. split; lra.
Qed.

Lemma tick_gravity_integrates_witness :
  let a :=
    Says.pull (Vec2.mk (Projectile.x Sample.pellet)
                       (Projectile.y Sample.pellet)) [Sample.planet] in
  let proj' := Game.tickProjectile [Sample.planet] Sample.dt Sample.pellet in
  Projectile.vx proj' = Projectile.vx Sample.pellet + Vec2.x a * Sample.dt
  /\ Projectile.vy proj' = Projectile.vy Sample.pellet + Vec2.y a * Sample.dt.
Proof.
  destruct (tick_gravity_integrates [Sample.planet] Sample.dt) as [Hproj _].
  apply (Hproj Sample.pellet). reflexivity.
Defined.

(** The pull of [Sample.planet] on [Sample.drifter]: 8.25 towards the
    planet. *)
Lemma drifter_pull :
  Says.pull (Vec2.mk 200 0) [Sample.planet] = Vec2.mk (-8.25) 0.
Proof.
  unfold Says.pull, Says.pulls, Vec2.distTo, Vec2.length, Vec2.sub.
  cbn. sqrt_is 200. decide_cmp. cbn.
  unfold Physics.gravityAccel, Vec2.lengthSq, Vec2.normalize, Vec2.length.
  cbn. repeat sqrt_is 200. decide_cmp. cbn.
  replace ((0 - 200) * (0 - 200) + (0 - 0) * (0 - 0)) with 40000 by lra.
  unfold Physics.GRAVITY_CONSTANT, Rmin.
  destruct (Rle_dec _ _) as [_|Hn]; [|exfalso; apply Hn; lra].
  unfold Vec2.add, Vec2.scale. cbn. f_equal; lra.
Qed.

(** C4 as stated fails on meteorites: the tick halves their acceleration. *)
Lemma meteorite_gravity_halved :
  let a :=
    Says.pull (Vec2.mk (Meteorite.x Sample.drifter)
                       (Meteorite.y Sample.drifter)) [Sample.planet] in
  let met' := Game.tickMeteorite [Sample.planet] 1 Sample.drifter in
  Meteorite.active Sample.drifter = true
  /\ Meteorite.vx met' = -4.125
  /\ Meteorite.vx met' <> Meteorite.vx Sample.drifter + Vec2.x a * 1.
Proof.
  cbv zeta. split; [reflexivity|].
  destruct (meteoriteGravity_pull Sample.drifter [Sample.planet] 1)
    as [_ [_ [_ [Hvx _]]]].
  cbn [Sample.drifter Meteorite.x Meteorite.y Meteorite.vx] in Hvx.
  rewrite drifter_pull in Hvx. cbn [Vec2.x] in Hvx.
  assert (Hkeep : forall m d,
            Meteorite.vx (Meteorite.update m d) = Meteorite.vx m)
    by (intros m d; unfold Meteorite.update; split_tests; reflexivity).
  unfold Game.tickMeteorite.
  cbn [Sample.drifter Meteorite.active negb Meteorite.x Meteorite.y
       Meteorite.vx].
  rewrite Hkeep, drifter_pull. cbn [Vec2.x].
  fold Sample.drifter. rewrite Hvx. split; lra.
Qed.

(** ** Jump *)

(** Nothing in a tick writes [jumpGraceTimer], and a player that cannot land
    stays in the air. *)
Lemma takeDamage_keeps (p : Player.t) (amount : R) :
  Player.jumpGraceTimer (fst (Player.takeDamage p amount))
  = Player.jumpGraceTimer p
  /\ Player.isGrounded (fst (Player.takeDamage p amount))
     = Player.isGrounded p.
Proof. unfold Player.takeDamage. split_tests; split; reflexivity. Qed.

Lemma updateTimers_keeps (p : Player.t) (dt : R) :
  Player.jumpGraceTimer (Player.updateTimers p dt) = Player.jumpGraceTimer p
  /\ Player.isGrounded (Player.updateTimers p dt) = Player.isGrounded p.
Proof. unfold Player.updateTimers. split_tests; split; reflexivity. Qed.

Lemma airborne_keeps (player : Player.t) (nearestPlanet : Planet.t)
    (accel : Vec2.t) (dt : R) :
  Player.jumpGraceTimer
    (GravitySystem.airborne player nearestPlanet accel dt false)
  = Player.jumpGraceTimer player
  /\ Player.isGrounded
       (GravitySystem.airborne player nearestPlanet accel dt false)
     = Player.isGrounded player.
Proof.
  unfold GravitySystem.airborne. cbn [andb].
  split_tests; split; reflexivity.
Qed.

Lemma tickPlayer_keeps_grace (player : Player.t) (planets : list Planet.t)
    (dt : R) (rnd : Num.Rand) (k : nat) (g : R) :
  0 < g ->
  Player.jumpGraceTimer player = Some g ->
  Player.isGrounded player = false ->
  Player.jumpGraceTimer (fst (Game.tickPlayer player planets dt rnd k))
  = Some g
  /\ Player.isGrounded (fst (Game.tickPlayer player planets dt rnd k))
     = false.
Proof.
  intros Hg Hgrace Hair.
  assert (Hcan : GravitySystem.canLand player = false).
  { unfold GravitySystem.canLand. rewrite Hgrace. apply leb_false, Hg. }
  unfold Game.tickPlayer.
  destruct (Player.alive player).
  - unfold GravitySystem.applyGravityPlayer,
      GravitySystem._handlePlayerGravity.
    destruct (Physics.nearestPlanet _ planets) as [[nearest dist]|].
    + unfold GravitySystem.lands. rewrite Hcan, andb_false_r, Hair.
      cbn [fst].
      destruct (updateTimers_keeps
                  (GravitySystem.airborne player nearest
                     (GravitySystem.totalAccel
                        (Vec2.mk (Player.x player) (Player.y player))
                        planets (Vec2.mk 0 0)) dt false) dt) as [-> ->].
      destruct (airborne_keeps player nearest
                  (GravitySystem.totalAccel
                     (Vec2.mk (Player.x player) (Player.y player))
                     planets (Vec2.mk 0 0)) dt) as [-> ->].
      split; assumption.
    + cbn [fst]. destruct (updateTimers_keeps player dt) as [-> ->].
      split; assumption.
  - cbn [fst]. destruct (updateTimers_keeps player dt) as [-> ->].
    split; assumption.
Qed.

Lemma tickPlayerN_keeps_grace (n : nat) (player : Player.t)
    (planets : list Planet.t) (dt : R) (rnd : Num.Rand) (k : nat) (g : R) :
  0 < g ->
  Player.jumpGraceTimer player = Some g ->
  Player.isGrounded player = false ->
  Player.jumpGraceTimer (fst (Game.tickPlayerN n player planets dt rnd k))
  = Some g
  /\ Player.isGrounded (fst (Game.tickPlayerN n player planets dt rnd k))
     = false.
Proof.
  intros Hg. revert player k.
  induction n as [|n IH]; intros player k Hgrace Hair.
  - cbn. split; assumption.
  - cbn [Game.tickPlayerN].
    destruct (tickPlayer_keeps_grace player planets dt rnd k g Hg Hgrace Hair)
      as [H1 H2].
    destruct (Game.tickPlayer player planets dt rnd k) as [player1 k1].
    cbn [fst] in *. apply IH; assumption.
Qed.

(** What a successful [jump] writes. *)
Lemma jump_effects (player : Player.t) (nearestPlanet : Planet.t) :
  Player.isGrounded player = true ->
  Player.canJump player = true ->
  let jumpDir :=
    Vec2.normalize
      (Vec2.mk (Player.x player - Planet.x nearestPlanet)
               (Player.y player - Planet.y nearestPlanet)) in
  let boost :=
    if String.eqb (Planet.themeKey nearestPlanet) "crystal" then 1.5 else 1 in
  let player' := fst (GravitySystem.jump player nearestPlanet) in
  snd (GravitySystem.jump player nearestPlanet) = true
  /\ Player.isGrounded player' = false
  /\ Player.vx player' = Vec2.x jumpDir * Player.jumpForce player * boost
  /\ Player.vy player' = Vec2.y jumpDir * Player.jumpForce player * boost
  /\ Player.x player' = Player.x player + Vec2.x jumpDir * 12
  /\ Player.y player' = Player.y player + Vec2.y jumpDir * 12
  /\ Player.jumpGraceTimer player' = Some 0.35
  /\ forall dist, GravitySystem.lands player' dist = false.
Proof.
  intros Hg Hc. cbv zeta. unfold GravitySystem.jump.
  rewrite Hg, Hc. cbn [negb fst snd].
  unfold GravitySystem.surfaceThreshold.
  destruct (String.eqb (Planet.themeKey nearestPlanet) "crystal");
    cbn; repeat split; try lra;
    intros dist; unfold GravitySystem.lands, GravitySystem.canLand; cbn;
    decide_cmp; apply andb_false_r.
Qed.

(** A jump from the surface offset clears the landing threshold: the player
    ends 14 units above the surface of the planet it left. *)
Lemma jump_clears_threshold (player : Player.t) (nearestPlanet : Planet.t) :
  Player.isGrounded player = true ->
  Player.canJump player = true ->
  0 < Planet.radius nearestPlanet ->
  Vec2.distTo (Vec2.mk (Player.x player) (Player.y player))
              (Vec2.mk (Planet.x nearestPlanet) (Planet.y nearestPlanet))
  = Planet.radius nearestPlanet + Physics.SURFACE_OFFSET ->
  let player' := fst (GravitySystem.jump player nearestPlanet) in
  Vec2.distTo (Vec2.mk (Player.x player') (Player.y player'))
              (Vec2.mk (Planet.x nearestPlanet) (Planet.y nearestPlanet))
  - Planet.radius nearestPlanet = 14
  /\ GravitySystem.surfaceThreshold < 14.
Proof.
  intros Hg Hc Hr Hd. cbv zeta.
  split; [|unfold GravitySystem.surfaceThreshold; lra].
  destruct (jump_effects player nearestPlanet Hg Hc)
    as [_ [_ [_ [_ [Hx [Hy _]]]]]].
  cbv zeta in Hx, Hy. rewrite Hx, Hy. clear Hx Hy.
  unfold Vec2.distTo, Vec2.sub, Vec2.normalize, Vec2.length,
    Physics.SURFACE_OFFSET in *.
  cbn [Vec2.x Vec2.y] in *.
  set (dx := Player.x player - Planet.x nearestPlanet) in *.
  set (dy := Player.y player - Planet.y nearestPlanet) in *.
  set (len := sqrt (dx * dx + dy * dy)) in *.
  assert (Hpos : 0 < len) by lra.
  destruct (len =? 0) eqn:Hz; cmp_hyps; [lra|]. cbn [Vec2.x Vec2.y].
  assert (Hlen : len * len = dx * dx + dy * dy)
    by (apply sqrt_def; nra).
  replace ((Player.x player + dx / len * 12 - Planet.x nearestPlanet)
           * (Player.x player + dx / len * 12 - Planet.x nearestPlanet)
           + (Player.y player + dy / len * 12 - Planet.y nearestPlanet)
             * (Player.y player + dy / len * 12 - Planet.y nearestPlanet))
    with ((len + 12) * (len + 12)).
  - rewrite sqrt_square by lra. lra.
  - unfold dx, dy in *.
    set (ex := Player.x player - Planet.x nearestPlanet) in *.
    set (ey := Player.y player - Planet.y nearestPlanet) in *.
    replace (Player.x player + ex / len * 12 - Planet.x nearestPlanet)
      with (ex * ((len + 12) / len)) by (unfold ex; field; exact Hz).
    replace (Player.y player + ey / len * 12 - Planet.y nearestPlanet)
      with (ey * ((len + 12) / len)) by (unfold ey; field; exact Hz).
    replace (ex * ((len + 12) / len) * (ex * ((len + 12) / len))
             + ey * ((len + 12) / len) * (ey * ((len + 12) / len)))
      with ((ex * ex + ey * ey) * ((len + 12) * (len + 12)) / (len * len))
      by (field; exact Hz).
    rewrite <- Hlen. field. exact Hz.
Qed.

(** C1, where the code departs from it.  After a successful jump the grace
    timer holds 0.35 and landing is suppressed; but no statement of the tick
    ever lowers [jumpGraceTimer] ([Player.updateTimers] counts down
    [jumpCooldown], a field the rewritten [GravitySystem] no longer reads),
    so after any number of ticks the timer still holds 0.35, the player is
    still in the air and landing is still suppressed at any distance. *)
Theorem jump_grace_never_expires (player : Player.t)
    (nearestPlanet : Planet.t) (planets : list Planet.t) (dt : R)
    (rnd : Num.Rand) (k n : nat) :
  Player.isGrounded player = true ->
  Player.canJump player = true ->
  let jumped := fst (GravitySystem.jump player nearestPlanet) in
  let later := fst (Game.tickPlayerN n jumped planets dt rnd k) in
  Player.jumpGraceTimer later = Some 0.35
  /\ Player.isGrounded later = false
  /\ forall dist, GravitySystem.lands later dist = false.
Proof.
  intros Hg Hc. cbv zeta.
  destruct (jump_effects player nearestPlanet Hg Hc)
    as [_ [Hair [_ [_ [_ [_ [Hgrace _]]]]]]].
  cbv zeta in Hair, Hgrace.
  destruct (tickPlayerN_keeps_grace n
              (fst (GravitySystem.jump player nearestPlanet))
              planets dt rnd k 0.35 ltac:(lra) Hgrace Hair) as [H1 H2].
  split; [exact H1|]. split; [exact H2|].
  intros dist. unfold GravitySystem.lands, GravitySystem.canLand.
  rewrite H1. decide_cmp. apply andb_false_r.
Qed.

Lemma jump_grace_never_expires_witness :
  let jumped := fst (GravitySystem.jump Sample.grounded Sample.planet) in
  let later :=
    fst (Game.tickPlayerN 21 jumped [Sample.planet] Sample.dt Sample.zeros O) in
  21 * Sample.dt = 0.35
  /\ Player.jumpGraceTimer later = Some 0.35
  /\ Player.isGrounded later = false
  /\ forall dist, GravitySystem.lands later dist = false.
Proof.
  split; [unfold Sample.dt; lra|].
  apply (jump_grace_never_expires Sample.grounded Sample.planet
           [Sample.planet] Sample.dt Sample.zeros O 21); reflexivity.
Defined.

(** ** The shotgun *)

(** The seven base angles: pellet 0 at one end of the arc, pellet 6 at the
    other, pellet 3 on the aim direction, neighbours [PI / 24] apart. *)
Lemma shotgun_angles (baseAngle : R) :
  WeaponSystem.pelletAngle baseAngle (PI / 4) 7 0 = baseAngle - PI / 8
  /\ WeaponSystem.pelletAngle baseAngle (PI / 4) 7 3 = baseAngle
  /\ WeaponSystem.pelletAngle baseAngle (PI / 4) 7 6 = baseAngle + PI / 8
  /\ forall i,
       (i < 6)%nat ->
       WeaponSystem.pelletAngle baseAngle (PI / 4) 7 (S i)
       - WeaponSystem.pelletAngle baseAngle (PI / 4) 7 i = PI / 24.
Proof.
  unfold WeaponSystem.pelletAngle. cbn [Nat.ltb Nat.leb].
  replace (INR 7 - 1) with 6 by (cbn; lra).
  repeat split.
  - cbn. lra.
  - cbn. lra.
  - cbn. lra.
  - intros i _. rewrite S_INR. lra.
Qed.

Lemma unit_speed (a c : R) :
  Says.speed (cos a * c) (sin a * c) = Rabs c.
Proof.
  unfold Says.speed, Vec2.length. cbn [Vec2.x Vec2.y].
  replace (cos a * c * (cos a * c) + sin a * c * (sin a * c))
    with (Rsqr c * (Rsqr (sin a) + Rsqr (cos a)))
    by (unfold Rsqr; ring).
  rewrite sin2_cos2, Rmult_1_r. apply sqrt_Rsqr_abs.
Qed.

(** C5.  An alive player whose cooldown has run out and whose weapon is the
    default shotgun fires seven pellets.  Pellet [i] leaves the muzzle with
    damage 15 along its base angle moved by [(draw - 0.5) * 0.05], at speed
    [1200 + (draw - 0.5) * 50], each from draws of its own; the base angles
    are those of [shotgun_angles], spread evenly over [PI / 4] around the
    direction of the target.  The cooldown is left at 0.35, one shot is
    counted, and the velocity of the player moves by 150 against the aim
    direction. *)
Theorem shotgun_fire (player : Player.t) (targetX targetY : R)
    (rnd : Num.Rand) (k : nat) :
  Player.alive player = true ->
  Player.shootCooldown player <= 0 ->
  WeaponSystem.weaponOf player = "SHOTGUN"%string ->
  Num.unit_draws rnd ->
  let result := WeaponSystem.fire player targetX targetY rnd k in
  let player' := fst (fst result) in
  let projectiles := snd (fst result) in
  let baseAngle :=
    Num.atan2 (targetY - Player.y player) (targetX - Player.x player) in
  List.length projectiles = 7%nat
  /\ (forall i,
        (i < 7)%nat ->
        let angle := WeaponSystem.pelletAngle baseAngle (PI / 4) 7 i in
        let jitter := (rnd (2 * i + k)%nat - 0.5) * 0.05 in
        let speed := 1200 + (rnd (1 + 2 * i + k)%nat - 0.5) * 50 in
        Rabs jitter <= 0.025
        /\ 1175 <= speed <= 1225
        /\ exists proj,
             nth_error projectiles i = Some proj
             /\ Projectile.vx proj = cos (angle + jitter) * speed
             /\ Projectile.vy proj = sin (angle + jitter) * speed
             /\ Projectile.damage proj = 15
             /\ Projectile.ownerId proj = Player.id player
             /\ Projectile.active proj = true)
  /\ WeaponSystem.pelletAngle baseAngle (PI / 4) 7 0 = baseAngle - PI / 8
  /\ WeaponSystem.pelletAngle baseAngle (PI / 4) 7 3 = baseAngle
  /\ WeaponSystem.pelletAngle baseAngle (PI / 4) 7 6 = baseAngle + PI / 8
  /\ (forall i,
        (i < 6)%nat ->
        WeaponSystem.pelletAngle baseAngle (PI / 4) 7 (S i)
        - WeaponSystem.pelletAngle baseAngle (PI / 4) 7 i = PI / 24)
  /\ Player.shootCooldown player' = 0.35
  /\ Player.shotsFired player' = (Player.shotsFired player + 1)%Z
  /\ Player.vx player' = Player.vx player - cos baseAngle * 150
  /\ Player.vy player' = Player.vy player - sin baseAngle * 150
  /\ Says.speed (Player.vx player' - Player.vx player)
                (Player.vy player' - Player.vy player) = 150
  /\ snd result = (k + 14)%nat.
Proof.
  intros Halive Hcool Hweapon Hrnd. cbv zeta.
  assert (Hfire :
    WeaponSystem.fire player targetX targetY rnd k
    = let baseAngle :=
        Num.atan2 (targetY - Player.y player) (targetX - Player.x player) in
      let player1 :=
        Player.set_shotsFired
          (Player.set_shootCooldown
             (Player.set_shootCooldownMax player 0.35) 0.35)
          (Player.shotsFired player + 1)%Z in
      (Player.set_vy
         (Player.set_vx player1 (Player.vx player - cos baseAngle * 150))
         (Player.vy player - sin baseAngle * 150),
       WeaponSystem.pellets player1
         (Player.x player + cos baseAngle * WeaponSystem.muzzleOffset)
         (Player.y player + sin baseAngle * WeaponSystem.muzzleOffset)
         baseAngle (PI / 4) 1200 (Player.color player) 15 2 1.5 7 7 0 rnd k,
       (k + 14)%nat)).
  { unfold WeaponSystem.fire, Player.canShoot.
    rewrite Halive. apply leb_true in Hcool. rewrite Hcool. cbn [andb negb].
    rewrite Hweapon. cbn. reflexivity. }
  rewrite Hfire. cbv zeta. cbn [fst snd].
  destruct (shotgun_angles
              (Num.atan2 (targetY - Player.y player)
                 (targetX - Player.x player))) as [A0 [A3 [A6 Astep]]].
  split; [reflexivity|].
  split.
  { intros i Hi.
    pose proof (Hrnd (2 * i + k)%nat) as Hd1.
    pose proof (Hrnd (1 + 2 * i + k)%nat) as Hd2.
    split; [apply Rabs_le; lra|]. split; [lra|].
    do 7 (destruct i as [|i];
          [ eexists; split; [reflexivity|]; repeat split; reflexivity |]).
    lia. }
  repeat (split; [assumption || reflexivity|]).
  split.
  - cbn [Player.vx Player.vy Player.set_vx Player.set_vy].
    replace (Player.vx player - cos _ * 150 - Player.vx player)
      with (cos (Num.atan2 (targetY - Player.y player)
                   (targetX - Player.x player)) * (-150)) by ring.
    replace (Player.vy player - sin _ * 150 - Player.vy player)
      with (sin (Num.atan2 (targetY - Player.y player)
                   (targetX - Player.x player)) * (-150)) by ring.
    rewrite unit_speed. rewrite Rabs_left; lra.
  - reflexivity.
Qed.

Lemma shotgun_fire_witness :
  List.length
    (snd (fst (WeaponSystem.fire Sample.host 100 0 Sample.zeros O))) = 7%nat
  /\ Player.shootCooldown
       (fst (fst (WeaponSystem.fire Sample.host 100 0 Sample.zeros O)))
     = 0.35.
Proof.
  assert (Hcool : Player.shootCooldown Sample.host <= 0) by (cbn; lra).
  assert (Hdraws : Num.unit_draws Sample.zeros)
    by (intros n; unfold Sample.zeros; lra).
  destruct (shotgun_fire Sample.host 100 0 Sample.zeros O
              eq_refl Hcool eq_refl Hdraws)
    as [Hlen [_ [_ [_ [_ [_ [Hcd _]]]]]]].
  split; [exact Hlen | exact Hcd].
Defined.

(** ** The wire forms *)

Lemma round_bounds (a : R) : - (1 / 2) < Num.round a - a <= 1 / 2.
Proof.
  unfold Num.round. pose proof (Zfloor_bound (a + 1 / 2)) as [H1 H2]. lra.
Qed.

Lemma round_near (a : R) : Rabs (Num.round a - a) <= 1 / 2.
Proof. pose proof (round_bounds a). apply Rabs_le. lra. Qed.

Lemma round_integer (z : Z) : Num.round (IZR z) = IZR z.
Proof.
  unfold Num.round. f_equal. apply Zfloor_eq. lra.
Qed.

Lemma round_round (a : R) : Num.round (Num.round a) = Num.round a.
Proof. unfold Num.round at 2 3. apply round_integer. Qed.

(** Rounding to [1 / s] of a unit, as [Math.round (a * s) / s]. *)
Lemma round_scaled_near (a s : R) :
  0 < s -> Rabs (Num.round (a * s) / s - a) <= 1 / (2 * s).
Proof.
  intros Hs. pose proof (round_bounds (a * s)) as H.
  apply Rabs_le.
  assert (Hinv : 0 < / s) by (apply Rinv_0_lt_compat, Hs).
  replace (Num.round (a * s) / s - a)
    with ((Num.round (a * s) - a * s) * / s) by (field; lra).
  replace (1 / (2 * s)) with (1 / 2 * / s) by (field; lra).
  split; nra.
Qed.

Lemma round_scaled_idem (a s : R) :
  s <> 0 ->
  Num.round (Num.round (a * s) / s * s) / s = Num.round (a * s) / s.
Proof.
  intros Hs.
  replace (Num.round (a * s) / s * s) with (Num.round (a * s))
    by (field; exact Hs).
  rewrite round_round. reflexivity.
Qed.

Lemma invulnerable_flag (inv : R) :
  (0 <? (if 0 <? inv then 1 else 0)) = (0 <? inv).
Proof.
  destruct (0 <? inv) eqn:H.
  - apply ltb_true. lra.
  - apply ltb_false. lra.
Qed.

Lemma player_wire_cycle (p : Player.t) (fallbackName : string) :
  Player.serialize (Player.fromSerialized (Player.serialize p) fallbackName)
  = Player.serialize p.
Proof.
  unfold Player.fromSerialized, Player.applyState, Player.serialize.
  cbn. rewrite !round_scaled_idem by lra. rewrite invulnerable_flag.
  reflexivity.
Qed.

Lemma player_cycle_idem (p : Player.t) (fallbackName : string) :
  let p1 := Player.fromSerialized (Player.serialize p) fallbackName in
  Player.fromSerialized (Player.serialize p1) fallbackName = p1.
Proof.
  cbv zeta. rewrite player_wire_cycle. reflexivity.
Qed.

Lemma projectile_wire_cycle (p : Projectile.t) :
  Projectile.serialize (Projectile.fromSerialized (Projectile.serialize p))
  = Projectile.serialize p.
Proof.
  unfold Projectile.fromSerialized, Projectile.serialize. cbn.
  rewrite !round_round, round_scaled_idem by lra. reflexivity.
Qed.

Lemma meteorite_wire_cycle (m : Meteorite.t) (rnd : Num.Rand) (k : nat) :
  Meteorite.serialize
    (fst (Meteorite.fromSerialized (Meteorite.serialize m) rnd k))
  = Meteorite.serialize m.
Proof.
  unfold Meteorite.fromSerialized, Meteorite.serialize, Meteorite.new. cbn.
  rewrite !round_round, round_scaled_idem by lra. reflexivity.
Qed.

Lemma pickup_wire_cycle (p : Pickup.t) (rnd : Num.Rand) (k : nat) :
  Pickup.serialize (fst (Pickup.fromSerialized (Pickup.serialize p) rnd k))
  = Pickup.serialize p.
Proof.
  unfold Pickup.fromSerialized, Pickup.serialize, Pickup.new. cbn.
  rewrite !round_round. reflexivity.
Qed.

Ltac near_scaled :=
  cbn; eapply Rle_trans; [apply round_scaled_near; lra | lra].

(** C6, as the code has it.  A serialize/deserialize cycle reproduces the
    fields that are on the wire: for a player the position and velocity to
    one decimal and the angle, move intent and the two timers to two; for a
    projectile, a meteorite and a pickup the coordinates to the nearest
    integer, the age and rotation to two decimals; the other wire fields
    exactly.  [invulnerable] comes back as 1 or 0.  The fields that are not
    on the wire come back as the constructor sets them, whatever they were:
    its constants, its draws for the spin of a meteorite and the bobbing
    phase of a pickup, and for the type of a pickup the entry of
    [PICKUP_TYPES] under its key.  The wire form is a fixed point of the
    cycle for the four kinds, and for players and projectiles a second cycle
    returns the result of the first exactly. *)
Theorem wire_cycle (fallbackName : string) (rnd : Num.Rand) (k : nat) :
  (forall p : Player.t,
     let p' := Player.fromSerialized (Player.serialize p) fallbackName in
     (Player.id p' = Player.id p /\ Player.index p' = Player.index p
      /\ Player.name p' = Player.name p /\ Player.color p' = Player.color p
      /\ Player.isGrounded p' = Player.isGrounded p
      /\ Player.facingLeft p' = Player.facingLeft p
      /\ Player.health p' = Player.health p
      /\ Player.alive p' = Player.alive p
      /\ Player.kills p' = Player.kills p
      /\ Player.deaths p' = Player.deaths p)
     /\ (Rabs (Player.x p' - Player.x p) <= 1 / 20
         /\ Rabs (Player.y p' - Player.y p) <= 1 / 20
         /\ Rabs (Player.vx p' - Player.vx p) <= 1 / 20
         /\ Rabs (Player.vy p' - Player.vy p) <= 1 / 20)
     /\ (Rabs (Player.surfaceAngle p' - Player.surfaceAngle p) <= 1 / 200
         /\ Rabs (Player.moveX p' - Player.moveX p) <= 1 / 200
         /\ Rabs (Player.damageFlash p' - Player.damageFlash p) <= 1 / 200
         /\ Rabs (Player.respawnTimer p' - Player.respawnTimer p) <= 1 / 200)
     /\ Player.invulnerable p' = (if 0 <? Player.invulnerable p then 1 else 0)
     /\ Player.serialize p' = Player.serialize p
     /\ Player.fromSerialized (Player.serialize p') fallbackName = p')
  /\ (forall p : Projectile.t,
        let p' := Projectile.fromSerialized (Projectile.serialize p) in
        (Projectile.ownerId p' = Projectile.ownerId p
         /\ Projectile.color p' = Projectile.color p)
        /\ (Rabs (Projectile.x p' - Projectile.x p) <= 1 / 2
            /\ Rabs (Projectile.y p' - Projectile.y p) <= 1 / 2
            /\ Rabs (Projectile.vx p' - Projectile.vx p) <= 1 / 2
            /\ Rabs (Projectile.vy p' - Projectile.vy p) <= 1 / 2)
        /\ Rabs (Projectile.age p' - Projectile.age p) <= 1 / 200
        /\ Projectile.serialize p' = Projectile.serialize p
        /\ Projectile.fromSerialized (Projectile.serialize p') = p')
  /\ (forall m : Meteorite.t,
        let m' :=
          fst (Meteorite.fromSerialized (Meteorite.serialize m) rnd k) in
        (Meteorite.radius m' = Meteorite.radius m
         /\ Meteorite.shape m' = Meteorite.shape m)
        /\ (Rabs (Meteorite.x m' - Meteorite.x m) <= 1 / 2
            /\ Rabs (Meteorite.y m' - Meteorite.y m) <= 1 / 2
            /\ Rabs (Meteorite.vx m' - Meteorite.vx m) <= 1 / 2
            /\ Rabs (Meteorite.vy m' - Meteorite.vy m) <= 1 / 2)
        /\ Rabs (Meteorite.rotation m' - Meteorite.rotation m) <= 1 / 200
        /\ Meteorite.serialize m' = Meteorite.serialize m)
  /\ (forall p : Pickup.t,
        let p' := fst (Pickup.fromSerialized (Pickup.serialize p) rnd k) in
        (Pickup.id p' = Pickup.id p /\ Pickup.typeKey p' = Pickup.typeKey p)
        /\ (Rabs (Pickup.x p' - Pickup.x p) <= 1 / 2
            /\ Rabs (Pickup.y p' - Pickup.y p) <= 1 / 2)
        /\ Pickup.serialize p' = Pickup.serialize p)
  /\ (forall p : Player.t,
        let p' := Player.fromSerialized (Player.serialize p) fallbackName in
        Player.radius p' = 12
        /\ Player.groundedPlanetIndex p' = (-1)%Z
        /\ Player.aimAngle p' = 0
        /\ Player.maxHealth p' = 100
        /\ Player.shotsFired p' = 0%Z
        /\ Player.shotsHit p' = 0%Z
        /\ Player.damageDealt p' = 0
        /\ Player.shootCooldown p' = 0
        /\ Player.shootCooldownMax p' = 0.6
        /\ Player.respawnTime p' = 3
        /\ Player.jumpForce p' = 300
        /\ Player.canJump p' = true
        /\ Player.jumpCooldown p' = 0
        /\ Player.moveSpeed p' = 200
        /\ Player.airControl p' = 80
        /\ Player.jumpGraceTimer p' = None
        /\ Player.currentWeapon p' = None)
  /\ (forall p : Projectile.t,
        let p' := Projectile.fromSerialized (Projectile.serialize p) in
        Projectile.radius p' = 3
        /\ Projectile.damage p' = 20
        /\ Projectile.lifetime p' = 3
        /\ Projectile.active p' = true)
  /\ (forall m : Meteorite.t,
        let m' :=
          fst (Meteorite.fromSerialized (Meteorite.serialize m) rnd k) in
        Meteorite.rotationSpeed m' = (rnd (1 + k)%nat - 0.5) * 4
        /\ Meteorite.active m' = true
        /\ Meteorite.lifetime m' = 10
        /\ Meteorite.age m' = 0
        /\ Meteorite.damage m' = 50)
  /\ (forall p : Pickup.t,
        let p' := fst (Pickup.fromSerialized (Pickup.serialize p) rnd k) in
        Pickup.type p' = Pickup.lookup (Pickup.typeKey p)
        /\ Pickup.radius p' = 15
        /\ Pickup.active p' = true
        /\ Pickup.baseX p' = Pickup.x p'
        /\ Pickup.baseY p' = Pickup.y p'
        /\ Pickup.time p' = rnd k * 10
        /\ Pickup.surfaceAngle p' = 0).
Proof.
  split; [|split; [|split; [|split; [|split; [|split; [|split]]]]]].
  - intros p. cbv zeta.
    split; [repeat split|].
    split; [repeat split; near_scaled|].
    split; [repeat split; near_scaled|].
    split; [reflexivity|].
    split; [apply player_wire_cycle | apply player_cycle_idem].
  - intros p. cbv zeta.
    split; [split; reflexivity|].
    split; [repeat split; cbn; apply round_near|].
    split; [near_scaled|].
    split; [apply projectile_wire_cycle|].
    rewrite projectile_wire_cycle. reflexivity.
  - intros m. cbv zeta.
    split; [split; reflexivity|].
    split; [repeat split; cbn; apply round_near|].
    split; [near_scaled | apply meteorite_wire_cycle].
  - intros p. cbv zeta.
    split; [split; reflexivity|].
    split; [split; cbn; apply round_near | apply pickup_wire_cycle].
  - intros p. cbv zeta. unfold Player.fromSerialized, Player.new.
    cbn. repeat split; lra.
  - intros p. cbv zeta. cbn. repeat split.
  - intros m. cbv zeta. cbn. repeat split.
  - intros p. cbv zeta. cbn. repeat split.
Qed.

(** C6 as stated fails: fields that are not on the wire do not come back.
    A shotgun pellet of damage 15, radius 2 and lifetime 1.5 comes back with
    the constructor's 20, 3 and 3. *)
Lemma wire_cycle_loses_damage :
  let shot' := Projectile.fromSerialized (Projectile.serialize Sample.shot) in
  Projectile.damage Sample.shot = 15
  /\ Projectile.damage shot' = 20
  /\ Projectile.radius Sample.shot = 2
  /\ Projectile.radius shot' = 3
  /\ Projectile.lifetime Sample.shot = 1.5
  /\ Projectile.lifetime shot' = 3
  /\ shot' <> Sample.shot.
Proof.
  cbv zeta. repeat split.
  intros H. apply (f_equal Projectile.damage) in H. cbn in H. lra.
Qed.

(** ** Snapshot interpolation *)




(** The first loop of [lerpAngle]: full turns are taken off, a difference
    that is not above [PI] is left alone, one that is ends above [- PI], and
    with enough fuel the loop has run to its exit. *)
Lemma wrapDown_spec (fuel : nat) (diff : R) :
  (exists n : nat, Physics.wrapDown fuel diff = diff - INR n * (PI * 2))
  /\ (diff <= PI -> Physics.wrapDown fuel diff = diff)
  /\ (PI < diff -> - PI < Physics.wrapDown fuel diff)
  /\ (diff <= PI + INR fuel * (PI * 2) -> Physics.wrapDown fuel diff <= PI).
Proof.
  pose proof PI_RGT_0 as Hpi.
  revert diff. induction fuel as [|fuel IH]; intros diff.
  - cbn [Physics.wrapDown]. repeat split; try lra.
    + exists O. cbn. lra.
    + cbn. lra.
  - cbn [Physics.wrapDown]. rewrite S_INR.
    destruct (PI <? diff) eqn:Hc; cmp_hyps.
    + destruct (IH (diff - PI * 2)) as [[n Hn] [Hid [Hlow Hup]]].
      repeat split.
      * exists (S n). rewrite Hn, S_INR. lra.
      * lra.
      * intros _. destruct (Rle_dec (diff - PI * 2) PI) as [Hle|Hgt].
        -- rewrite (Hid Hle). lra.
        -- apply Hlow. lra.
      * intros H. apply Hup. lra.
    + repeat split; try lra. exists O. cbn. lra.
Qed.

Lemma wrapUp_spec (fuel : nat) (diff : R) :
  (exists n : nat, Physics.wrapUp fuel diff = diff + INR n * (PI * 2))
  /\ (- PI <= diff -> Physics.wrapUp fuel diff = diff)
  /\ (diff < - PI -> Physics.wrapUp fuel diff < PI)
  /\ (- PI - INR fuel * (PI * 2) <= diff -> - PI <= Physics.wrapUp fuel diff).
Proof.
  pose proof PI_RGT_0 as Hpi.
  revert diff. induction fuel as [|fuel IH]; intros diff.
  - cbn [Physics.wrapUp]. repeat split; try lra.
    + exists O. cbn. lra.
    + cbn. lra.
  - cbn [Physics.wrapUp]. rewrite S_INR.
    destruct (diff <? - PI) eqn:Hc; cmp_hyps.
    + destruct (IH (diff + PI * 2)) as [[n Hn] [Hid [Hlow Hup]]].
      repeat split.
      * exists (S n). rewrite Hn, S_INR. lra.
      * lra.
      * intros _. destruct (Rle_dec (- PI) (diff + PI * 2)) as [Hle|Hgt].
        -- rewrite (Hid Hle). lra.
        -- apply Hlow. lra.
      * intros H. apply Hup. lra.
    + repeat split; try lra. exists O. cbn. lra.
Qed.

(** The fuel [lerpAngle] supplies covers the full turns of the difference. *)
Lemma turns_enough (diff : R) :
  Rabs diff <= INR (Physics.turns diff) * (PI * 2).
Proof.
  pose proof PI_RGT_0 as Hpi. unfold Physics.turns.
  set (q := Rabs diff / (PI * 2)).
  assert (Hq : 0 <= q).
  { unfold q. apply Rmult_le_pos; [apply Rabs_pos|].
    left. apply Rinv_0_lt_compat. lra. }
  destruct (archimed q) as [Hup _].
  assert (Hz : (0 <= up q)%Z).
  { apply le_IZR. lra. }
  rewrite INR_IZR_INZ, Z2Nat.id by exact Hz.
  replace (Rabs diff) with (q * (PI * 2)) by (unfold q; field; lra).
  apply Rmult_le_compat_r; lra.
Qed.

(** [lerpAngle] moves from [a] along the shortest arc to [b]: the
    difference it scales by [t] is [b - a] up to full turns and lies in
    [- PI, PI]. *)
Lemma lerpAngle_shortest (a b t : R) :
  exists (n : Z) (d : R),
    Physics.lerpAngle a b t = a + d * t
    /\ d = b - a + IZR n * (PI * 2)
    /\ - PI <= d <= PI.
Proof.
  pose proof PI_RGT_0 as Hpi. unfold Physics.lerpAngle.
  set (d0 := b - a).
  set (d1 := Physics.wrapDown (Physics.turns d0) d0).
  set (d2 := Physics.wrapUp (Physics.turns d1) d1).
  destruct (wrapDown_spec (Physics.turns d0) d0)
    as [[n Hn] [_ [_ Hdone1]]].
  destruct (wrapUp_spec (Physics.turns d1) d1)
    as [[m Hm] [Hid2 [Hlow2 Hdone2]]].
  fold d1 in Hn, Hdone1. fold d2 in Hm, Hid2, Hlow2, Hdone2.
  assert (H1 : d1 <= PI).
  { apply Hdone1. pose proof (turns_enough d0) as He.
    pose proof (Rle_abs d0). lra. }
  assert (H2 : - PI <= d2).
  { apply Hdone2. pose proof (turns_enough d1) as He.
    pose proof (Rle_abs (- d1)) as Ha. rewrite Rabs_Ropp in Ha. lra. }
  assert (H3 : d2 <= PI).
  { destruct (Rle_dec (- PI) d1) as [Hge|Hlt].
    - rewrite (Hid2 Hge). exact H1.
    - left. apply Hlow2. lra. }
  exists (Z.of_nat m - Z.of_nat n)%Z, d2.
  split; [reflexivity|]. split; [|split; assumption].
  rewrite minus_IZR, <- !INR_IZR_INZ, Hm, Hn. unfold d0. lra.
Qed.





Lemma sample_bracket :
  ClientState.bracket (ClientState._stateBuffer Sample.client)
    (130 - ClientState._interpDelay Sample.client)
  = Some (Sample.snap0, Sample.snap100).
Proof.
  cbn. decide_cmp. reflexivity.
Qed.


(** The worked example of the design: 30 ms into a 100 ms interval the
    player drawn between x = 0 and x = 10 is at x = 3. *)
Lemma sample_interpolation :
  option_map
    (fun s => option_map (map PlayerData.x) (GameState.players s))
    (ClientState.getInterpolatedState Sample.client 130)
  = Some (Some [3]).
Proof.
  unfold ClientState.getInterpolatedState.
  rewrite sample_bracket.
  cbn [Sample.client ClientState._stateBuffer List.length Nat.ltb Nat.leb].
  cbn [Sample.snap0 Sample.snap100 Snapshot.state GameState.players
       option_map map GameState.set_players].
  unfold ClientState.interpolatePlayer.
  cbn [find Sample.wire0 Sample.wire10 PlayerData.id PlayerData.set_x
       String.eqb Ascii.eqb Bool.eqb PlayerData.x PlayerData.set_y
       PlayerData.set_sa].
  do 3 f_equal.
  unfold Physics.lerp, ClientState.factor. cbn.
  decide_cmp.
  replace ((130 - 100 - 0) / (100 - 0)) with 0.3 by lra.
  rewrite Rmin_right by lra. rewrite Rmax_right by lra. lra.
Qed.

(** * Further properties of the code *)

(** ** Vectors and the [Physics] helpers *)

Lemma length_nonneg (v : Vec2.t) : 0 <= Vec2.length v.
Proof. apply sqrt_pos. Qed.

Lemma length_zero (v : Vec2.t) :
  Vec2.length v = 0 -> Vec2.x v = 0 /\ Vec2.y v = 0.
Proof.
  unfold Vec2.length. intros H.
  apply sqrt_eq_0 in H; [|apply sum_squares_nonneg]. split; nra.
Qed.

Lemma length_scale (v : Vec2.t) (c : R) :
  0 <= c -> Vec2.length (Vec2.scale v c) = Vec2.length v * c.
Proof.
  intros Hc. unfold Vec2.length, Vec2.scale. cbn [Vec2.x Vec2.y].
  replace (Vec2.x v * c * (Vec2.x v * c) + Vec2.y v * c * (Vec2.y v * c))
    with ((Vec2.x v * Vec2.x v + Vec2.y v * Vec2.y v) * (c * c)) by ring.
  rewrite sqrt_mult; [|apply sum_squares_nonneg | nra].
  rewrite (sqrt_square c Hc). reflexivity.
Qed.

(** [normalize] on the zero vector and on any other. *)
Lemma normalize_facts (v : Vec2.t) :
  (Vec2.length v = 0 -> Vec2.normalize v = Vec2.mk 0 0)
  /\ (Vec2.length v = 0 <-> v = Vec2.mk 0 0)
  /\ (Vec2.length v <> 0 ->
      Vec2.length (Vec2.normalize v) = 1
      /\ Vec2.scale (Vec2.normalize v) (Vec2.length v) = v).
Proof.
  split; [|split].
  - intros H. unfold Vec2.normalize. rewrite H. decide_cmp. reflexivity.
  - split.
    + intros H. destruct (length_zero v H) as [Hx Hy].
      destruct v as [x y]. cbn in *. subst. reflexivity.
    + intros ->. unfold Vec2.length. cbn.
      replace (0 * 0 + 0 * 0) with 0 by ring. apply sqrt_0.
  - intros Hn. unfold Vec2.normalize.
    apply eqb_false in Hn as Hb. rewrite Hb. split.
    + unfold Vec2.length at 1. cbn [Vec2.x Vec2.y].
      set (len := Vec2.length v) in *.
      assert (Hlen : len * len
                     = Vec2.x v * Vec2.x v + Vec2.y v * Vec2.y v)
        by (apply sqrt_def, sum_squares_nonneg).
      replace (Vec2.x v / len * (Vec2.x v / len)
               + Vec2.y v / len * (Vec2.y v / len))
        with ((Vec2.x v * Vec2.x v + Vec2.y v * Vec2.y v) / (len * len))
        by (field; exact Hn).
      rewrite <- Hlen.
      replace (len * len / (len * len)) with 1 by (field; exact Hn).
      apply sqrt_1.
    + unfold Vec2.scale. cbn [Vec2.x Vec2.y]. destruct v as [x y].
      cbn [Vec2.x Vec2.y]. f_equal; field; exact Hn.
Qed.

(** X1.  [normalize] returns the zero vector on the zero vector and, on any
    other, the vector of length one along the same direction: scaled back
    by the length it gives the vector again. *)
Theorem normalize_unit (v : Vec2.t) :
  (v = Vec2.mk 0 0 -> Vec2.normalize v = Vec2.mk 0 0)
  /\ (v <> Vec2.mk 0 0 ->
      Vec2.length (Vec2.normalize v) = 1
      /\ Vec2.scale (Vec2.normalize v) (Vec2.length v) = v).
Proof.
  destruct (normalize_facts v) as [Hzero [Hiff Hunit]]. split.
  - intros Hv. apply Hzero, Hiff, Hv.
  - intros Hv. apply Hunit. intros Hlen. apply Hv, Hiff, Hlen.
Qed.

Lemma normalize_unit_witness :
  Vec2.length (Vec2.normalize (Vec2.mk 3 4)) = 1
  /\ Vec2.scale (Vec2.normalize (Vec2.mk 3 4)) (Vec2.length (Vec2.mk 3 4))
     = Vec2.mk 3 4.
Proof.
  destruct (normalize_unit (Vec2.mk 3 4)) as [_ H]. apply H.
  intros Hv. apply (f_equal Vec2.x) in Hv. cbn in Hv. lra.
Defined.

Lemma normalize_length_le (v : Vec2.t) :
  Vec2.length (Vec2.normalize v) <= 1.
Proof.
  destruct (Req_dec_T (Vec2.length v) 0) as [Hz|Hn].
  - destruct (normalize_facts v) as [H _]. rewrite (H Hz).
    unfold Vec2.length. cbn. replace (0 * 0 + 0 * 0) with 0 by ring.
    rewrite sqrt_0. lra.
  - destruct (normalize_facts v) as [_ [_ H]]. destruct (H Hn) as [-> _]. lra.
Qed.

(** X2.  The pull of a planet of non-negative mass never exceeds 3500: it
    is zero closer than half the radius to the centre, and otherwise, away
    from the centre, its magnitude is the smaller of
    [GRAVITY_CONSTANT * mass / distance^2] and 3500. *)
Theorem gravityAccel_capped (pos : Vec2.t) (planet : Planet.t) :
  0 <= Planet.mass planet ->
  let centre := Vec2.mk (Planet.x planet) (Planet.y planet) in
  let d := Vec2.distTo centre pos in
  let a := Physics.gravityAccel pos planet in
  Vec2.length a <= 3500
  /\ (d < Planet.radius planet * 0.5 -> a = Vec2.mk 0 0)
  /\ (Planet.radius planet * 0.5 <= d -> 0 < d ->
      Vec2.length a
      = Rmin (Physics.GRAVITY_CONSTANT * Planet.mass planet / (d * d)) 3500).
Proof.
  intros Hm. cbv zeta.
  unfold Physics.gravityAccel, Vec2.distTo, Vec2.sub, Vec2.lengthSq.
  cbn [Vec2.x Vec2.y].
  set (diff := Vec2.mk (Planet.x planet - Vec2.x pos)
                       (Planet.y planet - Vec2.y pos)).
  change (sqrt ((Planet.x planet - Vec2.x pos) * (Planet.x planet - Vec2.x pos)
                + (Planet.y planet - Vec2.y pos)
                  * (Planet.y planet - Vec2.y pos)))
    with (Vec2.length diff).
  set (sq := (Planet.x planet - Vec2.x pos) * (Planet.x planet - Vec2.x pos)
             + (Planet.y planet - Vec2.y pos) * (Planet.y planet - Vec2.y pos)).
  assert (Hsq : Vec2.length diff * Vec2.length diff = sq)
    by (apply sqrt_def, sum_squares_nonneg).
  assert (Hsq0 : 0 <= sq) by (apply sum_squares_nonneg).
  set (force := Physics.GRAVITY_CONSTANT * Planet.mass planet / sq).
  assert (Hforce : 0 <= force).
  { unfold force, Physics.GRAVITY_CONSTANT.
    destruct (Req_dec_T sq 0) as [->|Hne].
    - unfold Rdiv. rewrite Rinv_0. lra.
    - apply Rmult_le_pos; [nra|]. left. apply Rinv_0_lt_compat. lra. }
  assert (Hmin : 0 <= Rmin force 3500) by (apply Rmin_glb; lra).
  assert (Hcap : Rmin force 3500 <= 3500) by apply Rmin_r.
  destruct (Vec2.length diff <? Planet.radius planet * 0.5) eqn:Hin;
    cmp_hyps.
  - split; [|split].
    + unfold Vec2.length. cbn. replace (0 * 0 + 0 * 0) with 0 by ring.
      rewrite sqrt_0. lra.
    + reflexivity.
    + intros. lra.
  - rewrite length_scale by exact Hmin.
    pose proof (normalize_length_le diff) as Hn.
    pose proof (length_nonneg (Vec2.normalize diff)) as Hn0.
    split; [nra|]. split; [intros; lra|].
    intros _ Hd.
    destruct (normalize_facts diff) as [_ [_ Hu]].
    destruct (Hu ltac:(lra)) as [-> _]. rewrite Hsq. unfold force. lra.
Qed.

Lemma gravityAccel_capped_witness :
  Vec2.length (Physics.gravityAccel (Vec2.mk 200 0) Sample.planet) <= 3500.
Proof.
  assert (Hm : 0 <= Planet.mass Sample.planet) by (cbn; lra).
  destruct (gravityAccel_capped (Vec2.mk 200 0) Sample.planet Hm) as [H _].
  exact H.
Defined.

(** The loop of [nearestPlanet] from a running best. *)
Lemma nearestFrom_min (pos : Vec2.t) (planets : list Planet.t)
    (b : Planet.t) (db : R) :
  exists r dr,
    Physics.nearestFrom pos planets (Some (b, db)) = Some (r, dr)
    /\ dr <= db
    /\ ((r, dr) = (b, db)
        \/ (In r planets /\ dr = Says.altitude pos r /\ dr < db))
    /\ forall q, In q planets -> dr <= Says.altitude pos q.
Proof.
  revert b db. induction planets as [|p rest IH]; intros b db.
  - exists b, db. cbn. repeat split; try lra; [left; reflexivity|].
    intros q [].
  - cbn [Physics.nearestFrom]. fold (Says.altitude pos p).
    destruct (Says.altitude pos p <? db) eqn:Hc; cmp_hyps.
    + destruct (IH p (Says.altitude pos p)) as [r [dr [Heq [Hle [Hwho Hmin]]]]].
      exists r, dr. split; [exact Heq|]. split; [lra|]. split.
      * right. destruct Hwho as [Hsame | [Hin [Hd Hlt]]].
        -- inversion Hsame; subst. split; [left; reflexivity|].
           split; [reflexivity | exact Hc].
        -- split; [right; exact Hin|]. split; [exact Hd | lra].
      * intros q [<-|Hq]; [exact Hle | apply Hmin, Hq].
    + destruct (IH b db) as [r [dr [Heq [Hle [Hwho Hmin]]]]].
      exists r, dr. split; [exact Heq|]. split; [exact Hle|]. split.
      * destruct Hwho as [Hsame | [Hin [Hd Hlt]]]; [left; exact Hsame|].
        right. split; [right; exact Hin|]. split; assumption.
      * intros q [<-|Hq]; [lra | apply Hmin, Hq].
Qed.

(** X3.  [nearestPlanet] finds nothing only among no planets; otherwise it
    returns a planet of the array with its height above the surface, and no
    planet of the array is lower. *)
Theorem nearestPlanet_lowest (pos : Vec2.t) (planets : list Planet.t) :
  (Physics.nearestPlanet pos planets = None <-> planets = [])
  /\ forall planet d,
       Physics.nearestPlanet pos planets = Some (planet, d) ->
       In planet planets
       /\ d = Says.altitude pos planet
       /\ forall q, In q planets -> d <= Says.altitude pos q.
Proof.
  unfold Physics.nearestPlanet. destruct planets as [|p rest].
  - split; [split; reflexivity|]. intros planet d H. discriminate H.
  - cbn [Physics.nearestFrom]. fold (Says.altitude pos p).
    destruct (nearestFrom_min pos rest p (Says.altitude pos p))
      as [r [dr [Heq [Hle [Hwho Hmin]]]]].
    rewrite Heq. split; [split; intros H; discriminate H|].
    intros planet d H. inversion H; subst planet d.
    split; [|split].
    + destruct Hwho as [Hsame | [Hin _]];
        [inversion Hsame; left; reflexivity | right; exact Hin].
    + destruct Hwho as [Hsame | [_ [Hd _]]];
        [inversion Hsame; reflexivity | exact Hd].
    + intros q [<-|Hq]; [exact Hle | apply Hmin, Hq].
Qed.

(** Where [projectToSurface] puts a point. *)
Lemma projectToSurface_facts (pos : Vec2.t) (planet : Planet.t) :
  0 < Planet.radius planet ->
  Vec2.distTo pos (Vec2.mk (Planet.x planet) (Planet.y planet)) <> 0 ->
  let p := Physics.projectToSurface pos planet in
  Vec2.distTo p (Vec2.mk (Planet.x planet) (Planet.y planet))
  = Planet.radius planet + Physics.SURFACE_OFFSET
  /\ Says.altitude p planet = 2
  /\ Planet.isInside planet (Vec2.x p) (Vec2.y p) = false.
Proof.
  intros Hr Hne. cbv zeta.
  assert (Hd : Vec2.distTo (Physics.projectToSurface pos planet)
                 (Vec2.mk (Planet.x planet) (Planet.y planet))
               = Planet.radius planet + Physics.SURFACE_OFFSET).
  { unfold Physics.projectToSurface, Vec2.distTo in *.
    set (c := Vec2.mk (Planet.x planet) (Planet.y planet)) in *.
    set (dir := Vec2.normalize (Vec2.sub pos c)).
    replace (Vec2.sub (Vec2.add c (Vec2.scale dir
               (Planet.radius planet + Physics.SURFACE_OFFSET))) c)
      with (Vec2.scale dir (Planet.radius planet + Physics.SURFACE_OFFSET)).
    - rewrite length_scale by (unfold Physics.SURFACE_OFFSET; lra).
      destruct (normalize_facts (Vec2.sub pos c)) as [_ [_ Hu]].
      destruct (Hu Hne) as [Hone _]. fold dir in Hone. rewrite Hone. lra.
    - unfold Vec2.sub, Vec2.add, Vec2.scale. cbn [Vec2.x Vec2.y].
      f_equal; ring. }
  split; [exact Hd|]. split.
  - unfold Says.altitude. rewrite Hd. unfold Physics.SURFACE_OFFSET. lra.
  - unfold Planet.isInside. apply ltb_false.
    unfold Vec2.distTo, Vec2.length, Vec2.sub in Hd. cbn [Vec2.x Vec2.y] in Hd.
    rewrite Hd. unfold Physics.SURFACE_OFFSET. lra.
Qed.

(** X4.  [projectToSurface] puts a point that is not the centre of the
    planet at [radius + SURFACE_OFFSET] from the centre: 2 above the
    surface, within the landing threshold and not inside the planet. *)
Theorem projectToSurface_on_surface (pos : Vec2.t) (planet : Planet.t) :
  0 < Planet.radius planet ->
  pos <> Vec2.mk (Planet.x planet) (Planet.y planet) ->
  let p := Physics.projectToSurface pos planet in
  Vec2.distTo p (Vec2.mk (Planet.x planet) (Planet.y planet))
  = Planet.radius planet + Physics.SURFACE_OFFSET
  /\ Says.altitude p planet = 2
  /\ Says.altitude p planet <= GravitySystem.surfaceThreshold
  /\ Planet.isInside planet (Vec2.x p) (Vec2.y p) = false.
Proof.
  intros Hr Hpos.
  assert (Hne : Vec2.distTo pos (Vec2.mk (Planet.x planet) (Planet.y planet))
                <> 0).
  { unfold Vec2.distTo. intros Hlen. apply length_zero in Hlen.
    unfold Vec2.sub in Hlen. cbn [Vec2.x Vec2.y] in Hlen.
    destruct Hlen as [Hx Hy]. apply Hpos. destruct pos as [px py].
    cbn [Vec2.x Vec2.y] in *. f_equal; lra. }
  destruct (projectToSurface_facts pos planet Hr Hne) as [Hd [Halt Hin]].
  cbv zeta. split; [exact Hd|]. split; [exact Halt|].
  split; [|exact Hin].
  rewrite Halt. unfold GravitySystem.surfaceThreshold. lra.
Qed.

Lemma projectToSurface_on_surface_witness :
  Says.altitude (Physics.projectToSurface (Vec2.mk 200 0) Sample.planet)
    Sample.planet = 2.
Proof.
  assert (Hr : 0 < Planet.radius Sample.planet) by (cbn; lra).
  assert (Hne : Vec2.mk 200 0
                <> Vec2.mk (Planet.x Sample.planet) (Planet.y Sample.planet)).
  { intros Hv. apply (f_equal Vec2.x) in Hv. cbn in Hv. lra. }
  destruct (projectToSurface_on_surface (Vec2.mk 200 0) Sample.planet Hr Hne)
    as [_ [H _]].
  exact H.
Defined.

(** X5.  [clampVelocity] returns a velocity of at most [MAX_VELOCITY] as it
    is, and brings a faster one to exactly [MAX_VELOCITY] along the same
    direction; clamping twice is clamping once. *)
Theorem clampVelocity_exact (vel : Vec2.t) :
  (Vec2.length vel <= Physics.MAX_VELOCITY ->
   Physics.clampVelocity vel = vel)
  /\ (Physics.MAX_VELOCITY < Vec2.length vel ->
      Vec2.length (Physics.clampVelocity vel) = Physics.MAX_VELOCITY
      /\ Physics.clampVelocity vel
         = Vec2.scale vel (Physics.MAX_VELOCITY / Vec2.length vel))
  /\ Physics.clampVelocity (Physics.clampVelocity vel)
     = Physics.clampVelocity vel.
Proof.
  assert (Hkeep : forall v, Vec2.length v <= Physics.MAX_VELOCITY ->
                            Physics.clampVelocity v = v).
  { intros v H. unfold Physics.clampVelocity.
    replace (Physics.MAX_VELOCITY <? Vec2.length v) with false
      by (symmetry; apply ltb_false; exact H).
    reflexivity. }
  split; [apply Hkeep|]. split.
  - intros Hfast. unfold Physics.clampVelocity.
    apply ltb_true in Hfast as Hb. rewrite Hb.
    unfold Physics.MAX_VELOCITY in *.
    assert (Hn : Vec2.length vel <> 0) by lra.
    destruct (normalize_facts vel) as [_ [_ Hu]].
    destruct (Hu Hn) as [Hone _]. split.
    + rewrite length_scale by lra. rewrite Hone. lra.
    + unfold Vec2.normalize. apply eqb_false in Hn as Hz. rewrite Hz.
      unfold Vec2.scale. cbn [Vec2.x Vec2.y]. f_equal; field; exact Hn.
  - apply Hkeep, clampVelocity_bound.
Qed.

(** X6.  [lerp] starts at [a], ends at [b] and stays between them for a
    factor in [0, 1]; [lerpAngle] is [lerp] when the two angles are at most
    half a turn apart, starts at [a], and ends on [b] up to full turns. *)
Theorem lerp_endpoints (a b t : R) :
  Physics.lerp a b 0 = a
  /\ Physics.lerp a b 1 = b
  /\ (0 <= t <= 1 -> Rmin a b <= Physics.lerp a b t <= Rmax a b)
  /\ (- PI <= b - a <= PI -> Physics.lerpAngle a b t = Physics.lerp a b t)
  /\ Physics.lerpAngle a b 0 = a
  /\ exists n : Z, Physics.lerpAngle a b 1 = b + IZR n * (PI * 2).
Proof.
  unfold Physics.lerp. split; [ring|]. split; [ring|]. split; [|split; [|split]].
  - intros Ht. unfold Rmin, Rmax. destruct (Rle_dec a b); split; nra.
  - intros [Hlo Hhi]. unfold Physics.lerpAngle.
    destruct (wrapDown_spec (Physics.turns (b - a)) (b - a))
      as [_ [Hid _]].
    rewrite (Hid Hhi).
    destruct (wrapUp_spec (Physics.turns (b - a)) (b - a)) as [_ [Hid' _]].
    rewrite (Hid' Hlo). reflexivity.
  - destruct (lerpAngle_shortest a b 0) as [n [d [H _]]]. rewrite H. ring.
  - destruct (lerpAngle_shortest a b 1) as [n [d [H [Hd _]]]].
    exists n. rewrite H, Hd. ring.
Qed.

(** X7.  On a draw of [0, 1), [rand] falls in [min, max) and [randInt]
    between two integers returns an integer between them, both included. *)
Theorem randInt_between (min max : Z) (lo hi r : R) :
  0 <= r < 1 ->
  (lo < hi -> lo <= Physics.rand lo hi r < hi)
  /\ ((min <= max)%Z ->
      (min <= Physics.randInt (IZR min) (IZR max) r <= max)%Z).
Proof.
  intros Hr. split.
  - intros Hlt. unfold Physics.rand. split; nra.
  - intros Hle. unfold Physics.randInt, Physics.rand, Num.floor.
    apply IZR_le in Hle.
    set (v := IZR min + r * (IZR max + 1 - IZR min)).
    assert (Hv : IZR min <= v < IZR max + 1) by (unfold v; split; nra).
    pose proof (Zfloor_bound v) as [Hf1 Hf2]. split.
    + apply Zfloor_lub. lra.
    + assert (H : (Zfloor v < max + 1)%Z); [|lia].
      apply lt_IZR. rewrite plus_IZR. lra.
Qed.

Lemma randInt_between_witness :
  (1 <= Physics.randInt (IZR 1) (IZR 6) (1 / 2) <= 6)%Z.
Proof.
  assert (Hr : 0 <= 1 / 2 < 1) by lra.
  destruct (randInt_between 1 6 0 1 (1 / 2) Hr) as [_ H].
  apply H. lia.
Defined.

(** ** Planets *)

Lemma drawDetails_length (n : nat) (rnd : Num.Rand) (k : nat) :
  List.length (Planet.drawDetails n rnd k) = n.
Proof.
  revert k. induction n as [|n IH]; intros k;
    cbn [Planet.drawDetails List.length]; [reflexivity|].
  rewrite IH. reflexivity.
Qed.

(** Each detail lies within 0.7 of the centre, in units of the radius, and
    has a size of 0.05 to 0.2. *)
Lemma drawDetails_range (n : nat) (rnd : Num.Rand) (k : nat) :
  Num.unit_draws rnd ->
  Forall (fun d =>
            Vec2.length (Vec2.mk (Planet.Detail.x d) (Planet.Detail.y d))
            < 0.7
            /\ 0.05 <= Planet.Detail.r d < 0.2)
    (Planet.drawDetails n rnd k).
Proof.
  intros Hrnd. revert k. induction n as [|n IH]; intros k;
    cbn [Planet.drawDetails]; constructor; [|apply IH].
  cbn [Planet.Detail.x Planet.Detail.y Planet.Detail.r].
  pose proof (Hrnd (S k)) as H1. pose proof (Hrnd (S (S k))) as H2.
  pose proof (unit_speed (rnd k * PI * 2) (rnd (S k) * 0.7)) as Hu.
  unfold Says.speed in Hu. rewrite Hu, Rabs_right by lra. lra.
Qed.

(** The number of details the constructor draws. *)
Lemma numDetails_range (r : R) :
  0 <= r < 1 -> (3 <= Z.to_nat (Num.floor (r * 5) + 3) <= 7)%nat.
Proof.
  intros Hr. unfold Num.floor.
  pose proof (Zfloor_bound (r * 5)) as [Hf1 Hf2].
  assert (H0 : (0 <= Zfloor (r * 5))%Z) by (apply Zfloor_lub; simpl; lra).
  assert (H5 : (Zfloor (r * 5) < 5)%Z) by (apply lt_IZR; lra).
  lia.
Qed.

(** What [deserialize] returns for the wire form of a planet with a theme
    key. *)
Lemma deserialize_serialize (p : Planet.t) (rnd : Num.Rand) (k : nat) :
  Planet.themeKey p <> ""%string ->
  Planet.deserialize (Planet.serialize p) rnd k
  = (Planet.mkDrawn
       (Planet.mk (Planet.x p) (Planet.y p) (Planet.radius p)
          (Planet.mass p) (Planet.themeKey p) (Planet.radius p * 5))
       (Planet.drawDetails (Z.to_nat (Num.floor (rnd k * 5) + 3)) rnd
          (S k)),
     (S k + 3 * Z.to_nat (Num.floor (rnd k * 5) + 3))%nat).
Proof.
  intros Hkey. unfold Planet.deserialize, Planet.serialize,
    Planet.construct.
  cbn [PlanetData.x PlanetData.y PlanetData.radius PlanetData.themeKey
       PlanetData.mass].
  apply String.eqb_neq in Hkey. rewrite Hkey. reflexivity.
Qed.

(** X8 (Planet.serialize, Planet.deserialize, Planet constructor).  What
    survives the wire and what does not.  For a planet whose gravity range
    is the constructor's five radii and whose theme key is not empty,
    [deserialize] after [serialize] returns the position, radius, mass,
    theme key and gravity range of the planet.  The surface details are not
    on the wire: [deserialize] draws them anew, 3 to 7 of them from one draw
    for their number and three draws each, every one within 0.7 radius of
    the centre with a size of 0.05 to 0.2; they are the details of the draws
    at the cursor, whatever the planet serialized had. *)
Theorem planet_wire_cycle (p : Planet.t) (rnd : Num.Rand) (k : nat) :
  Planet.gravityRange p = Planet.radius p * 5 ->
  Planet.themeKey p <> ""%string ->
  Num.unit_draws rnd ->
  let result := Planet.deserialize (Planet.serialize p) rnd k in
  let drawn := Planet.details (fst result) in
  Planet.fields (fst result) = p
  /\ drawn = Planet.drawDetails (List.length drawn) rnd (S k)
  /\ List.length drawn = Z.to_nat (Num.floor (rnd k * 5) + 3)
  /\ (3 <= List.length drawn <= 7)%nat
  /\ Forall (fun d =>
               Vec2.length
                 (Vec2.mk (Planet.Detail.x d) (Planet.Detail.y d)) < 0.7
               /\ 0.05 <= Planet.Detail.r d < 0.2)
       drawn
  /\ snd result = (k + 1 + 3 * List.length drawn)%nat.
Proof.
  intros Hrange Hkey Hrnd. cbv zeta.
  rewrite (deserialize_serialize p rnd k Hkey).
  cbn [fst snd Planet.fields Planet.details].
  rewrite drawDetails_length.
  split; [rewrite <- Hrange; destruct p; reflexivity|].
  split; [reflexivity|]. split; [reflexivity|].
  split; [apply numDetails_range, Hrnd|].
  split; [apply drawDetails_range, Hrnd | lia].
Qed.

Lemma planet_wire_cycle_witness :
  Planet.fields
    (fst (Planet.deserialize (Planet.serialize Sample.planet) Sample.zeros
            O))
  = Sample.planet.
Proof.
  apply (planet_wire_cycle Sample.planet Sample.zeros O).
  - reflexivity.
  - discriminate.
  - intros n. unfold Sample.zeros. lra.
Defined.

(** The details do not survive the wire: the same wire form read under two
    sequences of draws gives details of different sizes. *)
Lemma details_redrawn (p : Planet.t) :
  Planet.themeKey p <> ""%string ->
  Planet.details
    (fst (Planet.deserialize (Planet.serialize p) (fun _ => 0) O))
  <> Planet.details
       (fst (Planet.deserialize (Planet.serialize p) (fun _ => 1 / 2) O)).
Proof.
  intros Hkey. rewrite !(deserialize_serialize p _ O Hkey).
  cbn [fst Planet.details].
  destruct (numDetails_range 0 ltac:(lra)) as [H0 _].
  destruct (numDetails_range (1 / 2) ltac:(lra)) as [H1 _].
  destruct (Z.to_nat (Num.floor (0 * 5) + 3)) as [|n0]; [lia|].
  destruct (Z.to_nat (Num.floor (1 / 2 * 5) + 3)) as [|n1]; [lia|].
  cbn [Planet.drawDetails]. intros Heq. injection Heq as _ _ Hr _. lra.
Qed.

(** The distance from the centre to the point [getSurfacePoint] returns. *)
Lemma getSurfacePoint_distance (planet : Planet.t) (angle : R) :
  0 < Planet.radius planet ->
  let p := Planet.getSurfacePoint planet angle in
  sqrt ((Vec2.x p - Planet.x planet) * (Vec2.x p - Planet.x planet)
        + (Vec2.y p - Planet.y planet) * (Vec2.y p - Planet.y planet))
  = Planet.radius planet + 2.
Proof.
  intros Hr. cbv zeta. unfold Planet.getSurfacePoint. cbn [Vec2.x Vec2.y].
  set (s := Planet.radius planet + 2).
  replace ((Planet.x planet + cos angle * s - Planet.x planet)
           * (Planet.x planet + cos angle * s - Planet.x planet)
           + (Planet.y planet + sin angle * s - Planet.y planet)
             * (Planet.y planet + sin angle * s - Planet.y planet))
    with (cos angle * s * (cos angle * s) + sin angle * s * (sin angle * s))
    by ring.
  pose proof (unit_speed angle s) as Hu.
  unfold Says.speed, Vec2.length in Hu. cbn [Vec2.x Vec2.y] in Hu.
  rewrite Hu. apply Rabs_pos_eq. unfold s. lra.
Qed.

(** X9.  The point [getSurfacePoint] returns is at [radius + 2] from the
    centre of the planet at any angle: it passes [isOnSurface] at the
    default threshold and is not inside the planet. *)
Theorem getSurfacePoint_on_surface (planet : Planet.t) (angle : R) :
  0 < Planet.radius planet ->
  let p := Planet.getSurfacePoint planet angle in
  Vec2.distTo p (Vec2.mk (Planet.x planet) (Planet.y planet))
  = Planet.radius planet + 2
  /\ Planet.isOnSurface planet (Vec2.x p) (Vec2.y p) 5 = true
  /\ Planet.isInside planet (Vec2.x p) (Vec2.y p) = false.
Proof.
  intros Hr. cbv zeta.
  pose proof (getSurfacePoint_distance planet angle Hr) as Hd.
  cbv zeta in Hd. split; [|split].
  - unfold Vec2.distTo, Vec2.length, Vec2.sub. cbn [Vec2.x Vec2.y].
    exact Hd.
  - unfold Planet.isOnSurface. rewrite Hd. apply ltb_true.
    replace (Planet.radius planet + 2 - Planet.radius planet) with 2 by ring.
    rewrite Rabs_pos_eq; lra.
  - unfold Planet.isInside. rewrite Hd. apply ltb_false. lra.
Qed.

Lemma getSurfacePoint_on_surface_witness :
  Vec2.distTo (Planet.getSurfacePoint Sample.planet 0)
    (Vec2.mk (Planet.x Sample.planet) (Planet.y Sample.planet))
  = Planet.radius Sample.planet + 2.
Proof.
  assert (Hr : 0 < Planet.radius Sample.planet) by (cbn; lra).
  destruct (getSurfacePoint_on_surface Sample.planet 0 Hr) as [H _].
  exact H.
Defined.

(** ** Damage, timers and cooldowns *)

(** Case analysis on the tests of the goal one at a time, with the
    projections pushed through the record updates in between. *)
Ltac step_tests :=
  repeat (cbn;
          match goal with
          | |- context [if ?c then _ else _] =>
              lazymatch c with
              | context [if _ then _ else _] => fail
              | _ => destruct c eqn:?
              end
          end);
  cbn.

(** X10.  [takeDamage] on an alive, vulnerable player: it reports a death
    exactly when the damage brings the health to zero or below, and then the
    player is dead at health 0 with one more death and its respawn timer
    armed; otherwise the health drops by the amount.  Under a non-negative
    amount the health never rises and never goes below zero. *)
Theorem takeDamage_outcome (p : Player.t) (amount : R) :
  Player.alive p = true ->
  Player.invulnerable p <= 0 ->
  let p' := fst (Player.takeDamage p amount) in
  let died := snd (Player.takeDamage p amount) in
  (Player.health p - amount <= 0 ->
   died = true /\ Player.alive p' = false /\ Player.health p' = 0
   /\ Player.deaths p' = (Player.deaths p + 1)%Z
   /\ Player.respawnTimer p' = Player.respawnTime p)
  /\ (0 < Player.health p - amount ->
      died = false /\ Player.alive p' = true
      /\ Player.health p' = Player.health p - amount
      /\ Player.deaths p' = Player.deaths p)
  /\ Player.damageFlash p' = 0.5
  /\ (0 <= amount -> 0 <= Player.health p ->
      0 <= Player.health p' <= Player.health p).
Proof.
  intros Halive Hvul. cbv zeta. unfold Player.takeDamage.
  rewrite Halive. apply ltb_false in Hvul. rewrite Hvul. cbn [negb orb].
  cbn [Player.health Player.set_health Player.set_damageFlash].
  destruct (Player.health p - amount <=? 0) eqn:Hc; cmp_hyps; cbn;
    repeat split; intros; try lra; try reflexivity; try assumption.
Qed.

Lemma takeDamage_outcome_witness :
  snd (Player.takeDamage Sample.host 100) = true
  /\ Player.alive (fst (Player.takeDamage Sample.host 100)) = false
  /\ Player.health (fst (Player.takeDamage Sample.host 100)) = 0
  /\ Player.deaths (fst (Player.takeDamage Sample.host 100))
     = (Player.deaths Sample.host + 1)%Z
  /\ Player.respawnTimer (fst (Player.takeDamage Sample.host 100))
     = Player.respawnTime Sample.host.
Proof.
  assert (Hv : Player.invulnerable Sample.host <= 0) by (cbn; lra).
  destruct (takeDamage_outcome Sample.host 100 eq_refl Hv) as [H _].
  apply H. cbn. lra.
Defined.

Arguments Player.takeDamage : simpl never.













(** ** Projectiles in flight *)

Lemma projectileGravity_keeps (proj : Projectile.t) (planets : list Planet.t)
    (dt : R) :
  let proj' := Game.projectileGravity proj planets dt in
  Projectile.age proj' = Projectile.age proj
  /\ Projectile.lifetime proj' = Projectile.lifetime proj
  /\ Projectile.active proj' = Projectile.active proj.
Proof.
  cbv zeta. revert proj. induction planets as [|planet rest IH]; intros proj.
  - cbn. repeat split.
  - cbn [Game.projectileGravity].
    match goal with
    | |- context [Game.projectileGravity ?p rest dt] =>
        destruct (IH p) as [-> [-> ->]]
    end.
    destruct (_ <? _); cbn; repeat split.
Qed.

(** One tick of an active projectile: it ages by [dt] and is switched off
    when the age has reached the lifetime. *)
Lemma tickProjectile_step (planets : list Planet.t) (dt : R)
    (proj : Projectile.t) :
  (Projectile.active proj = false ->
   Game.tickProjectile planets dt proj = proj)
  /\ (Projectile.active proj = true ->
      let proj' := Game.tickProjectile planets dt proj in
      Projectile.age proj' = Projectile.age proj + dt
      /\ Projectile.lifetime proj' = Projectile.lifetime proj
      /\ Projectile.active proj'
         = negb (Projectile.lifetime proj <=? Projectile.age proj + dt)).
Proof.
  unfold Game.tickProjectile. split; intros Hact; rewrite Hact; cbn [negb];
    [reflexivity|].
  cbv zeta. destruct (projectileGravity_keeps proj planets dt)
    as [Ha [Hl Hc]]. cbv zeta in Ha, Hl, Hc.
  unfold Projectile.update.
  cbn [Projectile.age Projectile.lifetime Projectile.set_x Projectile.set_y
       Projectile.set_age].
  rewrite Ha, Hl.
  destruct (Projectile.lifetime proj <=? Projectile.age proj + dt);
    cbn; rewrite ?Hc, ?Hact; repeat split; assumption.
Qed.

(** X13 (Projectile.update through the projectile loop of the host tick).
    A projectile that is off is never touched again.  A tick of an active
    projectile leaves its lifetime alone, adds the step to its age, and
    switches it off exactly when the new age has reached the lifetime;
    gravity changes neither.  So through the ticks, with a step of 0 or
    more, the age never goes down, a projectile that is active has been
    active at every tick before and, after a tick at least, is younger than
    its lifetime. *)
Theorem projectile_expires (planets : list Planet.t) (dt : R)
    (proj : Projectile.t) (n : nat) :
  0 <= dt ->
  let later := Nat.iter n (Game.tickProjectile planets dt) proj in
  let next := Nat.iter (S n) (Game.tickProjectile planets dt) proj in
  (Projectile.active later = false ->
   forall m, Nat.iter (n + m) (Game.tickProjectile planets dt) proj = later)
  /\ Projectile.lifetime later = Projectile.lifetime proj
  /\ Projectile.age proj <= Projectile.age later
  /\ (Projectile.active later = true ->
      (forall m, (m <= n)%nat ->
         Projectile.active
           (Nat.iter m (Game.tickProjectile planets dt) proj) = true)
      /\ ((1 <= n)%nat ->
          Projectile.age later < Projectile.lifetime later)
      /\ Projectile.age next = Projectile.age later + dt
      /\ (Projectile.active next = false
          <-> Projectile.lifetime later <= Projectile.age later + dt)).
Proof.
  intros Hdt. cbv zeta.
  assert (Hoff : forall q m, Projectile.active q = false ->
                   Nat.iter m (Game.tickProjectile planets dt) q = q).
  { intros q m Hq. induction m as [|m IH]; [reflexivity|].
    rewrite Nat.iter_succ, IH.
    apply (proj1 (tickProjectile_step planets dt q) Hq). }
  assert (Hinv : forall m,
    let q := Nat.iter m (Game.tickProjectile planets dt) proj in
    Projectile.lifetime q = Projectile.lifetime proj
    /\ Projectile.age proj <= Projectile.age q
    /\ (Projectile.active q = true ->
        (forall i, (i <= m)%nat ->
           Projectile.active
             (Nat.iter i (Game.tickProjectile planets dt) proj) = true)
        /\ ((1 <= m)%nat -> Projectile.age q < Projectile.lifetime q))).
  { induction m as [|m IH]; cbv zeta.
    - cbn [Nat.iter nat_rect]. split; [reflexivity|]. split; [lra|].
      intros Hact. split; [|lia].
      intros i Hi. replace i with O by lia. exact Hact.
    - rewrite Nat.iter_succ. cbv zeta in IH.
      set (q := Nat.iter m (Game.tickProjectile planets dt) proj) in *.
      destruct IH as [Hlife [Hage Hhist]].
      destruct (Projectile.active q) eqn:Hq.
      + destruct (proj2 (tickProjectile_step planets dt q) Hq)
          as [Hage' [Hlife' Hact']].
        rewrite Hage', Hlife'.
        split; [exact Hlife|]. split; [lra|].
        intros Hact. rewrite Hact' in Hact.
        apply negb_true_iff, leb_false in Hact.
        split; [|intros _; exact Hact].
        intros i Hi. destruct (Nat.eq_dec i (S m)) as [->|Hne].
        * rewrite Nat.iter_succ. fold q. rewrite Hact'.
          apply negb_true_iff, leb_false. exact Hact.
        * apply (proj1 (Hhist eq_refl)). lia.
      + rewrite (proj1 (tickProjectile_step planets dt q) Hq).
        split; [exact Hlife|]. split; [exact Hage|].
        intros Hact. congruence. }
  destruct (Hinv n) as [Hlife [Hage Hhist]]. cbv zeta in Hlife, Hage, Hhist.
  split.
  - intros Hact m. rewrite Nat.add_comm, Nat.iter_add. apply Hoff, Hact.
  - split; [exact Hlife|]. split; [exact Hage|].
    intros Hact. destruct (Hhist Hact) as [Hbefore Hyoung].
    split; [exact Hbefore|]. split; [exact Hyoung|].
    rewrite Nat.iter_succ.
    destruct (proj2 (tickProjectile_step planets dt _) Hact)
      as [Hage' [_ Hact']].
    split; [exact Hage'|]. rewrite Hact'. split.
    + intros H. apply negb_false_iff in H. apply leb_true. exact H.
    + intros H. apply negb_false_iff. apply leb_true. exact H.
Qed.

Lemma projectile_expires_witness :
  Projectile.age (Nat.iter 1 (Game.tickProjectile [] Sample.dt) Sample.bullet)
  = Projectile.age Sample.bullet + Sample.dt.
Proof.
  assert (Hdt : 0 <= Sample.dt) by (unfold Sample.dt; lra).
  destruct (projectile_expires [] Sample.dt Sample.bullet O Hdt)
    as [_ [_ [_ H]]].
  apply H. reflexivity.
Defined.

(** ** Standing on a planet *)

Arguments Planet.getSurfacePoint : simpl never.
Arguments Physics.projectToSurface : simpl never.
Arguments Physics.surfaceAngle : simpl never.

(** [takeDamage] writes nothing of the body of the player. *)
Lemma takeDamage_keeps_body (p : Player.t) (amount : R) :
  let p' := fst (Player.takeDamage p amount) in
  Player.x p' = Player.x p /\ Player.y p' = Player.y p
  /\ Player.vx p' = Player.vx p /\ Player.vy p' = Player.vy p
  /\ Player.moveX p' = Player.moveX p
  /\ Player.surfaceAngle p' = Player.surfaceAngle p
  /\ Player.isGrounded p' = Player.isGrounded p.
Proof.
  cbv zeta. unfold Player.takeDamage.
  repeat split; step_tests; reflexivity.
Qed.

(** The friction of the grounded branch: 0.98 on ice, else 0.85. *)
Lemma grounded_shape (player : Player.t) (nearest : Planet.t) (dt : R)
    (rnd : Num.Rand) (k : nat) :
  let player' := fst (GravitySystem.grounded player nearest dt rnd k) in
  let friction :=
    if String.eqb (Planet.themeKey nearest) "ice" then 0.98 else 0.85 in
  let pos := Vec2.mk (Player.x player) (Player.y player) in
  Player.isGrounded player' = Player.isGrounded player
  /\ Player.vx player' = Player.vx player * friction
  /\ Player.vy player' = Player.vy player * friction
  /\ (if 0.1 <? Rabs (Player.moveX player)
      then exists angle,
             Player.x player' = Vec2.x (Planet.getSurfacePoint nearest angle)
             /\ Player.y player'
                = Vec2.y (Planet.getSurfacePoint nearest angle)
      else Player.x player' = Vec2.x (Physics.projectToSurface pos nearest)
           /\ Player.y player'
              = Vec2.y (Physics.projectToSurface pos nearest)).
Proof.
  cbv zeta. unfold GravitySystem.grounded, GravitySystem.surfaceFriction.
  set (P := Player.set_surfaceAngle _ _).
  assert (HP : Player.moveX P = Player.moveX player
               /\ Player.vx P = Player.vx player
               /\ Player.vy P = Player.vy player
               /\ Player.isGrounded P = Player.isGrounded player
               /\ Player.x P
                  = Vec2.x (Physics.projectToSurface
                              (Vec2.mk (Player.x player) (Player.y player))
                              nearest)
               /\ Player.y P
                  = Vec2.y (Physics.projectToSurface
                              (Vec2.mk (Player.x player) (Player.y player))
                              nearest))
    by (unfold P; cbn; repeat split).
  destruct HP as [Hm [Hvx [Hvy [Hg [Hx Hy]]]]].
  destruct (takeDamage_keeps_body P 1) as [Tx [Ty [Tvx [Tvy [Tm [_ Tg]]]]]].
  cbv zeta in Tx, Ty, Tvx, Tvy, Tm, Tg.
  destruct (String.eqb (Planet.themeKey nearest) "ice");
    [|destruct (String.eqb (Planet.themeKey nearest) "desert");
      [|destruct (String.eqb (Planet.themeKey nearest) "lava");
        [destruct (rnd k <? dt * 5)
        |destruct (String.eqb (Planet.themeKey nearest) "forest");
          [destruct (Player.health P <? Player.maxHealth P);
            [destruct (rnd k <? dt * 5)|]|]]]];
    cbn [fst snd Player.moveX Player.set_health];
    rewrite ?Tm, ?Hm;
    (destruct (0.1 <? Rabs (Player.moveX player));
     [ destruct (0 <? Player.moveX _) | ];
     cbn [fst Player.isGrounded Player.vx Player.vy Player.x Player.y
          Player.set_vx Player.set_vy Player.set_x Player.set_y
          Player.set_facingLeft Player.set_surfaceAngle Player.set_health];
     rewrite ?Tvx, ?Tvy, ?Tg, ?Tx, ?Ty, ?Hvx, ?Hvy, ?Hg, ?Hx, ?Hy;
     repeat split; try reflexivity; try (eexists; split; reflexivity)).
Qed.

(** Where the grounded branch leaves the player: two units above the
    surface, unless the player stands still at the very centre. *)
Lemma grounded_altitude (player : Player.t) (nearest : Planet.t) (dt : R)
    (rnd : Num.Rand) (k : nat) :
  0 < Planet.radius nearest ->
  Vec2.mk (Player.x player) (Player.y player)
    <> Vec2.mk (Planet.x nearest) (Planet.y nearest)
  \/ 0.1 < Rabs (Player.moveX player) ->
  let player' := fst (GravitySystem.grounded player nearest dt rnd k) in
  Says.altitude (Vec2.mk (Player.x player') (Player.y player')) nearest = 2.
Proof.
  intros Hr Hpos. cbv zeta.
  destruct (grounded_shape player nearest dt rnd k) as [_ [_ [_ Hxy]]].
  cbv zeta in Hxy.
  destruct (0.1 <? Rabs (Player.moveX player)) eqn:Hmove.
  - destruct Hxy as [angle [Hx Hy]].
    unfold Says.altitude, Vec2.distTo, Vec2.length, Vec2.sub.
    cbn [Vec2.x Vec2.y]. rewrite Hx, Hy.
    pose proof (getSurfacePoint_distance nearest angle Hr) as Hd.
    cbv zeta in Hd. rewrite Hd. lra.
  - destruct Hxy as [Hx Hy].
    destruct Hpos as [Hpos | Hm];
      [| apply ltb_false in Hmove; lra].
    assert (Hne : Vec2.distTo (Vec2.mk (Player.x player) (Player.y player))
                    (Vec2.mk (Planet.x nearest) (Planet.y nearest)) <> 0).
    { intros H0. apply Hpos. unfold Vec2.distTo in H0.
      destruct (normalize_facts
                  (Vec2.sub (Vec2.mk (Player.x player) (Player.y player))
                     (Vec2.mk (Planet.x nearest) (Planet.y nearest))))
        as [_ [Hiff _]].
      apply Hiff in H0. unfold Vec2.sub in H0. cbn [Vec2.x Vec2.y] in H0.
      injection H0 as H1 H2. f_equal; lra. }
    destruct (projectToSurface_facts _ nearest Hr Hne) as [_ [Halt _]].
    rewrite Hx, Hy.
    destruct (Physics.projectToSurface _ nearest) as [sx sy] eqn:Hs.
    cbn [Vec2.x Vec2.y]. exact Halt.
Qed.

(** X14 (GravitySystem._handlePlayerGravity, grounded branch): a step of a
    grounded player keeps the player grounded, puts the player exactly two
    units above the surface of the nearest planet (whatever the position
    before, unless the player stands still at the very centre), and scales
    the velocity by the friction of the biome, 0.98 on ice and 0.85
    elsewhere, so that the speed never grows. *)
Theorem grounded_step (player : Player.t) (nearest : Planet.t)
    (dist : R) (accel : Vec2.t) (dt : R) (rnd : Num.Rand) (k : nat) :
  0 < Planet.radius nearest ->
  Player.isGrounded player = true ->
  Vec2.mk (Player.x player) (Player.y player)
    <> Vec2.mk (Planet.x nearest) (Planet.y nearest)
  \/ 0.1 < Rabs (Player.moveX player) ->
  let player' :=
    fst (GravitySystem._handlePlayerGravity player (Some (nearest, dist))
           accel dt rnd k) in
  let friction :=
    if String.eqb (Planet.themeKey nearest) "ice" then 0.98 else 0.85 in
  Player.isGrounded player' = true
  /\ Says.altitude (Vec2.mk (Player.x player') (Player.y player')) nearest
     = 2
  /\ Player.vx player' = Player.vx player * friction
  /\ Player.vy player' = Player.vy player * friction
  /\ Says.speed (Player.vx player') (Player.vy player')
     <= Says.speed (Player.vx player) (Player.vy player).
Proof.
  intros Hr Hg Hpos. cbv zeta.
  unfold GravitySystem._handlePlayerGravity, GravitySystem.lands.
  rewrite Hg. cbn [negb andb]. rewrite Bool.andb_false_r. cbn [andb].
  rewrite Hg.
  destruct (grounded_shape player nearest dt rnd k) as [Hg' [Hvx [Hvy _]]].
  cbv zeta in Hg', Hvx, Hvy.
  split; [rewrite Hg'; exact Hg|].
  split; [apply grounded_altitude; assumption|].
  split; [exact Hvx|]. split; [exact Hvy|].
  rewrite Hvx, Hvy.
  set (f := if String.eqb (Planet.themeKey nearest) "ice" then 0.98 else 0.85).
  assert (Hf : 0 <= f <= 1) by (unfold f; destruct (String.eqb _ _); lra).
  unfold Says.speed.
  replace (Vec2.mk (Player.vx player * f) (Player.vy player * f))
    with (Vec2.scale (Vec2.mk (Player.vx player) (Player.vy player)) f)
    by reflexivity.
  rewrite length_scale by lra.
  pose proof (length_nonneg (Vec2.mk (Player.vx player) (Player.vy player))).
  nra.
Qed.

Lemma grounded_step_witness :
  Player.isGrounded
    (fst (GravitySystem._handlePlayerGravity Sample.grounded
            (Some (Sample.planet, 2)) (Vec2.mk 0 0) Sample.dt Sample.zeros O))
  = true.
Proof.
  apply (grounded_step Sample.grounded Sample.planet 2 (Vec2.mk 0 0)
           Sample.dt Sample.zeros O).
  - cbn. lra.
  - reflexivity.
  - left. cbn.
    unfold Planet.getSurfacePoint. cbn. rewrite cos_0, sin_0.
    intros H. injection H as H1 H2. lra.
Defined.

(** ** Landing *)

(** The grounded branch never writes [groundedPlanetIndex]. *)
Lemma grounded_keeps_index (player : Player.t) (nearest : Planet.t) (dt : R)
    (rnd : Num.Rand) (k : nat) :
  Player.groundedPlanetIndex
    (fst (GravitySystem.grounded player nearest dt rnd k))
  = Player.groundedPlanetIndex player.
Proof.
  unfold GravitySystem.grounded.
  set (P := Player.set_surfaceAngle _ _).
  assert (HP : Player.groundedPlanetIndex P
               = Player.groundedPlanetIndex player) by reflexivity.
  assert (HT : Player.groundedPlanetIndex (fst (Player.takeDamage P 1))
               = Player.groundedPlanetIndex P).
  { unfold Player.takeDamage. step_tests; reflexivity. }
  destruct (String.eqb (Planet.themeKey nearest) "ice");
    [|destruct (String.eqb (Planet.themeKey nearest) "desert");
      [|destruct (String.eqb (Planet.themeKey nearest) "lava");
        [destruct (rnd k <? dt * 5)
        |destruct (String.eqb (Planet.themeKey nearest) "forest");
          [destruct (Player.health P <? Player.maxHealth P);
            [destruct (rnd k <? dt * 5)|]|]]]];
    cbn [fst snd];
    (destruct (0.1 <? Rabs (Player.moveX _));
     [ destruct (0 <? Player.moveX _) | ];
     cbn [fst Player.groundedPlanetIndex
          Player.set_vx Player.set_vy Player.set_x Player.set_y
          Player.set_facingLeft Player.set_surfaceAngle Player.set_health];
     rewrite ?HT, ?HP; reflexivity).
Qed.

(** X15 (GravitySystem._handlePlayerGravity, landing): an airborne player
    lands in a step exactly under the grace test of the code.  With
    [jumpGraceTimer <= 0] and the nearest surface within the threshold of 8
    the step grounds the player two units above the surface, with
    [groundedPlanetIndex] reset to -1 and the velocity scaled by 0.3 and
    then by the friction of the biome; while the test fails (timer still
    positive, or never set) the step leaves the player airborne, however
    close or deep inside the planet the player is. *)
Theorem landing_step (player : Player.t) (nearest : Planet.t)
    (dist : R) (accel : Vec2.t) (dt : R) (rnd : Num.Rand) (k : nat) :
  0 < Planet.radius nearest ->
  Player.isGrounded player = false ->
  Vec2.mk (Player.x player) (Player.y player)
    <> Vec2.mk (Planet.x nearest) (Planet.y nearest)
  \/ 0.1 < Rabs (Player.moveX player) ->
  let player' :=
    fst (GravitySystem._handlePlayerGravity player (Some (nearest, dist))
           accel dt rnd k) in
  let friction :=
    if String.eqb (Planet.themeKey nearest) "ice" then 0.98 else 0.85 in
  (forall g, Player.jumpGraceTimer player = Some g -> g <= 0 ->
     dist <= GravitySystem.surfaceThreshold ->
     Player.isGrounded player' = true
     /\ Player.groundedPlanetIndex player' = (-1)%Z
     /\ Says.altitude (Vec2.mk (Player.x player') (Player.y player')) nearest
        = 2
     /\ Player.vx player' = Player.vx player * 0.3 * friction
     /\ Player.vy player' = Player.vy player * 0.3 * friction)
  /\ (GravitySystem.canLand player = false ->
      Player.isGrounded player' = false).
Proof.
  intros Hr Hg Hpos. cbv zeta. split.
  - intros g Hgrace Hg0 Hdist.
    unfold GravitySystem._handlePlayerGravity, GravitySystem.lands,
      GravitySystem.canLand.
    rewrite Hg, Hgrace. cbn [negb].
    rewrite (proj2 (leb_true _ _) Hdist), (proj2 (leb_true _ _) Hg0).
    cbn [andb].
    set (P := Player.set_vy _ _).
    assert (HP : Player.isGrounded P = true
                 /\ Player.groundedPlanetIndex P = (-1)%Z
                 /\ Player.x P = Player.x player
                 /\ Player.y P = Player.y player
                 /\ Player.moveX P = Player.moveX player
                 /\ Player.vx P = Player.vx player * 0.3
                 /\ Player.vy P = Player.vy player * 0.3)
      by (unfold P; cbn; repeat split).
    destruct HP as [Pg [Pi [Px [Py [Pm [Pvx Pvy]]]]]].
    rewrite Pg.
    destruct (grounded_shape P nearest dt rnd k) as [Hg' [Hvx [Hvy _]]].
    cbv zeta in Hg', Hvx, Hvy.
    split; [rewrite Hg'; exact Pg|].
    split; [rewrite grounded_keeps_index; exact Pi|].
    split; [apply grounded_altitude; [exact Hr | rewrite Px, Py, Pm; exact Hpos]|].
    rewrite Hvx, Hvy, Pvx, Pvy. split; reflexivity.
  - intros Hland.
    unfold GravitySystem._handlePlayerGravity, GravitySystem.lands.
    rewrite Hland, Bool.andb_false_r, Hg.
    cbn [fst]. unfold GravitySystem.airborne. cbn [andb].
    step_tests; exact Hg.
Qed.

Lemma landing_step_witness :
  Player.isGrounded
    (fst (GravitySystem._handlePlayerGravity
            (Player.set_jumpGraceTimer
               (Player.set_isGrounded Sample.grounded false) (Some 0))
            (Some (Sample.planet, 2)) (Vec2.mk 0 0) Sample.dt Sample.zeros O))
  = true.
Proof.
  apply (landing_step
           (Player.set_jumpGraceTimer
              (Player.set_isGrounded Sample.grounded false) (Some 0))
           Sample.planet 2 (Vec2.mk 0 0) Sample.dt Sample.zeros O)
    with (g := 0).
  - cbn. lra.
  - reflexivity.
  - left. cbn.
    unfold Planet.getSurfacePoint. cbn. rewrite cos_0, sin_0.
    intros H. injection H as H1 H2. lra.
  - reflexivity.
  - lra.
  - unfold GravitySystem.surfaceThreshold. lra.
Defined.

(** ** The single-pellet weapons *)




(** ** Meteorites as they are spawned *)

Lemma shapeDraws_length (rnd : Num.Rand) (points k : nat) :
  List.length (Meteorite.shapeDraws rnd k points) = points.
Proof.
  revert k. induction points as [|points IH]; intros k; cbn [Meteorite.shapeDraws List.length].
  - reflexivity.
  - rewrite IH. reflexivity.
Qed.

Lemma shapeDraws_range (rnd : Num.Rand) (points k : nat) :
  Num.unit_draws rnd ->
  Forall (fun f => 0.7 <= f < 1.2) (Meteorite.shapeDraws rnd k points).
Proof.
  intros Hrnd. revert k.
  induction points as [|points IH]; intros k; cbn [Meteorite.shapeDraws].
  - constructor.
  - constructor; [pose proof (Hrnd k); lra | apply IH].
Qed.

(** The outline of a new meteorite has 8 to 11 points. *)
Lemma meteorite_points (r : R) :
  0 <= r < 1 ->
  (8 <= 8 + Z.to_nat (Num.floor (r * 4)) <= 11)%nat.
Proof.
  intros Hr. unfold Num.floor.
  pose proof (Zfloor_bound (r * 4)) as [Hf1 Hf2].
  assert (H0 : (0 <= Zfloor (r * 4))%Z) by (apply Zfloor_lub; simpl; lra).
  assert (H4 : (Zfloor (r * 4) < 4)%Z) by (apply lt_IZR; lra).
  lia.
Qed.

(** X17 (HazardSystem._spawnMeteorite, Meteorite constructor): below the
    cap, on draws of [0, 1), the spawner appends one meteorite and leaves
    the others alone.  The new meteorite starts on the circle of radius
    [mapRadius + 100] around the origin and moves inward (its velocity has
    a negative component along its position) at a speed of 100 to 250, with
    a radius of 10 to 25; it is active, aged 0, lives 10 seconds, deals 50,
    and its outline has 8 to 11 factors of 0.7 to 1.2.  The spawn consumes
    seven draws and one more per outline point. *)
Theorem spawned_meteorite (h : HazardSystem.t) (ms : list Meteorite.t)
    (rnd : Num.Rand) (k : nat) :
  (List.length ms <= 15)%nat ->
  Num.unit_draws rnd ->
  0 <= HazardSystem.mapRadius h ->
  exists m,
    HazardSystem._spawnMeteorite h ms rnd k
    = (ms ++ [m], (k + 7 + List.length (Meteorite.shape m))%nat)
    /\ Vec2.length (Vec2.mk (Meteorite.x m) (Meteorite.y m))
       = HazardSystem.mapRadius h + 100
    /\ Meteorite.x m * Meteorite.vx m + Meteorite.y m * Meteorite.vy m < 0
    /\ 100 <= Says.speed (Meteorite.vx m) (Meteorite.vy m) < 250
    /\ 10 <= Meteorite.radius m < 25
    /\ (8 <= List.length (Meteorite.shape m) <= 11)%nat
    /\ Forall (fun f => 0.7 <= f < 1.2) (Meteorite.shape m)
    /\ Meteorite.active m = true
    /\ Meteorite.age m = 0
    /\ Meteorite.lifetime m = 10
    /\ Meteorite.damage m = 50.
Proof.
  intros Hlen Hrnd Hmap.
  unfold HazardSystem._spawnMeteorite.
  replace (15 <? List.length ms)%nat with false
    by (symmetry; apply Nat.ltb_ge; lia).
  unfold Meteorite.new. eexists. split.
  - f_equal. cbn [Meteorite.shape]. rewrite shapeDraws_length. lia.
  - cbn [Meteorite.x Meteorite.y Meteorite.vx Meteorite.vy Meteorite.radius
         Meteorite.shape Meteorite.active Meteorite.age Meteorite.lifetime
         Meteorite.damage].
    pose proof (Hrnd k) as H0. pose proof (Hrnd (1 + k)%nat) as H1.
    pose proof (Hrnd (2 + k)%nat) as H2. pose proof (Hrnd (3 + k)%nat) as H3.
    set (angle := rnd k * PI * 2).
    set (delta := (rnd (1 + k)%nat - 0.5) * 0.8).
    set (speed := 100 + rnd (2 + k)%nat * 150).
    set (dist := HazardSystem.mapRadius h + 100).
    assert (Hspeed : 100 <= speed < 250) by (unfold speed; lra).
    assert (Hdist : 0 < dist) by (unfold dist; lra).
    split.
    { pose proof (unit_speed angle dist) as Hu. unfold Says.speed in Hu.
      rewrite Hu. apply Rabs_right. lra. }
    split.
    { replace (cos angle * dist * (cos (angle + PI + delta) * speed)
               + sin angle * dist * (sin (angle + PI + delta) * speed))
        with (dist * speed
              * (cos (angle + PI + delta) * cos angle
                 + sin (angle + PI + delta) * sin angle)) by ring.
      rewrite <- cos_minus.
      replace (angle + PI + delta - angle) with (delta + PI) by ring.
      rewrite neg_cos.
      assert (Hc : 0 < cos delta).
      { pose proof PI2_3_2. apply cos_gt_0; unfold delta; lra. }
      assert (0 < dist * speed) by nra. nra. }
    split.
    { rewrite unit_speed, Rabs_right by lra. exact Hspeed. }
    split; [lra|].
    split; [rewrite shapeDraws_length; apply meteorite_points;
            exact (Hrnd (2 + (4 + k))%nat)|].
    split; [apply shapeDraws_range; exact Hrnd|].
    repeat split; reflexivity.
Qed.

Lemma spawned_meteorite_witness :
  exists m,
    HazardSystem._spawnMeteorite HazardSystem.new [] Sample.zeros O
    = ([] ++ [m], (0 + 7 + List.length (Meteorite.shape m))%nat)
    /\ Meteorite.active m = true.
Proof.
  destruct (spawned_meteorite HazardSystem.new [] Sample.zeros O)
    as [m [Hm [_ [_ [_ [_ [_ [_ [Ha _]]]]]]]]].
  - cbn. lia.
  - intros n. unfold Sample.zeros. lra.
  - cbn. lra.
  - exists m. split; [exact Hm | exact Ha].
Defined.

(** ** The event and the credit of a hit *)

Lemma findIndex_updateAt {A : Type} (f : A -> bool) (g : A -> A)
    (l : list A) (j : nat) :
  (forall a, nth_error l j = Some a -> f (g a) = f a) ->
  Arr.findIndex f (Arr.updateAt j g l) = Arr.findIndex f l.
Proof.
  revert j. induction l as [|b l IH]; intros [|j] H; cbn; try reflexivity.
  - rewrite (H b eq_refl). reflexivity.
  - rewrite IH by (intros a Ha; apply H; exact Ha). reflexivity.
Qed.

(** A player that passes the guards of the projectile loop is damaged by
    [takeDamage], and dies of it exactly when the damage covers its
    health. *)
Lemma takeDamage_of_target (proj : Projectile.t) (victim : Player.t) :
  CollisionSystem.projectileHits proj victim = true ->
  snd (Player.takeDamage victim (Projectile.damage proj))
  = (Player.health victim - Projectile.damage proj <=? 0)
  /\ String.eqb (Player.id victim) (Projectile.ownerId proj) = false.
Proof.
  unfold CollisionSystem.projectileHits. intros Hhit.
  apply andb_true_iff in Hhit. destruct Hhit as [Hhit _].
  apply andb_true_iff in Hhit. destruct Hhit as [Hhit Hinv].
  apply andb_true_iff in Hhit. destruct Hhit as [Halive Hown].
  apply negb_true_iff in Hinv. apply negb_true_iff in Hown.
  split; [|exact Hown].
  unfold Player.takeDamage. rewrite Halive, Hinv. cbn.
  destruct (Player.health victim - Projectile.damage proj <=? 0);
    reflexivity.
Qed.

(** X18 (CollisionSystem.update, projectile against players): what a hit
    reports and credits.  When a projectile reaches its first target, the
    one event pushed is a kill, naming the owner of the projectile and the
    victim, if the damage covers the health of the victim, and a hit with
    the damage otherwise.  The player that carries the owner's id, if there
    is one in the array, is credited one shot hit and the damage dealt, and
    one kill if the hit was lethal, and is not damaged; if there is none,
    the kill carries no killer name and only the victim changes. *)
Theorem projectile_hit_event (proj : Projectile.t) (players : list Player.t)
    (j : nat) (victim : Player.t) :
  Arr.findIndex (CollisionSystem.projectileHits proj) players = Some j ->
  nth_error players j = Some victim ->
  let result := CollisionSystem.hitPlayer proj players in
  let players' := snd (fst result) in
  let lethal := Player.health victim - Projectile.damage proj <=? 0 in
  let owner :=
    Arr.findIndex
      (fun p => String.eqb (Player.id p) (Projectile.ownerId proj))
      players in
  snd result
  = [if lethal
     then Event.Kill (Projectile.ownerId proj) (Player.id victim)
            match owner with
            | Some a => option_map Player.name (nth_error players a)
            | None => None
            end
            (Player.name victim)
     else Event.Hit (Player.id victim) (Projectile.damage proj)]
  /\ (forall a attacker,
        owner = Some a ->
        nth_error players a = Some attacker ->
        a <> j
        /\ exists attacker',
             nth_error players' a = Some attacker'
             /\ Player.shotsHit attacker'
                = (Player.shotsHit attacker + 1)%Z
             /\ Player.damageDealt attacker'
                = Player.damageDealt attacker + Projectile.damage proj
             /\ Player.kills attacker'
                = (Player.kills attacker + if lethal then 1 else 0)%Z
             /\ Says.undamaged attacker attacker')
  /\ (owner = None ->
      players'
      = Arr.updateAt j
          (fun _ => fst (Player.takeDamage victim (Projectile.damage proj)))
          players).
Proof.
  intros Hfind Hnth. cbv zeta.
  destruct (findIndex_some _ _ _ Hfind) as [victim0 [Hnth0 Hhit]].
  rewrite Hnth in Hnth0. inversion Hnth0; subst victim0. clear Hnth0.
  destruct (takeDamage_of_target proj victim Hhit) as [Hdied Hown].
  unfold CollisionSystem.hitPlayer. rewrite Hfind, Hnth.
  pose proof (takeDamage_id victim (Projectile.damage proj)) as Hid.
  assert (Hname : Player.name (fst (Player.takeDamage victim
                                      (Projectile.damage proj)))
                  = Player.name victim)
    by (unfold Player.takeDamage; step_tests; reflexivity).
  destruct (Player.takeDamage victim (Projectile.damage proj))
    as [victim' died] eqn:Htd.
  cbn [fst snd] in Hid, Hname, Hdied. subst died.
  set (isOwner :=
         fun p : Player.t =>
           String.eqb (Player.id p) (Projectile.ownerId proj)).
  set (players1 := Arr.updateAt j (fun _ => victim') players).
  assert (Hsame : Arr.findIndex isOwner players1
                  = Arr.findIndex isOwner players).
  { unfold players1. apply findIndex_updateAt. intros a Ha.
    rewrite Hnth in Ha. inversion Ha; subst a.
    unfold isOwner. rewrite Hid. reflexivity. }
  rewrite Hsame.
  assert (Hother : forall i, i <> j ->
                     nth_error players1 i = nth_error players i).
  { intros i Hi. unfold players1. apply updateAt_other. congruence. }
  destruct (Arr.findIndex isOwner players) as [a|] eqn:Ha.
  - destruct (findIndex_some _ _ _ Ha) as [att [Hatt Hatt_own]].
    assert (Haj : a <> j).
    { intros ->. rewrite Hnth in Hatt. inversion Hatt; subst att.
      unfold isOwner in Hatt_own. congruence. }
    rewrite (Hother a Haj).
    destruct (Player.health victim - Projectile.damage proj <=? 0);
      cbn [fst snd]; rewrite ?Hid, ?Hname;
      (split; [reflexivity|]);
      (split; [|discriminate]);
      intros a0 attacker Ha0 Hattacker; inversion Ha0; subst a0;
      (split; [exact Haj|]);
      rewrite Hatt in Hattacker; inversion Hattacker; subst attacker;
      (eexists; split;
       [ apply updateAt_same; rewrite (Hother a Haj); exact Hatt |]);
      cbn; unfold Says.undamaged; cbn; repeat split; lia.
  - destruct (Player.health victim - Projectile.damage proj <=? 0);
      cbn [fst snd]; rewrite ?Hid, ?Hname;
      (split; [reflexivity|]);
      (split; [discriminate|]); intros _; reflexivity.
Qed.

Lemma projectile_hit_event_witness :
  snd (CollisionSystem.hitPlayer Sample.bullet
         [Sample.host; Sample.second; Sample.third])
  = [Event.Hit "peer-2" 20].
Proof.
  assert (Hfind : Arr.findIndex
                    (CollisionSystem.projectileHits Sample.bullet)
                    [Sample.host; Sample.second; Sample.third]
                  = Some 1%nat).
  { unfold CollisionSystem.projectileHits, Physics.circleCollision.
    cbn. decide_cmp. reflexivity. }
  destruct (projectile_hit_event Sample.bullet
              [Sample.host; Sample.second; Sample.third] 1 Sample.second
              Hfind eq_refl) as [Hev _].
  rewrite Hev. cbn.
  replace (100 - 20 <=? 0) with false
    by (symmetry; apply leb_false; lra).
  reflexivity.
Defined.

(** ** What a collision pass keeps *)

Lemma updateAt_ids (i : nat) (f : Player.t -> Player.t)
    (players : list Player.t) :
  (forall p, Player.id (f p) = Player.id p) ->
  map Player.id (Arr.updateAt i f players) = map Player.id players.
Proof.
  intros Hf. revert i.
  induction players as [|p players IH]; intros [|i]; cbn; try reflexivity.
  - rewrite Hf. reflexivity.
  - rewrite IH. reflexivity.
Qed.

Lemma updateAt_const_ids (i : nat) (victim victim' : Player.t)
    (players : list Player.t) :
  nth_error players i = Some victim ->
  Player.id victim' = Player.id victim ->
  map Player.id (Arr.updateAt i (fun _ => victim') players)
  = map Player.id players.
Proof.
  revert i. induction players as [|p players IH]; intros [|i] Hnth Hid;
    cbn in *; try discriminate.
  - inversion Hnth; subst. rewrite Hid. reflexivity.
  - rewrite (IH i Hnth Hid). reflexivity.
Qed.

(** The loop body over one projectile: the roster is kept, and the
    projectile is returned as it was or switched off. *)
Lemma hitPlayer_keeps (proj : Projectile.t) (players : list Player.t) :
  map Player.id (snd (fst (CollisionSystem.hitPlayer proj players)))
  = map Player.id players
  /\ (fst (fst (CollisionSystem.hitPlayer proj players)) = proj
      \/ fst (fst (CollisionSystem.hitPlayer proj players))
         = Projectile.set_active proj false).
Proof.
  unfold CollisionSystem.hitPlayer.
  destruct (Arr.findIndex (CollisionSystem.projectileHits proj) players)
    as [j|] eqn:Hfind; [|split; [reflexivity | left; reflexivity]].
  destruct (nth_error players j) as [victim|] eqn:Hnth;
    [|split; [reflexivity | left; reflexivity]].
  pose proof (takeDamage_id victim (Projectile.damage proj)) as Hid.
  destruct (Player.takeDamage victim (Projectile.damage proj))
    as [victim' died].
  cbn [fst] in Hid.
  pose proof (updateAt_const_ids j victim victim' players Hnth Hid) as Hids.
  destruct (Arr.findIndex _ (Arr.updateAt j (fun _ => victim') players));
    destruct died; cbn [fst snd];
    (split; [|right; reflexivity]);
    rewrite ?updateAt_ids by (intros p; reflexivity); exact Hids.
Qed.

Lemma projectilesVsPlayers_keeps (projectiles : list Projectile.t)
    (players : list Player.t) :
  map Player.id
    (snd (fst (CollisionSystem.projectilesVsPlayers projectiles players)))
  = map Player.id players
  /\ Forall2 (fun proj proj' =>
                proj' = proj \/ proj' = Projectile.set_active proj false)
       projectiles
       (fst (fst (CollisionSystem.projectilesVsPlayers projectiles players))).
Proof.
  induction projectiles as [|proj rest IH];
    cbn [CollisionSystem.projectilesVsPlayers].
  - split; [reflexivity | constructor].
  - destruct (CollisionSystem.projectilesVsPlayers rest players)
      as [[rest' players'] events].
    cbn [fst snd] in IH. destruct IH as [IHids IHrest].
    destruct (negb (Projectile.active proj)); cbn [fst snd].
    + split; [exact IHids|]. constructor; [left; reflexivity | exact IHrest].
    + destruct (hitPlayer_keeps proj players') as [Hids Hproj].
      destruct (CollisionSystem.hitPlayer proj players')
        as [[proj' players''] ev].
      cbn [fst snd] in *. split; [congruence|].
      constructor; [exact Hproj | exact IHrest].
Qed.

Lemma meteoritesVsPlayers_ids (meteorites : list Meteorite.t)
    (players : list Player.t) :
  map Player.id
    (fst (CollisionSystem.meteoritesVsPlayers meteorites players))
  = map Player.id players.
Proof.
  revert players. induction meteorites as [|met rest IH]; intros players;
    cbn [CollisionSystem.meteoritesVsPlayers]; [reflexivity|].
  destruct (negb (Meteorite.active met)); [apply IH|].
  rewrite meteoriteVsPlayers_map.
  specialize (IH (map (fun p =>
                         if CollisionSystem.meteoriteHits met p
                         then fst (Player.takeDamage p (Meteorite.damage met))
                         else p) players)).
  destruct (CollisionSystem.meteoritesVsPlayers rest _) as [players' events].
  cbn [fst] in *. rewrite IH, map_map. apply map_ext. intros p.
  destruct (CollisionSystem.meteoriteHits met p);
    [apply takeDamage_id | reflexivity].
Qed.

(** X19 (CollisionSystem.update): what a collision pass keeps.  The array
    of players comes back with the same players in the same order, whoever
    was hit; no projectile is created or altered, each projectile left in
    the array is one of those passed in, still active and inside no planet;
    and each meteorite left is one of those passed in, still active. *)
Theorem collision_pass_keeps (players : list Player.t)
    (projectiles : list Projectile.t) (meteorites : list Meteorite.t)
    (planets : list Planet.t) :
  let result :=
    CollisionSystem.update players projectiles meteorites planets in
  let players' := fst (fst (fst result)) in
  let projectiles' := snd (fst (fst result)) in
  let meteorites' := snd (fst result) in
  map Player.id players' = map Player.id players
  /\ List.length players' = List.length players
  /\ Forall (fun proj =>
               In proj projectiles
               /\ Projectile.active proj = true
               /\ forall planet,
                    In planet planets ->
                    Planet.isInside planet (Projectile.x proj)
                      (Projectile.y proj) = false)
       projectiles'
  /\ (List.length projectiles' <= List.length projectiles)%nat
  /\ Forall (fun met => In met meteorites /\ Meteorite.active met = true)
       meteorites'.
Proof.
  cbv zeta. unfold CollisionSystem.update.
  destruct (projectilesVsPlayers_keeps projectiles players) as [Hids1 Hprojs].
  destruct (CollisionSystem.projectilesVsPlayers projectiles players)
    as [[projectiles1 players1] events1].
  cbn [fst snd] in Hids1, Hprojs.
  pose proof (meteoritesVsPlayers_ids meteorites players1) as Hids3.
  destruct (CollisionSystem.meteoritesVsPlayers meteorites players1)
    as [players3 events3].
  cbn [fst] in Hids3.
  destruct (meteoritesVsPlanets_spec meteorites planets) as [Hmets _].
  destruct (CollisionSystem.meteoritesVsPlanets meteorites planets)
    as [meteorites4 events4].
  cbn [fst snd] in *.
  assert (Hids : map Player.id players3 = map Player.id players)
    by congruence.
  split; [exact Hids|].
  split; [rewrite <- (length_map Player.id players3), Hids;
          apply length_map|].
  split; [|split].
  - clear Hids1 Hids3 Hids Hmets.
    induction Hprojs as [|proj proj1 rest rest1 Hone Hrest IH];
      cbn [map filter]; [constructor|].
    assert (Hin : Forall
                    (fun q =>
                       In q (proj :: rest)
                       /\ Projectile.active q = true
                       /\ forall planet,
                            In planet planets ->
                            Planet.isInside planet (Projectile.x q)
                              (Projectile.y q) = false)
                    (filter Projectile.active
                       (map (CollisionSystem.projectileVsPlanets planets)
                          rest1))).
    { eapply Forall_impl; [|exact IH].
      intros q [Hq Hrest']. split; [right; exact Hq | exact Hrest']. }
    assert (Hq : Projectile.active
                   (CollisionSystem.projectileVsPlanets planets proj1) = true ->
                 CollisionSystem.projectileVsPlanets planets proj1 = proj1
                 /\ Projectile.active proj1 = true
                 /\ existsb
                      (fun planet =>
                         Planet.isInside planet (Projectile.x proj1)
                           (Projectile.y proj1)) planets = false).
    { unfold CollisionSystem.projectileVsPlanets.
      destruct (Projectile.active proj1) eqn:Hact; cbn [negb];
        [|rewrite Hact; discriminate].
      destruct (existsb _ planets); cbn; [discriminate|].
      intros _. repeat split. }
    destruct (Projectile.active
                (CollisionSystem.projectileVsPlanets planets proj1))
      eqn:Hact; [|exact Hin].
    destruct (Hq eq_refl) as [Heq [Hact1 Hex]]. rewrite Heq.
    constructor; [|exact Hin].
    destruct Hone as [-> | ->]; [|discriminate Hact1].
    split; [left; reflexivity|]. split; [exact Hact1|].
    intros planet Hplanet.
    destruct (Planet.isInside planet (Projectile.x proj)
                (Projectile.y proj)) eqn:Hins; [|reflexivity].
    assert (Htrue : existsb
                      (fun planet =>
                         Planet.isInside planet (Projectile.x proj)
                           (Projectile.y proj)) planets = true)
      by (apply existsb_exists; exists planet; split; assumption).
    congruence.
  - etransitivity; [apply filter_length_le|].
    rewrite length_map, <- (Forall2_length Hprojs). lia.
  - rewrite Hmets. apply Forall_forall. intros met Hmet.
    apply filter_In in Hmet. destruct Hmet as [Hin Htest].
    apply andb_true_iff in Htest. destruct Htest as [Hact _].
    split; assumption.
Qed.

(** ** The void and the respawn *)

(** In a map of at least two planets a player of index 0 or more respawns
    on a planet of the map other than the first. *)
Lemma spawnPlanet_found (planets : list Planet.t) (index : Z) :
  (2 <= List.length planets)%nat ->
  (0 <= index)%Z ->
  exists planet i,
    Game.spawnPlanet planets index = Some planet
    /\ nth_error planets i = Some planet
    /\ (1 <= i < List.length planets)%nat
    /\ Z.of_nat i
       = (1 + index mod (Z.of_nat (List.length planets) - 1))%Z.
Proof.
  intros Hlen Hindex. unfold Game.spawnPlanet.
  set (n := (Z.of_nat (List.length planets) - 1)%Z).
  assert (Hn : (1 <= n)%Z) by (unfold n; lia).
  replace (n =? 0)%Z with false by (symmetry; apply Z.eqb_neq; lia).
  rewrite Z.rem_mod_nonneg by lia.
  pose proof (Z.mod_pos_bound index n ltac:(lia)) as Hmod.
  replace (1 + index mod n <? 0)%Z with false
    by (symmetry; apply Z.ltb_ge; lia).
  destruct (nth_error planets (Z.to_nat (1 + index mod n))) as [planet|]
    eqn:Hnth.
  - exists planet, (Z.to_nat (1 + index mod n)).
    split; [reflexivity|]. split; [exact Hnth|]. split; lia.
  - apply nth_error_None in Hnth. lia.
Qed.

(** X20 (Game._updateHost, void check and respawn): the respawn loop, for
    one player.  An alive player is left alone inside the void boundary of
    2000 units from the origin, and also beyond it while invulnerable;
    beyond it and vulnerable, a player of health up to 9999 dies (health 0,
    one death more, the respawn timer armed) and is not respawned in the
    same pass.  A dead player waits while its respawn timer is positive;
    once it has run out, in a map of at least two planets a player of index
    0 or more respawns, alive and at full health, on the planet at position
    [1 + index mod (planets - 1)], never the first one; in a map of one
    planet or none the respawn throws. *)
Theorem respawn_step_cases (player : Player.t) (planets : list Planet.t)
    (rnd : Num.Rand) (k : nat) :
  let dist :=
    sqrt (Player.x player * Player.x player
          + Player.y player * Player.y player) in
  (Player.alive player = true ->
   dist <= Game.voidBoundary \/ 0 < Player.invulnerable player ->
   Game.respawnStep player planets rnd k = Some (player, k))
  /\ (Player.alive player = true ->
      Game.voidBoundary < dist ->
      Player.invulnerable player <= 0 ->
      Player.health player <= 9999 ->
      0 < Player.respawnTime player ->
      exists player',
        Game.respawnStep player planets rnd k = Some (player', k)
        /\ Player.alive player' = false
        /\ Player.health player' = 0
        /\ Player.deaths player' = (Player.deaths player + 1)%Z
        /\ Player.respawnTimer player' = Player.respawnTime player)
  /\ (Player.alive player = false ->
      0 < Player.respawnTimer player ->
      Game.respawnStep player planets rnd k = Some (player, k))
  /\ (Player.alive player = false ->
      Player.respawnTimer player <= 0 ->
      (2 <= List.length planets)%nat ->
      (0 <= Player.index player)%Z ->
      exists planet i player',
        Game.respawnStep player planets rnd k = Some (player', S k)
        /\ player' = Player.spawn player planet (rnd k * PI * 2)
        /\ nth_error planets i = Some planet
        /\ (1 <= i < List.length planets)%nat
        /\ Z.of_nat i
           = (1 + Player.index player
                  mod (Z.of_nat (List.length planets) - 1))%Z
        /\ Player.alive player' = true
        /\ Player.health player' = Player.maxHealth player)
  /\ (Player.alive player = false ->
      Player.respawnTimer player <= 0 ->
      (List.length planets <= 1)%nat ->
      Game.respawnStep player planets rnd k = None).
Proof.
  cbv zeta. unfold Game.respawnStep.
  split; [|split; [|split; [|split]]].
  - intros Halive Hsafe. rewrite Halive.
    destruct (Game.voidBoundary <? _) eqn:Hvoid.
    + destruct Hsafe as [Hin | Hinv]; [apply ltb_true in Hvoid; lra|].
      unfold Player.takeDamage.
      rewrite (proj2 (ltb_true _ _) Hinv), Bool.orb_true_r.
      cbn [fst]. rewrite Halive. reflexivity.
    + rewrite Halive. reflexivity.
  - intros Halive Hvoid Hinv Hhealth Htime. rewrite Halive.
    rewrite (proj2 (ltb_true _ _) Hvoid).
    unfold Player.takeDamage. rewrite Halive.
    replace (0 <? Player.invulnerable player) with false
      by (symmetry; apply ltb_false; lra).
    cbn.
    replace (Player.health player - 9999 <=? 0) with true
      by (symmetry; apply leb_true; lra).
    cbn.
    replace (Player.respawnTime player <=? 0) with false
      by (symmetry; apply leb_false; lra).
    eexists. split; [reflexivity|]. cbn. repeat split.
  - intros Hdead Htimer. rewrite Hdead. cbv beta iota zeta. rewrite Hdead.
    replace (Player.respawnTimer player <=? 0) with false
      by (symmetry; apply leb_false; lra).
    reflexivity.
  - intros Hdead Htimer Hlen Hindex.
    rewrite Hdead. cbv beta iota zeta. rewrite Hdead.
    rewrite (proj2 (leb_true _ _) Htimer). cbn [negb andb].
    destruct (spawnPlanet_found planets (Player.index player) Hlen Hindex)
      as [planet [i [Hspawn [Hnth [Hi Hmod]]]]].
    rewrite Hspawn. exists planet, i. eexists.
    split; [reflexivity|]. repeat split; try assumption; lia.
  - intros Hdead Htimer Hlen.
    rewrite Hdead. cbv beta iota zeta. rewrite Hdead.
    rewrite (proj2 (leb_true _ _) Htimer). cbn [negb andb].
    unfold Game.spawnPlanet.
    destruct planets as [|planet [|planet' rest]]; cbn in Hlen; [| |lia].
    + destruct (_ =? 0)%Z; [reflexivity|].
      destruct (_ <? 0)%Z; [reflexivity|].
      destruct (Z.to_nat _); reflexivity.
    + reflexivity.
Qed.

Lemma respawn_step_cases_witness :
  Game.respawnStep Sample.host [Sample.planet] Sample.zeros O
  = Some (Sample.host, O).
Proof.
  destruct (respawn_step_cases Sample.host [Sample.planet] Sample.zeros O)
    as [H _].
  apply H; [reflexivity|]. left. cbn. unfold Game.voidBoundary.
  replace (0 * 0 + 0 * 0) with 0 by ring. rewrite sqrt_0. lra.
Defined.

(** ** Pickups *)

(** A pickup that does not throw moves no player, kills none and renames
    none; it never takes health away and never raises it above the maximum.
    A pickup without a type throws once the weapon is assigned. *)
Lemma handlePickupEffect_cases (player : Player.t) (pickup : Pickup.t) :
  (Says.typeless pickup = false ->
   exists player',
     Game._handlePickupEffect player pickup = Game.Returned player'
     /\ Player.id player' = Player.id player
     /\ Player.alive player' = Player.alive player
     /\ Player.maxHealth player' = Player.maxHealth player
     /\ (forall other, Game.reaches player' other = Game.reaches player other)
     /\ (Player.health player <= Player.maxHealth player ->
         Player.health player <= Player.health player'
         <= Player.maxHealth player))
  /\ (Says.typeless pickup = true ->
      Game._handlePickupEffect player pickup
      = Game.Threw
          (Player.set_currentWeapon player (Some (Pickup.typeKey pickup)))).
Proof.
  unfold Says.typeless, Game._handlePickupEffect.
  destruct (String.eqb (Pickup.typeKey pickup) "HEALTH"); cbn [negb andb].
  - split; [|discriminate]. intros _. eexists. split; [reflexivity|].
    cbn. repeat split; try reflexivity.
    + unfold Rmin. destruct (Rle_dec _ _); lra.
    + apply Rmin_l.
  - destruct (Pickup.type pickup) as [entry|].
    + split; [|discriminate]. intros _. eexists. split; [reflexivity|].
      cbn. repeat split; try reflexivity; lra.
    + split; [discriminate | reflexivity].
Qed.

Lemma existsb_same {A : Type} (f g : A -> bool) (l : list A) :
  (forall a, f a = g a) -> existsb f l = existsb g l.
Proof.
  intros H. induction l as [|a l IH]; cbn; [reflexivity|].
  rewrite H, IH. reflexivity.
Qed.

(** The inner loop for one player: it returns unless the player reaches an
    active pickup that throws. *)
Lemma collectPickups_spec (pickups : list Pickup.t) (player : Player.t) :
  (existsb (fun pickup =>
              Pickup.active pickup && Game.reaches player pickup
              && Says.typeless pickup) pickups = false ->
   exists player',
     Game.collectPickups player pickups
     = Game.Returned (player', map (Says.collected player) pickups)
     /\ Player.id player' = Player.id player
     /\ Player.alive player' = Player.alive player
     /\ Player.maxHealth player' = Player.maxHealth player
     /\ (forall other, Game.reaches player' other = Game.reaches player other)
     /\ (Player.health player <= Player.maxHealth player ->
         Player.health player <= Player.health player'
         <= Player.maxHealth player))
  /\ (existsb (fun pickup =>
                 Pickup.active pickup && Game.reaches player pickup
                 && Says.typeless pickup) pickups = true ->
      exists state, Game.collectPickups player pickups = Game.Threw state).
Proof.
  revert player.
  induction pickups as [|pickup rest IH]; intros player;
    cbn [Game.collectPickups map existsb].
  - split; [|discriminate]. intros _. exists player.
    split; [reflexivity|]. repeat split; try reflexivity; lra.
  - unfold Says.collected at 1.
    destruct (Pickup.active pickup) eqn:Hact; cbn [negb andb orb].
    + destruct (Game.reaches player pickup) eqn:Hreach; cbn [negb andb orb].
      * assert (Hsame : Says.typeless (Pickup.set_active pickup false)
                        = Says.typeless pickup) by reflexivity.
        destruct (handlePickupEffect_cases player
                    (Pickup.set_active pickup false)) as [Hok Hthrow].
        rewrite Hsame in Hok, Hthrow.
        destruct (Says.typeless pickup); cbn [orb].
        -- split; [discriminate|]. intros _.
           rewrite (Hthrow eq_refl). eexists. reflexivity.
        -- destruct (Hok eq_refl)
             as [player1 [Heq [Eid [Ealive [Emax [Ereach Ehealth]]]]]].
           rewrite Heq.
           destruct (IH player1) as [IHok IHthrow].
           assert (Hex : existsb
                           (fun pickup0 =>
                              Pickup.active pickup0
                              && Game.reaches player1 pickup0
                              && Says.typeless pickup0) rest
                         = existsb
                             (fun pickup0 =>
                                Pickup.active pickup0
                                && Game.reaches player pickup0
                                && Says.typeless pickup0) rest)
             by (apply existsb_same; intros a; rewrite Ereach; reflexivity).
           rewrite Hex in IHok, IHthrow. split.
           ++ intros Hnone.
              destruct (IHok Hnone)
                as [player' [Hrun [Hid [Halive [Hmax [Hreaches Hhealth]]]]]].
              exists player'. rewrite Hrun. cbn [Game.mapRun].
              split.
              { f_equal. f_equal. f_equal. apply map_ext. intros other.
                unfold Says.collected. rewrite Ereach. reflexivity. }
              split; [congruence|]. split; [congruence|].
              split; [congruence|].
              split; [intros other; rewrite Hreaches; apply Ereach|].
              intros Hle. specialize (Ehealth Hle).
              assert (Hle' : Player.health player1
                             <= Player.maxHealth player1)
                by (rewrite Emax; lra).
              specialize (Hhealth Hle'). rewrite Emax in Hhealth. lra.
           ++ intros Hsome. destruct (IHthrow Hsome) as [state Hrun].
              rewrite Hrun. cbn [Game.mapRun]. eexists. reflexivity.
      * destruct (IH player) as [IHok IHthrow]. split.
        -- intros Hnone.
           destruct (IHok Hnone) as [player' [Hrun Hrest]].
           exists player'. rewrite Hrun. cbn [Game.mapRun].
           split; [reflexivity | exact Hrest].
        -- intros Hsome. destruct (IHthrow Hsome) as [state Hrun].
           rewrite Hrun. cbn [Game.mapRun]. eexists. reflexivity.
    + destruct (IH player) as [IHok IHthrow]. split.
      * intros Hnone.
        destruct (IHok Hnone) as [player' [Hrun Hrest]].
        exists player'. rewrite Hrun. cbn [Game.mapRun].
        split; [reflexivity | exact Hrest].
      * intros Hsome. destruct (IHthrow Hsome) as [state Hrun].
        rewrite Hrun. cbn [Game.mapRun]. eexists. reflexivity.
Qed.

(** The two loops: they return unless an alive player reaches an active
    pickup that throws, and then each pickup an alive player reaches has
    been switched off. *)
Lemma pickupCollisions_spec (players : list Player.t) :
  forall pickups : list Pickup.t,
    ((forall pickup player,
        In pickup pickups -> In player players ->
        Pickup.active pickup = true -> Says.typeless pickup = true ->
        Player.alive player = true ->
        Game.reaches player pickup = false) ->
     exists players',
       Game.pickupCollisions players pickups
       = Game.Returned
           (players',
            map (fun pickup =>
                   if Pickup.active pickup
                      && existsb
                           (fun player =>
                              Player.alive player
                              && Game.reaches player pickup)
                           players
                   then Pickup.set_active pickup false else pickup)
              pickups)
       /\ Forall2 Says.served players players')
    /\ ((exists pickup player,
           In pickup pickups /\ In player players
           /\ Pickup.active pickup = true /\ Says.typeless pickup = true
           /\ Player.alive player = true
           /\ Game.reaches player pickup = true) ->
        exists state, Game.pickupCollisions players pickups
                      = Game.Threw state).
Proof.
  induction players as [|player rest IH]; intros pickups;
    cbn [Game.pickupCollisions].
  - split.
    + intros _. exists []. split; [|constructor].
      f_equal. f_equal. symmetry. etransitivity; [|apply map_id].
      apply map_ext. intros pickup. cbn [existsb].
      rewrite Bool.andb_false_r. reflexivity.
    + intros [pickup [player [_ [[] _]]]].
  - destruct (Player.alive player) eqn:Halive; cbn [negb].
    + destruct (collectPickups_spec pickups player) as [Cok Cthrow].
      destruct (existsb
                  (fun pickup =>
                     Pickup.active pickup && Game.reaches player pickup
                     && Says.typeless pickup) pickups) eqn:Hbad.
      * (* the turn of this player throws *)
        destruct (Cthrow eq_refl) as [[player1 pickups1] Hrun].
        rewrite Hrun. split.
        -- intros Hnone. exfalso.
           apply existsb_exists in Hbad.
           destruct Hbad as [pickup [Hin Htest]].
           apply andb_true_iff in Htest. destruct Htest as [Htest Htl].
           apply andb_true_iff in Htest. destruct Htest as [Hact Hreach].
           rewrite (Hnone pickup player Hin (or_introl eq_refl) Hact Htl
                      Halive) in Hreach.
           discriminate.
        -- intros _. eexists. reflexivity.
      * destruct (Cok eq_refl)
          as [player1 [Hrun [Hid [Hal [_ [_ Hhealth]]]]]].
        rewrite Hrun.
        assert (Hquiet : forall pickup,
                  In pickup pickups -> Pickup.active pickup = true ->
                  Says.typeless pickup = true ->
                  Game.reaches player pickup = false).
        { intros pickup Hin Hact Htl.
          destruct (Game.reaches player pickup) eqn:Hreach; [|reflexivity].
          exfalso.
          assert (Htrue : existsb
                            (fun pickup0 =>
                               Pickup.active pickup0
                               && Game.reaches player pickup0
                               && Says.typeless pickup0) pickups = true).
          { apply existsb_exists. exists pickup. split; [exact Hin|].
            rewrite Hact, Hreach, Htl. reflexivity. }
          congruence. }
        destruct (IH (map (Says.collected player) pickups))
          as [IHok IHthrow].
        split.
        -- intros Hnone.
           destruct IHok as [rest' [Hrest Hserved]].
           { intros pickup1 q Hin1 Hq Hact1 Htl1 Hq_alive.
             apply in_map_iff in Hin1.
             destruct Hin1 as [pickup [Heq Hin]].
             unfold Says.collected in Heq.
             destruct (Pickup.active pickup && Game.reaches player pickup)
               eqn:Hc.
             - subst pickup1. cbn in Hact1. discriminate.
             - subst pickup1.
               apply (Hnone pickup q Hin (or_intror Hq) Hact1 Htl1
                        Hq_alive). }
           exists (player1 :: rest'). rewrite Hrest. cbn [Game.mapRun].
           split.
           ++ f_equal. f_equal. rewrite map_map. apply map_ext.
              intros pickup. unfold Says.collected. cbn [existsb].
              rewrite Halive. cbn [andb].
              destruct (Pickup.active pickup) eqn:Hact; cbn [andb].
              ** destruct (Game.reaches player pickup); cbn [orb];
                   [reflexivity|].
                 rewrite Hact. reflexivity.
              ** rewrite Hact. reflexivity.
           ++ constructor; [|exact Hserved].
              unfold Says.served. split; [exact Hid|]. split; [exact Hal|].
              split; [intros Hdead; congruence | exact Hhealth].
        -- intros [pickup [q [Hin [Hq [Hact [Htl [Hq_alive Hreach]]]]]]].
           destruct Hq as [<-|Hq].
           { rewrite (Hquiet pickup Hin Hact Htl) in Hreach. discriminate. }
           destruct IHthrow as [state Hthrow].
           { exists pickup, q.
             split.
             - apply in_map_iff. exists pickup. split; [|exact Hin].
               unfold Says.collected.
               rewrite (Hquiet pickup Hin Hact Htl), Bool.andb_false_r.
               reflexivity.
             - repeat split; assumption. }
           rewrite Hthrow. cbn [Game.mapRun]. eexists. reflexivity.
    + destruct (IH pickups) as [IHok IHthrow]. split.
      * intros Hnone.
        destruct IHok as [rest' [Hrest Hserved]].
        { intros pickup q Hin Hq.
          apply (Hnone pickup q Hin (or_intror Hq)). }
        exists (player :: rest'). rewrite Hrest. cbn [Game.mapRun].
        split.
        -- f_equal. f_equal. apply map_ext. intros pickup.
           cbn [existsb]. rewrite Halive. reflexivity.
        -- constructor; [|exact Hserved].
           unfold Says.served. repeat split; try reflexivity; lra.
      * intros [pickup [q [Hin [Hq [Hact [Htl [Hq_alive Hreach]]]]]]].
        destruct Hq as [<-|Hq]; [congruence|].
        destruct IHthrow as [state Hthrow].
        { exists pickup, q. repeat split; assumption. }
        rewrite Hthrow. cbn [Game.mapRun]. eexists. reflexivity.
Qed.

(** X21 (Game._updateHost, pickup collisions and cleanup).  The pass throws
    exactly when some alive player reaches an active pickup that is no
    health pack and has no [type], the object [_handlePickupEffect] reads
    the colour from; the clean-up is then skipped.  Otherwise the pass
    returns, and the pickups left are exactly the active ones that no alive
    player reaches, in their order; dead players collect nothing and stay as
    they are; and every player keeps its id and its life, with a health that
    has not gone down nor, if it was within the maximum, above the
    maximum. *)
Theorem pickups_collected (players : list Player.t)
    (pickups : list Pickup.t) :
  ((forall pickup player,
      In pickup pickups -> In player players ->
      Pickup.active pickup = true -> Says.typeless pickup = true ->
      Player.alive player = true ->
      Game.reaches player pickup = false) ->
   exists players',
     Game.updatePickups players pickups
     = Game.Returned
         (players',
          filter (fun pickup =>
                    Pickup.active pickup
                    && negb (existsb
                               (fun player =>
                                  Player.alive player
                                  && Game.reaches player pickup)
                               players))
            pickups)
     /\ List.length players' = List.length players
     /\ forall i player,
          nth_error players i = Some player ->
          exists player',
            nth_error players' i = Some player'
            /\ Says.served player player')
  /\ ((exists pickup player,
         In pickup pickups /\ In player players
         /\ Pickup.active pickup = true /\ Says.typeless pickup = true
         /\ Player.alive player = true
         /\ Game.reaches player pickup = true) ->
      exists state, Game.updatePickups players pickups = Game.Threw state).
Proof.
  unfold Game.updatePickups.
  destruct (pickupCollisions_spec players pickups) as [Hok Hthrow].
  split.
  - intros Hnone. destruct (Hok Hnone) as [players' [Hrun Hserved]].
    exists players'. rewrite Hrun. split.
    + f_equal. f_equal. clear Hrun Hok Hthrow Hnone Hserved.
      induction pickups as [|pickup rest IH]; cbn [map filter];
        [reflexivity|].
      rewrite <- IH.
      destruct (Pickup.active pickup) eqn:Hact; cbn [andb].
      * destruct (existsb _ players);
          cbn [negb Pickup.active Pickup.set_active]; [reflexivity|].
        rewrite Hact. reflexivity.
      * rewrite Hact. reflexivity.
    + split; [symmetry; apply (Forall2_length Hserved)|].
      clear Hrun Hok Hthrow Hnone. intros i player Hnth. revert i Hnth.
      induction Hserved as [|p p' rest rest' Hone Hrest IH];
        intros [|i] Hnth; cbn in Hnth; try discriminate.
      * inversion Hnth; subst. exists p'. split; [reflexivity | exact Hone].
      * apply IH, Hnth.
  - intros Hbad. destruct (Hthrow Hbad) as [state Hrun].
    rewrite Hrun. exists state. reflexivity.
Qed.

Lemma pickups_collected_witness :
  exists players',
    Game.updatePickups [Sample.host]
      [fst (Pickup.new "pickup_1" 0 0 "SNIPER" Sample.zeros O)]
    = Game.Returned (players', []).
Proof.
  assert (Hreach : Game.reaches Sample.host
                     (fst (Pickup.new "pickup_1" 0 0 "SNIPER" Sample.zeros
                             O)) = true).
  { unfold Game.reaches. cbn.
    replace ((0 - 0) * (0 - 0) + (0 - 0) * (0 - 0)) with 0 by ring.
    rewrite sqrt_0. apply ltb_true. lra. }
  destruct (pickups_collected [Sample.host]
              [fst (Pickup.new "pickup_1" 0 0 "SNIPER" Sample.zeros O)])
    as [H _].
  destruct H as [players' [Hrun _]].
  - intros pickup player [<-|[]] _ _ Htypeless. discriminate Htypeless.
  - exists players'. rewrite Hrun. cbn [filter existsb]. rewrite Hreach.
    reflexivity.
Defined.

Lemma pellets_length (player : Player.t) (muzzleX muzzleY baseAngle : R)
    (spreadAngle pelletSpeed : R) (pColor : string)
    (damage radius lifetime : R) (pelletCount todo i : nat)
    (rnd : Num.Rand) (k : nat) :
  List.length
    (WeaponSystem.pellets player muzzleX muzzleY baseAngle spreadAngle
       pelletSpeed pColor damage radius lifetime pelletCount todo i rnd k)
  = todo.
Proof.
  revert i k. induction todo as [|todo IH]; intros i k;
    cbn [WeaponSystem.pellets List.length]; [reflexivity|].
  rewrite IH. reflexivity.
Qed.

(** X22 (Game._handlePickupEffect with the Pickup constructor,
    WeaponSystem.fire and Player.spawn).  A health pickup adds 40 to the
    health up to the maximum and leaves the weapon.  Any other pickup makes
    its key the weapon of the player; the call then returns if the pickup
    has a [type] and throws if it has none, the weapon assigned either way.
    The constructor finds a [type] for the four keys of [PICKUP_TYPES], so
    a pickup it built under [SNIPER], [MACHINE_GUN] or [SHOTGUN] never
    throws.  After a call that returned under a key that is not empty, the
    health and the cooldown are as they were and the weapon decides the next
    shot: one projectile for [SNIPER] and [MACHINE_GUN], the seven pellets
    of the shotgun for any other key.  Nothing takes the weapon back: it is
    kept through damage, death and respawn. *)
Theorem pickup_effect (player : Player.t) (pickup : Pickup.t) :
  let key := Pickup.typeKey pickup in
  let armed := Player.set_currentWeapon player (Some key) in
  (key = "HEALTH"%string ->
   exists player',
     Game._handlePickupEffect player pickup = Game.Returned player'
     /\ Player.health player'
        = Rmin (Player.maxHealth player) (Player.health player + 40)
     /\ Player.currentWeapon player' = Player.currentWeapon player)
  /\ (key <> "HEALTH"%string -> Pickup.type pickup = None ->
      Game._handlePickupEffect player pickup = Game.Threw armed)
  /\ (key <> "HEALTH"%string -> Pickup.type pickup <> None ->
      Game._handlePickupEffect player pickup = Game.Returned armed)
  /\ (forall id x y weapon rnd k,
        In weapon ["HEALTH"; "SNIPER"; "MACHINE_GUN"; "SHOTGUN"]%string ->
        Pickup.typeKey (fst (Pickup.new id x y weapon rnd k)) = weapon
        /\ Pickup.type (fst (Pickup.new id x y weapon rnd k)) <> None)
  /\ (key <> ""%string ->
      WeaponSystem.weaponOf armed = key
      /\ Player.health armed = Player.health player
      /\ Player.canShoot armed = Player.canShoot player
      /\ (forall amount planet angle,
            WeaponSystem.weaponOf
              (Player.spawn (fst (Player.takeDamage armed amount))
                 planet angle)
            = key)
      /\ (Player.canShoot player = true ->
          forall targetX targetY rnd k,
            List.length
              (snd (fst (WeaponSystem.fire armed targetX targetY rnd k)))
            = if String.eqb key "SNIPER" || String.eqb key "MACHINE_GUN"
              then 1%nat else 7%nat)).
Proof.
  cbv zeta. unfold Game._handlePickupEffect.
  split; [|split; [|split; [|split]]].
  - intros Hkey. rewrite Hkey. cbn [String.eqb Ascii.eqb Bool.eqb].
    eexists. split; [reflexivity|]. cbn. split; reflexivity.
  - intros Hkey Htype. apply String.eqb_neq in Hkey.
    rewrite Hkey, Htype. reflexivity.
  - intros Hkey Htype. apply String.eqb_neq in Hkey. rewrite Hkey.
    destruct (Pickup.type pickup); [reflexivity | contradiction].
  - intros id x y weapon rnd k Hin.
    cbn [Pickup.new fst Pickup.typeKey Pickup.type].
    split; [reflexivity|].
    destruct Hin as [<-|[<-|[<-|[<-|[]]]]]; cbn; discriminate.
  - intros Hne. apply String.eqb_neq in Hne.
    assert (Hweapon : WeaponSystem.weaponOf
                        (Player.set_currentWeapon player
                           (Some (Pickup.typeKey pickup)))
                      = Pickup.typeKey pickup).
    { unfold WeaponSystem.weaponOf. cbn. rewrite Hne. reflexivity. }
    split; [exact Hweapon|]. split; [reflexivity|].
    split; [reflexivity|]. split.
    + intros amount planet angle.
      unfold WeaponSystem.weaponOf, Player.spawn, Player.takeDamage.
      step_tests; try discriminate; reflexivity.
    + intros Hcan targetX targetY rnd k.
      unfold WeaponSystem.fire.
      replace (Player.canShoot
                 (Player.set_currentWeapon player
                    (Some (Pickup.typeKey pickup))))
        with true by (symmetry; exact Hcan).
      cbn [negb]. rewrite Hweapon.
      destruct (String.eqb (Pickup.typeKey pickup) "SNIPER");
        [cbn [orb fst snd]; apply pellets_length|].
      destruct (String.eqb (Pickup.typeKey pickup) "MACHINE_GUN");
        cbn [orb fst snd]; apply pellets_length.
Qed.

(** A sniper pickup as the constructor builds it arms the player; a pickup
    under a key the table does not know throws. *)
Lemma pickup_effect_witness :
  Game._handlePickupEffect Sample.host
    (fst (Pickup.new "pickup_1" 0 0 "SNIPER" Sample.zeros O))
  = Game.Returned
      (Player.set_currentWeapon Sample.host (Some "SNIPER"%string))
  /\ Game._handlePickupEffect Sample.host
       (fst (Pickup.new "pickup_2" 0 0 "LASER" Sample.zeros O))
     = Game.Threw
         (Player.set_currentWeapon Sample.host (Some "LASER"%string)).
Proof.
  split.
  - destruct (pickup_effect Sample.host
                (fst (Pickup.new "pickup_1" 0 0 "SNIPER" Sample.zeros O)))
      as [_ [_ [H _]]].
    apply H; cbn; discriminate.
  - destruct (pickup_effect Sample.host
                (fst (Pickup.new "pickup_2" 0 0 "LASER" Sample.zeros O)))
      as [_ [H _]].
    apply H; [cbn; discriminate | reflexivity].
Defined.

(** ** The state of the host on a client *)

Lemma applyState_id (p : Player.t) (pd : PlayerData.t) :
  Player.id (Player.applyState p pd) = Player.id p.
Proof. reflexivity. Qed.

Lemma fromSerialized_id (pd : PlayerData.t) (fallbackName : string) :
  Player.id (Player.fromSerialized pd fallbackName) = PlayerData.id pd.
Proof. reflexivity. Qed.

Lemma findIndex_none {A : Type} (f : A -> bool) (l : list A) :
  Arr.findIndex f l = None -> forall a, In a l -> f a = false.
Proof.
  induction l as [|b l IH]; intros H a Ha; cbn in H; [destruct Ha|].
  destruct (f b) eqn:Hb; [discriminate|].
  destruct (Arr.findIndex f l); [discriminate|].
  destruct Ha as [<-|Ha]; [exact Hb | apply IH; [reflexivity | exact Ha]].
Qed.

Lemma map_updateAt {A B : Type} (g g' : A -> B) (h : A -> A) (l : list A)
    (i : nat) :
  (forall j a, nth_error l j = Some a ->
               (j = i -> g (h a) = g' a) /\ (j <> i -> g a = g' a)) ->
  map g (Arr.updateAt i h l) = map g' l.
Proof.
  revert i. induction l as [|b l IH]; intros [|i] H; cbn; try reflexivity.
  - f_equal.
    + apply (H O b eq_refl). reflexivity.
    + apply map_ext_in. intros a Ha.
      destruct (In_nth_error l a Ha) as [j Hj].
      apply (H (S j) a Hj). discriminate.
  - f_equal.
    + apply (H O b eq_refl). discriminate.
    + apply IH. intros j a Hj. destruct (H (S j) a Hj) as [H1 H2].
      split; intros Hij; [apply H1 | apply H2]; congruence.
Qed.

(** Whether a player of the array carries an id depends on the ids only. *)
Lemma known_ids (players : list Player.t) (id : string) :
  existsb (fun p => String.eqb (Player.id p) id) players
  = existsb (fun i => String.eqb i id) (map Player.id players).
Proof.
  induction players as [|p players IH]; cbn; [reflexivity|].
  rewrite IH. reflexivity.
Qed.

Lemma known_in (players : list Player.t) (id : string) :
  existsb (fun p => String.eqb (Player.id p) id) players = true
  <-> In id (map Player.id players).
Proof.
  rewrite known_ids, existsb_exists. split.
  - intros [i [Hi Heq]]. apply String.eqb_eq in Heq. subst. exact Hi.
  - intros Hin. exists id. split; [exact Hin | apply String.eqb_refl].
Qed.

(** One turn of the loop keeps the ids apart, keeps those there were in
    their places, and leaves the id of the entry among them. *)
Lemma applyPlayer_ids (fallbackName : string) (players : list Player.t)
    (pd : PlayerData.t) :
  let players' := GameClient.applyPlayer fallbackName players pd in
  (In (PlayerData.id pd) (map Player.id players) ->
   map Player.id players' = map Player.id players)
  /\ (~ In (PlayerData.id pd) (map Player.id players) ->
      players' = players ++ [Player.fromSerialized pd fallbackName])
  /\ (NoDup (map Player.id players) -> NoDup (map Player.id players'))
  /\ In (PlayerData.id pd) (map Player.id players')
  /\ incl (map Player.id players) (map Player.id players').
Proof.
  cbv zeta. unfold GameClient.applyPlayer.
  destruct (Arr.findIndex _ players) as [i|] eqn:Hfind.
  - destruct (findIndex_some _ _ _ Hfind) as [p [Hp Hid]].
    apply String.eqb_eq in Hid.
    assert (Hids : map Player.id
                     (Arr.updateAt i (fun q => Player.applyState q pd)
                        players)
                   = map Player.id players)
      by (apply updateAt_ids; intros q; apply applyState_id).
    assert (Hin : In (PlayerData.id pd) (map Player.id players)).
    { rewrite <- Hid. apply in_map. apply (nth_error_In _ _ Hp). }
    rewrite Hids. repeat split; auto.
    + intros Hnot. contradiction.
    + apply incl_refl.
  - assert (Hnot : ~ In (PlayerData.id pd) (map Player.id players)).
    { intros Hin. apply in_map_iff in Hin. destruct Hin as [p [Hid Hp]].
      pose proof (findIndex_none _ _ Hfind p Hp) as Hf. cbn in Hf.
      rewrite Hid, String.eqb_refl in Hf. discriminate. }
    rewrite map_app. cbn [map]. rewrite fromSerialized_id.
    repeat split.
    + intros Hin. contradiction.
    + intros Hnd. apply NoDup_app; [exact Hnd | repeat constructor; auto |].
      intros a Ha [<-|[]]. contradiction.
    + apply in_or_app. right. left. reflexivity.
    + apply incl_appl, incl_refl.
Qed.

Lemma applyPlayers_spec (fallbackName : string) (pds : list PlayerData.t) :
  forall players,
    NoDup (map Player.id players) ->
    NoDup (map PlayerData.id pds) ->
    fold_left (GameClient.applyPlayer fallbackName) pds players
    = map (fun p =>
             match find (fun pd => String.eqb (Player.id p)
                                     (PlayerData.id pd)) pds with
             | Some pd => Player.applyState p pd
             | None => p
             end) players
      ++ map (fun pd => Player.fromSerialized pd fallbackName)
           (filter (fun pd =>
                      negb (existsb
                              (fun p => String.eqb (Player.id p)
                                          (PlayerData.id pd)) players))
              pds).
Proof.
  induction pds as [|pd rest IH]; intros players Hplayers Hpds;
    cbn [fold_left find filter map].
  - rewrite map_id, app_nil_r. reflexivity.
  - inversion Hpds as [|? ? Hfresh Hrest]; subst.
    destruct (applyPlayer_ids fallbackName players pd)
      as [Hknown [Hnew [Hnd _]]].
    cbv zeta in Hknown, Hnew, Hnd.
    rewrite (IH _ (Hnd Hplayers) Hrest).
    assert (Hquiet : forall q,
              Player.id q = PlayerData.id pd ->
              find (fun pd' => String.eqb (Player.id q) (PlayerData.id pd'))
                rest = None).
    { intros q Hq.
      destruct (find _ rest) as [pd'|] eqn:Hf; [|reflexivity].
      apply find_some in Hf. destruct Hf as [Hin Heq].
      apply String.eqb_eq in Heq. exfalso. apply Hfresh.
      rewrite <- Hq, Heq. apply in_map, Hin. }
    destruct (existsb (fun p => String.eqb (Player.id p) (PlayerData.id pd))
                players) eqn:Hex; cbn [negb].
    + apply known_in in Hex. specialize (Hknown Hex).
      f_equal.
      * unfold GameClient.applyPlayer.
        destruct (Arr.findIndex _ players) as [i|] eqn:Hfind.
        -- destruct (findIndex_some _ _ _ Hfind) as [v [Hv Hvid]].
           apply String.eqb_eq in Hvid.
           apply map_updateAt. intros j a Ha. split.
           ++ intros ->. rewrite Hv in Ha. inversion Ha; subst a.
              rewrite applyState_id, (Hquiet v Hvid), Hvid, String.eqb_refl.
              reflexivity.
           ++ intros Hji.
              destruct (String.eqb (Player.id a) (PlayerData.id pd))
                eqn:Haid; [|reflexivity].
              apply String.eqb_eq in Haid. exfalso. apply Hji.
              apply (proj1 (NoDup_nth_error (map Player.id players))
                       Hplayers).
              ** rewrite length_map. apply nth_error_Some. congruence.
              ** rewrite !nth_error_map, Ha, Hv. cbn. congruence.
        -- exfalso. apply in_map_iff in Hex.
           destruct Hex as [p [Hid Hp]].
           pose proof (findIndex_none _ _ Hfind p Hp) as Hf. cbn in Hf.
           rewrite Hid, String.eqb_refl in Hf. discriminate.
      * f_equal. apply filter_ext. intros pd'.
        rewrite !known_ids, Hknown. reflexivity.
    + assert (Hnot : ~ In (PlayerData.id pd) (map Player.id players)).
      { intros Hin. apply known_in in Hin. congruence. }
      rewrite (Hnew Hnot), map_app, <- app_assoc. cbn [map app].
      rewrite (Hquiet (Player.fromSerialized pd fallbackName)
                 (fromSerialized_id pd fallbackName)).
      f_equal.
      * apply map_ext_in. intros a Ha.
        replace (String.eqb (Player.id a) (PlayerData.id pd)) with false;
          [reflexivity|].
        symmetry. apply String.eqb_neq. intros Heq. apply Hnot.
        rewrite <- Heq. apply in_map, Ha.
      * f_equal. f_equal. apply filter_ext_in. intros pd' Hpd'.
        rewrite existsb_app. cbn [existsb]. rewrite fromSerialized_id.
        replace (String.eqb (PlayerData.id pd) (PlayerData.id pd'))
          with false; [rewrite !Bool.orb_false_r; reflexivity|].
        symmetry. apply String.eqb_neq. intros Heq. apply Hfresh.
        rewrite Heq. apply in_map, Hpd'.
Qed.

(** X23 (Game._applyNetworkState): a state of the host applied on a client
    whose players carry distinct ids, the entries of the state too.  Every
    player the client has stays in its place, updated by [applyState] from
    the entry that carries its id, or untouched if there is none; the
    entries of unknown ids are appended as new players, in the order of the
    state.  The ids stay distinct and every id of the state is then a
    player of the client.  The projectiles are replaced by those of the
    state, as many, and the match timer is the timer of the state. *)
Theorem network_state_applied (fallbackName : string) (g : GameClient.t)
    (state : GameState.t) (pds : list PlayerData.t) (rnd : Num.Rand)
    (k : nat) :
  GameState.players state = Some pds ->
  NoDup (map Player.id (GameClient.players g)) ->
  NoDup (map PlayerData.id pds) ->
  let g' := fst (GameClient._applyNetworkState fallbackName g state rnd k) in
  GameClient.players g'
  = map (fun p =>
           match find (fun pd => String.eqb (Player.id p)
                                   (PlayerData.id pd)) pds with
           | Some pd => Player.applyState p pd
           | None => p
           end) (GameClient.players g)
    ++ map (fun pd => Player.fromSerialized pd fallbackName)
         (filter (fun pd =>
                    negb (existsb
                            (fun p => String.eqb (Player.id p)
                                        (PlayerData.id pd))
                            (GameClient.players g)))
            pds)
  /\ NoDup (map Player.id (GameClient.players g'))
  /\ (forall pd, In pd pds ->
                 In (PlayerData.id pd) (map Player.id (GameClient.players g')))
  /\ List.length (GameClient.projectiles g')
     = List.length (GameState.projectiles state)
  /\ GameClient.matchTimer g' = GameState.timer state.
Proof.
  intros Hstate Hplayers Hpds. cbv zeta.
  unfold GameClient._applyNetworkState. rewrite Hstate.
  destruct (GameClient.meteoritesFromSerialized _ rnd k) as [mets k'].
  cbn [fst GameClient.players GameClient.projectiles GameClient.matchTimer].
  split; [apply applyPlayers_spec; assumption|].
  split; [|split; [|split; [apply length_map | reflexivity]]].
  - clear Hpds Hstate. revert Hplayers.
    generalize (GameClient.players g) as players.
    induction pds as [|pd rest IH]; intros players Hnd; cbn [fold_left];
      [exact Hnd|].
    apply IH.
    destruct (applyPlayer_ids fallbackName players pd) as [_ [_ [H _]]].
    apply H, Hnd.
  - clear Hpds Hstate Hplayers.
    generalize (GameClient.players g) as players.
    induction pds as [|pd rest IH]; intros players pd' Hin;
      cbn [fold_left]; [destruct Hin|].
    destruct Hin as [<-|Hin]; [|apply IH, Hin].
    destruct (applyPlayer_ids fallbackName players pd) as [_ [_ [_ [H _]]]].
    cbv zeta in H. revert H.
    generalize (GameClient.applyPlayer fallbackName players pd) as players1.
    clear IH. induction rest as [|pd2 rest IH]; intros players1 H;
      cbn [fold_left]; [exact H|].
    apply IH.
    destruct (applyPlayer_ids fallbackName players1 pd2)
      as [_ [_ [_ [_ Hincl]]]].
    apply Hincl, H.
Qed.

Lemma network_state_applied_witness :
  GameClient.matchTimer
    (fst (GameClient._applyNetworkState "Player 1"
            (GameClient.mk [Sample.host] [] [] 180)
            (Snapshot.state Sample.snap100) Sample.zeros O))
  = 179.9.
Proof.
  apply (network_state_applied "Player 1"
           (GameClient.mk [Sample.host] [] [] 180)
           (Snapshot.state Sample.snap100) [Sample.wire10] Sample.zeros O).
  - reflexivity.
  - cbn. repeat constructor. intros [].
  - cbn. repeat constructor. intros [].
Defined.

(** ** The camera *)

(** X24 (Camera.screenToWorld, Camera.worldToScreen): while the zoom is not
    zero the two conversions undo each other, the centre of the canvas is
    the point the camera looks at, and a step on the screen is a step of
    [1 / zoom] in the world. *)
Theorem camera_round_trip (c : Camera.t) (px py qx qy : R) :
  Camera.zoom c <> 0 ->
  let w := Camera.screenToWorld c px py in
  let s := Camera.worldToScreen c px py in
  Camera.worldToScreen c (Vec2.x w) (Vec2.y w) = Vec2.mk px py
  /\ Camera.screenToWorld c (Vec2.x s) (Vec2.y s) = Vec2.mk px py
  /\ Camera.screenToWorld c (Camera.width c / 2) (Camera.height c / 2)
     = Vec2.mk (Camera.x c) (Camera.y c)
  /\ Vec2.sub (Camera.screenToWorld c qx qy) w
     = Vec2.scale (Vec2.mk (qx - px) (qy - py)) (1 / Camera.zoom c).
Proof.
  intros Hzoom. cbv zeta.
  unfold Camera.screenToWorld, Camera.worldToScreen, Vec2.sub, Vec2.scale.
  cbn [Vec2.x Vec2.y].
  repeat split; f_equal; field; exact Hzoom.
Qed.

Lemma camera_round_trip_witness :
  Camera.screenToWorld (Camera.new 800 600) (800 / 2) (600 / 2)
  = Vec2.mk 0 0.
Proof.
  apply (camera_round_trip (Camera.new 800 600) 0 0 0 0).
  cbn. lra.
Defined.

(** The loop of [follow] from bounds already set: the bounds stay set, and
    the sums grow by an amount between the number of positions times any
    bounds of theirs. *)
Lemma bounds_set (positions : list Vec2.t) :
  forall cx cy a b c d,
  exists cx' cy' a' b' c' d',
    Camera.bounds positions (cx, cy, Some a, Some b, Some c, Some d)
    = (cx', cy', Some a', Some b', Some c', Some d')
    /\ (forall lo hi,
          (forall p, In p positions -> lo <= Vec2.x p <= hi) ->
          cx + INR (List.length positions) * lo <= cx'
          <= cx + INR (List.length positions) * hi)
    /\ (forall lo hi,
          (forall p, In p positions -> lo <= Vec2.y p <= hi) ->
          cy + INR (List.length positions) * lo <= cy'
          <= cy + INR (List.length positions) * hi).
Proof.
  induction positions as [|p rest IH]; intros cx cy a b c d.
  - exists cx, cy, a, b, c, d. cbn [Camera.bounds List.length INR].
    split; [reflexivity|]. split; intros lo hi _; lra.
  - cbn [Camera.bounds Camera.lower Camera.upper].
    assert (Hlower : forall bound v, exists bound',
              (if v <? bound then Some v else Some bound) = Some bound')
      by (intros bound v; destruct (v <? bound); eexists; reflexivity).
    assert (Hupper : forall bound v, exists bound',
              (if bound <? v then Some v else Some bound) = Some bound')
      by (intros bound v; destruct (bound <? v); eexists; reflexivity).
    destruct (Hlower a (Vec2.x p)) as [a1 ->].
    destruct (Hupper b (Vec2.x p)) as [b1 ->].
    destruct (Hlower c (Vec2.y p)) as [c1 ->].
    destruct (Hupper d (Vec2.y p)) as [d1 ->].
    destruct (IH (cx + Vec2.x p) (cy + Vec2.y p) a1 b1 c1 d1)
      as [cx' [cy' [a' [b' [c' [d' [Heq [Hx Hy]]]]]]]].
    exists cx', cy', a', b', c', d'. split; [exact Heq|].
    change (List.length (p :: rest)) with (S (List.length rest)).
    rewrite S_INR.
    split; intros lo hi Hall.
    + specialize (Hx lo hi (fun q Hq => Hall q (or_intror Hq))).
      pose proof (Hall p (or_introl eq_refl)). lra.
    + specialize (Hy lo hi (fun q Hq => Hall q (or_intror Hq))).
      pose proof (Hall p (or_introl eq_refl)). lra.
Qed.

(** X25 (Camera.follow): without positions [follow] does nothing.  With
    some, and [minZoom <= maxZoom], the camera aims at a point within any
    bounds of the positions, the target zoom lies between the two limits,
    and the zoom stays between them if it was and the step
    [zoomLerpSpeed * dt] is at most 1; the zoom is then not zero for a
    positive [minZoom], so that the screen conversions of the camera after
    the step still undo each other. *)
Theorem camera_follow (c : Camera.t) (positions : list Vec2.t) (dt : R)
    (rnd : Num.Rand) (k : nat) :
  Camera.minZoom c <= Camera.maxZoom c ->
  let c' := fst (Camera.follow c positions dt rnd k) in
  (positions = [] -> Camera.follow c positions dt rnd k = (c, k))
  /\ (positions <> [] ->
      Camera.minZoom c <= Camera.targetZoom c' <= Camera.maxZoom c
      /\ (forall lo hi,
            (forall p, In p positions -> lo <= Vec2.x p <= hi) ->
            lo <= Camera.targetX c' <= hi)
      /\ (forall lo hi,
            (forall p, In p positions -> lo <= Vec2.y p <= hi) ->
            lo <= Camera.targetY c' <= hi))
  /\ Camera.minZoom c' = Camera.minZoom c
  /\ Camera.maxZoom c' = Camera.maxZoom c
  /\ (0 <= Camera.zoomLerpSpeed c * dt <= 1 ->
      Camera.minZoom c <= Camera.zoom c <= Camera.maxZoom c ->
      Camera.minZoom c <= Camera.zoom c' <= Camera.maxZoom c
      /\ (0 < Camera.minZoom c ->
          forall sx sy,
            let w := Camera.screenToWorld c' sx sy in
            Camera.worldToScreen c' (Vec2.x w) (Vec2.y w) = Vec2.mk sx sy)).
Proof.
  intros Hlimits. cbv zeta.
  destruct positions as [|p rest].
  - cbn. split; [reflexivity|]. split; [intros H; contradiction|].
    split; [reflexivity|]. split; [reflexivity|].
    intros _ Hzoom. split; [exact Hzoom|]. intros Hmin sx sy.
    unfold Camera.screenToWorld, Camera.worldToScreen. cbn [Vec2.x Vec2.y].
    f_equal; field; lra.
  - unfold Camera.follow.
    cbn [Camera.bounds Camera.lower Camera.upper].
    destruct (bounds_set rest (0 + Vec2.x p) (0 + Vec2.y p)
                (Vec2.x p) (Vec2.x p) (Vec2.y p) (Vec2.y p))
      as [cx [cy [a [b [c0 [d [Heq [Hx Hy]]]]]]]].
    rewrite Heq.
    set (n := INR (List.length (p :: rest))).
    assert (Hn : 0 < n).
    { unfold n. change (List.length (p :: rest))
        with (S (List.length rest)).
      rewrite S_INR. pose proof (pos_INR (List.length rest)). lra. }
    assert (Hn' : n = INR (List.length rest) + 1).
    { unfold n. change (List.length (p :: rest))
        with (S (List.length rest)).
      apply S_INR. }
    set (tz := Rmax (Camera.minZoom c)
                 (Rmin (Camera.maxZoom c)
                    (Rmin (Camera.width c / (b - a + Camera.padding c * 2))
                       (Camera.height c / (d - c0 + Camera.padding c * 2))))).
    assert (Htz : Camera.minZoom c <= tz <= Camera.maxZoom c).
    { unfold tz. split; [apply Rmax_l|].
      apply Rmax_lub; [exact Hlimits | apply Rmin_l]. }
    assert (Hcentre : forall (s lo hi : R),
              INR (List.length rest) * lo + lo <= s
              <= INR (List.length rest) * hi + hi ->
              lo <= s / n <= hi).
    { intros s lo hi [H1 H2]. split.
      - apply Rmult_le_reg_r with n; [exact Hn|].
        unfold Rdiv. rewrite Rmult_assoc, Rinv_l by lra. nra.
      - apply Rmult_le_reg_r with n; [exact Hn|].
        unfold Rdiv. rewrite Rmult_assoc, Rinv_l by lra. nra. }
    split; [discriminate|].
    split.
    { intros _.
      destruct (0 <? Camera.shakeTimer c);
        cbn [fst Camera.targetZoom Camera.targetX Camera.targetY];
        (split; [exact Htz|]);
        (split; intros lo hi Hall; apply Hcentre;
         [ specialize (Hx lo hi (fun q Hq => Hall q (or_intror Hq)));
           pose proof (Hall p (or_introl eq_refl)); lra
         | specialize (Hy lo hi (fun q Hq => Hall q (or_intror Hq)));
           pose proof (Hall p (or_introl eq_refl)); lra ]). }
    assert (Hzoom : 0 <= Camera.zoomLerpSpeed c * dt <= 1 ->
                    Camera.minZoom c <= Camera.zoom c <= Camera.maxZoom c ->
                    Camera.minZoom c
                    <= Physics.lerp (Camera.zoom c) tz
                         (Camera.zoomLerpSpeed c * dt)
                    <= Camera.maxZoom c).
    { intros Ht Hz. unfold Physics.lerp.
      set (t := Camera.zoomLerpSpeed c * dt) in *. split; nra. }
    destruct (0 <? Camera.shakeTimer c);
      cbn [fst Camera.minZoom Camera.maxZoom Camera.zoom];
      (split; [reflexivity|]); (split; [reflexivity|]);
      intros Ht Hz; specialize (Hzoom Ht Hz);
      (split; [exact Hzoom|]); intros Hmin sx sy;
      unfold Camera.screenToWorld, Camera.worldToScreen;
      cbn [Vec2.x Vec2.y Camera.x Camera.y Camera.zoom Camera.width
           Camera.height];
      f_equal; field; lra.
Qed.

Lemma camera_follow_witness :
  Camera.minZoom (Camera.new 800 600)
  <= Camera.targetZoom
       (fst (Camera.follow (Camera.new 800 600) [Vec2.mk 0 0] Sample.dt
               Sample.zeros O))
  <= Camera.maxZoom (Camera.new 800 600).
Proof.
  assert (Hlimits : Camera.minZoom (Camera.new 800 600)
                    <= Camera.maxZoom (Camera.new 800 600))
    by (cbn; lra).
  destruct (camera_follow (Camera.new 800 600) [Vec2.mk 0 0] Sample.dt
              Sample.zeros O Hlimits) as [_ [H _]].
  apply H. discriminate.
Defined.

(** ** Particles *)

Lemma splice1_facts {A : Type} (l : list A) (idx : nat) :
  (idx < List.length l)%nat ->
  S (List.length (ParticlePool.splice1 idx l)) = List.length l
  /\ incl (ParticlePool.splice1 idx l) l.
Proof.
  revert idx. induction l as [|a l IH]; intros [|idx] H; cbn in *; try lia.
  - split; [reflexivity | apply incl_tl, incl_refl].
  - destruct (IH idx ltac:(lia)) as [Hlen Hincl]. split; [lia|].
    intros b [<-|Hb]; [left; reflexivity | right; apply Hincl, Hb].
Qed.

(** An eviction takes exactly one particle out of a pool that has some. *)
Lemma evict_facts (particles : list Particle.t) :
  incl (ParticlePool.evict particles) particles
  /\ (particles <> [] ->
      S (List.length (ParticlePool.evict particles))
      = List.length particles).
Proof.
  unfold ParticlePool.evict.
  destruct (Arr.findIndex _ particles) as [idx|] eqn:Hfind.
  - destruct (findIndex_some _ _ _ Hfind) as [p [Hp _]].
    assert (Hidx : (idx < List.length particles)%nat)
      by (apply nth_error_Some; congruence).
    destruct (splice1_facts particles idx Hidx) as [Hlen Hincl].
    split; [exact Hincl | intros _; exact Hlen].
  - destruct particles as [|p rest]; cbn.
    + split; [apply incl_refl | intros H; contradiction].
    + split; [apply incl_tl, incl_refl | reflexivity].
Qed.

Lemma emitOne_facts (pool : ParticlePool.t) (x y : R)
    (o : ParticlePool.Options.t) (rnd : Num.Rand) (k : nat) :
  let pool' := fst (ParticlePool.emitOne pool x y o rnd k) in
  ParticlePool.maxParticles pool' = ParticlePool.maxParticles pool
  /\ snd (ParticlePool.emitOne pool x y o rnd k)
     = (k + match ParticlePool.Options.colors o with
            | Some _ => 5
            | None => 4
            end)%nat
  /\ ((1 <= ParticlePool.maxParticles pool)%nat ->
      (List.length (ParticlePool.particles pool)
       <= ParticlePool.maxParticles pool)%nat ->
      List.length (ParticlePool.particles pool')
      = Nat.min (List.length (ParticlePool.particles pool) + 1)
          (ParticlePool.maxParticles pool))
  /\ Forall (fun p => In p (ParticlePool.particles pool)
                      \/ Says.emitted x y o p)
       (ParticlePool.particles pool').
Proof.
  cbv zeta. unfold ParticlePool.emitOne.
  set (kept := if (_ <=? _)%nat then _ else _).
  assert (Hkept : incl kept (ParticlePool.particles pool)).
  { unfold kept. destruct (_ <=? _)%nat; [apply evict_facts|apply incl_refl]. }
  assert (Hlen : (1 <= ParticlePool.maxParticles pool)%nat ->
                 (List.length (ParticlePool.particles pool)
                  <= ParticlePool.maxParticles pool)%nat ->
                 S (List.length kept)
                 = Nat.min (List.length (ParticlePool.particles pool) + 1)
                     (ParticlePool.maxParticles pool)).
  { intros Hmax Hle. unfold kept.
    destruct (_ <=? _)%nat eqn:Hfull.
    - apply Nat.leb_le in Hfull.
      destruct (evict_facts (ParticlePool.particles pool)) as [_ Hone].
      rewrite Hone; [lia|]. intros Hnil. rewrite Hnil in Hfull. cbn in Hfull.
      lia.
    - apply Nat.leb_gt in Hfull. lia. }
  destruct (ParticlePool.Options.colors o) as [colors|];
    cbn [fst snd ParticlePool.particles ParticlePool.maxParticles];
    (split; [reflexivity|]); (split; [lia|]);
    (split; [intros Hmax Hle; rewrite length_app; cbn [List.length];
             rewrite <- (Hlen Hmax Hle); lia|]);
    (apply Forall_app; split;
     [ apply Forall_forall; intros p Hp; left; apply Hkept, Hp
     | constructor; [|constructor]; right; unfold Says.emitted; cbn;
       repeat split; try reflexivity; apply Rmax_l ]).
Qed.

(** X26 (ParticlePool.emit): a pool of room for at least one particle that
    is within its cap stays within it: after [emit] it holds the particles
    it had plus [count], cut at [maxParticles].  Each of its particles was
    there before or is a new one, which starts at the point of the call,
    switched on, aged 0, opaque, with a size of at least 0.5 and a lifetime
    of at least 0.1.  A call consumes four draws per particle, five when a
    colour table is given. *)
Theorem emit_capped (pool : ParticlePool.t) (x y : R) (count : nat)
    (o : ParticlePool.Options.t) (rnd : Num.Rand) (k : nat) :
  (1 <= ParticlePool.maxParticles pool)%nat ->
  (List.length (ParticlePool.particles pool)
   <= ParticlePool.maxParticles pool)%nat ->
  let result := ParticlePool.emit pool x y count o rnd k in
  List.length (ParticlePool.particles (fst result))
  = Nat.min (List.length (ParticlePool.particles pool) + count)
      (ParticlePool.maxParticles pool)
  /\ ParticlePool.maxParticles (fst result) = ParticlePool.maxParticles pool
  /\ Forall (fun p => In p (ParticlePool.particles pool)
                      \/ Says.emitted x y o p)
       (ParticlePool.particles (fst result))
  /\ snd result
     = (k + count * match ParticlePool.Options.colors o with
                    | Some _ => 5
                    | None => 4
                    end)%nat.
Proof.
  cbv zeta. revert pool k.
  induction count as [|count IH]; intros pool k Hmax Hle;
    cbn [ParticlePool.emit].
  - cbn [fst snd]. split; [lia|]. split; [reflexivity|].
    split; [|lia]. apply Forall_forall. intros p Hp. left. exact Hp.
  - destruct (emitOne_facts pool x y o rnd k) as [Hcap [Hk [Hlen Hall]]].
    cbv zeta in Hcap, Hk, Hlen, Hall. specialize (Hlen Hmax Hle).
    destruct (ParticlePool.emitOne pool x y o rnd k) as [pool1 k1].
    cbn [fst snd] in Hcap, Hk, Hlen, Hall.
    destruct (IH pool1 k1) as [IHlen [IHcap [IHall IHk]]];
      [lia | lia |].
    split; [rewrite IHlen, Hlen, Hcap; lia|].
    split; [congruence|]. split.
    + apply Forall_forall. intros p Hp.
      rewrite Forall_forall in IHall, Hall.
      destruct (IHall p Hp) as [Hold | Hnew]; [apply Hall, Hold|].
      right. exact Hnew.
    + rewrite IHk, Hk. lia.
Qed.

Lemma emit_capped_witness :
  List.length
    (ParticlePool.particles
       (fst (ParticlePool.emit (ParticlePool.new 2) 0 0 3
               ParticlePool.Options.default Sample.zeros O)))
  = 2%nat.
Proof.
  apply (emit_capped (ParticlePool.new 2) 0 0 3 ParticlePool.Options.default
           Sample.zeros O); cbn; lia.
Defined.

(** X27 (Particle.update, ParticlePool.update, ParticlePool.emit): the pool
    holds live particles only.  After [update] with a step of 0 or more,
    over particles of age 0 or more, every particle left is switched on and
    younger than its lifetime, its opacity is [1 - age / lifetime] and lies
    in (0, 1], and its size is between half its first size and that size;
    no particle is added.  [emit] keeps the particles live, the new ones
    included. *)
Theorem pool_stays_live (pool : ParticlePool.t) (dt : R) :
  0 <= dt ->
  Forall (fun p => 0 <= Particle.age p /\ 0 <= Particle.maxSize p)
    (ParticlePool.particles pool) ->
  Forall (fun p =>
            Says.live p
            /\ Particle.alpha p = 1 - Particle.age p / Particle.lifetime p
            /\ 0 < Particle.alpha p <= 1
            /\ Particle.maxSize p / 2 <= Particle.size p
               <= Particle.maxSize p)
    (ParticlePool.particles (ParticlePool.update pool dt))
  /\ (List.length (ParticlePool.particles (ParticlePool.update pool dt))
      <= List.length (ParticlePool.particles pool))%nat
  /\ (forall x y count o rnd k,
        Forall Says.live (ParticlePool.particles pool) ->
        Forall Says.live
          (ParticlePool.particles
             (fst (ParticlePool.emit pool x y count o rnd k)))).
Proof.
  intros Hdt Hages. split; [|split].
  - unfold ParticlePool.update. cbn [ParticlePool.particles].
    induction Hages as [|p rest [Hage Hsize] _ IH];
      cbn [ParticlePool.updateLoop]; [constructor|].
    set (q := if negb (Particle.gravity p =? 0)
              then Particle.set_vy p
                     (Particle.vy p + Particle.gravity p * dt)
              else p).
    assert (Hq : Particle.age q = Particle.age p
                 /\ Particle.lifetime q = Particle.lifetime p
                 /\ Particle.maxSize q = Particle.maxSize p
                 /\ Particle.active q = Particle.active p)
      by (unfold q; destruct (negb _); repeat split).
    destruct Hq as [Qage [Qlife [Qsize Qact]]].
    destruct (Particle.active (Particle.update q dt)) eqn:Hact;
      cbn [negb]; [|exact IH].
    constructor; [|exact IH].
    unfold Particle.update in *.
    cbn [Particle.active Particle.age Particle.lifetime Particle.alpha
         Particle.size Particle.maxSize] in *.
    rewrite Qage, Qlife, Qsize in *.
    destruct (Particle.lifetime p <=? Particle.age p + dt) eqn:Hold;
      [discriminate|].
    apply leb_false in Hold.
    assert (Hlife : 0 < Particle.lifetime p) by lra.
    assert (Hprog : 0 <= (Particle.age p + dt) / Particle.lifetime p < 1).
    { split.
      - apply Rmult_le_reg_r with (Particle.lifetime p); [exact Hlife|].
        unfold Rdiv. rewrite Rmult_assoc, Rinv_l by lra. lra.
      - apply Rmult_lt_reg_r with (Particle.lifetime p); [exact Hlife|].
        unfold Rdiv. rewrite Rmult_assoc, Rinv_l by lra. lra. }
    unfold Says.live. cbn [Particle.active Particle.age Particle.lifetime].
    split; [split; [exact Hact | lra]|].
    split; [reflexivity|]. split; [lra|]. nra.
  - unfold ParticlePool.update. cbn [ParticlePool.particles]. clear Hages.
    induction (ParticlePool.particles pool) as [|p rest IH];
      cbn [ParticlePool.updateLoop List.length]; [lia|].
    destruct (negb (Particle.active _)); cbn [List.length]; lia.
  - intros x y count o rnd k. clear Hages. revert pool k.
    induction count as [|count IH]; intros pool k Hlive;
      cbn [ParticlePool.emit]; [exact Hlive|].
    destruct (emitOne_facts pool x y o rnd k) as [_ [_ [_ Hall]]].
    cbv zeta in Hall.
    destruct (ParticlePool.emitOne pool x y o rnd k) as [pool1 k1].
    cbn [fst] in Hall. apply IH.
    rewrite Forall_forall in *. intros p Hp.
    destruct (Hall p Hp) as [Hold | Hnew]; [apply Hlive, Hold|].
    destruct Hnew as [_ [_ [Hact [Hage [_ [_ [_ [Hlife _]]]]]]]].
    unfold Says.live. rewrite Hage. split; [exact Hact | lra].
Qed.

Lemma pool_stays_live_witness :
  (List.length
     (ParticlePool.particles
        (ParticlePool.update (ParticlePool.new 600) Sample.dt))
   <= List.length (ParticlePool.particles (ParticlePool.new 600)))%nat.
Proof.
  apply (pool_stays_live (ParticlePool.new 600) Sample.dt).
  - unfold Sample.dt. lra.
  - constructor.
Defined.

(** ** The joystick *)

(** X28 (InputManager._updateJoystick): for a positive joystick radius the
    joystick reads a vector of the unit disc whose length is its force, a
    force of at most 1.  A touch closer to the centre than the dead zone
    reads as no input at all; a touch between the dead zone and the radius
    reads as its offset over the radius; a touch beyond the radius reads as
    the unit vector towards it.  Without a joystick base on the page the
    reading is left as it was. *)
Theorem joystick_reading (m : InputManager.t) (centerX centerY : R)
    (clientX clientY : R) :
  0 < InputManager.joystickRadius m ->
  let m' :=
    InputManager._updateJoystick m (Some (centerX, centerY)) clientX
      clientY in
  let j := InputManager.joystick m' in
  let dx := clientX - centerX in
  let dy := clientY - centerY in
  let dist := Vec2.length (Vec2.mk dx dy) in
  let radius := InputManager.joystickRadius m in
  let deadZone := InputManager.joystickDeadZone m in
  (0 <= InputManager.force j <= 1
   /\ Vec2.length (Vec2.mk (InputManager.x j) (InputManager.y j))
      = InputManager.force j
   /\ Rabs (InputManager.x j) <= 1 /\ Rabs (InputManager.y j) <= 1)
  /\ (dist < deadZone -> j = InputManager.mkJoystick 0 0 0)
  /\ (deadZone <= dist <= radius ->
      j = InputManager.mkJoystick (dx / radius) (dy / radius)
            (dist / radius))
  /\ (radius < dist -> deadZone <= radius ->
      j = InputManager.mkJoystick (dx / dist) (dy / dist) 1)
  /\ InputManager._updateJoystick m None clientX clientY = m.
Proof.
  intros Hr. cbv zeta. unfold InputManager._updateJoystick, Vec2.length.
  cbn [Vec2.x Vec2.y].
  set (dx := clientX - centerX). set (dy := clientY - centerY).
  set (dist := sqrt (dx * dx + dy * dy)).
  set (radius := InputManager.joystickRadius m) in *.
  set (deadZone := InputManager.joystickDeadZone m).
  assert (Hdist : 0 <= dist) by apply sqrt_pos.
  assert (Hsq : dist * dist = dx * dx + dy * dy)
    by (apply sqrt_sqrt; nra).
  assert (Hlen : forall c, 0 < c ->
            sqrt (dx / c * (dx / c) + dy / c * (dy / c)) = dist / c).
  { intros c Hc.
    replace (dx / c * (dx / c) + dy / c * (dy / c))
      with ((dist / c) * (dist / c))
      by (unfold Rdiv;
          replace (dist * / c * (dist * / c))
            with (dist * dist * (/ c * / c)) by ring;
          rewrite Hsq; ring).
    apply sqrt_square.
    apply Rmult_le_reg_r with c; [exact Hc|].
    unfold Rdiv. rewrite Rmult_assoc, Rinv_l by lra. lra. }
  assert (Hratio : forall a, a / radius < deadZone / radius <-> a < deadZone).
  { intros a. unfold Rdiv. split; intros H.
    - apply Rmult_lt_reg_r with (/ radius);
        [apply Rinv_0_lt_compat; exact Hr | exact H].
    - apply Rmult_lt_compat_r; [apply Rinv_0_lt_compat; exact Hr | exact H]. }
  assert (Habs : forall u v s, sqrt (u * u + v * v) = s -> s <= 1 ->
                               Rabs u <= 1 /\ Rabs v <= 1).
  { intros u v s Hs Hle.
    assert (H0 : 0 <= s) by (rewrite <- Hs; apply sqrt_pos).
    assert (Hss : s * s = u * u + v * v)
      by (rewrite <- Hs; apply sqrt_sqrt; nra).
    split; apply Rabs_le; split; nra. }
  split; [|split; [|split; [|split; [|reflexivity]]]].
  - destruct (radius <? dist) eqn:Hfar.
    + apply ltb_true in Hfar.
      assert (Hone : Rmin (dist / radius) 1 = 1).
      { apply Rmin_right.
        apply Rmult_le_reg_r with radius; [exact Hr|].
        unfold Rdiv. rewrite Rmult_assoc, Rinv_l by lra. lra. }
      rewrite Hone.
      destruct (1 <? deadZone / radius);
        cbn [InputManager.joystick InputManager.x InputManager.y
             InputManager.force].
      * replace (0 * 0 + 0 * 0) with 0 by ring. rewrite sqrt_0, Rabs_R0.
        repeat split; lra.
      * replace (dx / dist * radius / radius) with (dx / dist)
          by (field; lra).
        replace (dy / dist * radius / radius) with (dy / dist)
          by (field; lra).
        assert (Hunit : sqrt (dx / dist * (dx / dist)
                              + dy / dist * (dy / dist)) = 1).
        { rewrite Hlen by lra. field. lra. }
        split; [lra|]. split; [exact Hunit|].
        apply (Habs _ _ 1 Hunit). lra.
    + apply ltb_false in Hfar.
      assert (Hmin : Rmin (dist / radius) 1 = dist / radius).
      { apply Rmin_left.
        apply Rmult_le_reg_r with radius; [exact Hr|].
        unfold Rdiv. rewrite Rmult_assoc, Rinv_l by lra. lra. }
      rewrite Hmin.
      assert (Hle : 0 <= dist / radius <= 1).
      { split.
        - apply Rmult_le_reg_r with radius; [exact Hr|].
          unfold Rdiv. rewrite Rmult_assoc, Rinv_l by lra. lra.
        - apply Rmult_le_reg_r with radius; [exact Hr|].
          unfold Rdiv. rewrite Rmult_assoc, Rinv_l by lra. lra. }
      destruct (dist / radius <? deadZone / radius);
        cbn [InputManager.joystick InputManager.x InputManager.y
             InputManager.force].
      * replace (0 * 0 + 0 * 0) with 0 by ring. rewrite sqrt_0, Rabs_R0.
        repeat split; lra.
      * split; [exact Hle|]. split; [apply Hlen; exact Hr|].
        apply (Habs _ _ (dist / radius) (Hlen radius Hr)). lra.
  - intros Hdead.
    assert (Hforce : Rmin (dist / radius) 1 < deadZone / radius).
    { eapply Rle_lt_trans; [apply Rmin_l|]. apply Hratio, Hdead. }
    rewrite (proj2 (ltb_true _ _) Hforce).
    destruct (radius <? dist); reflexivity.
  - intros [Hlo Hhi].
    replace (radius <? dist) with false
      by (symmetry; apply ltb_false; lra).
    assert (Hmin : Rmin (dist / radius) 1 = dist / radius).
    { apply Rmin_left.
      apply Rmult_le_reg_r with radius; [exact Hr|].
      unfold Rdiv. rewrite Rmult_assoc, Rinv_l by lra. lra. }
    rewrite Hmin.
    replace (dist / radius <? deadZone / radius) with false;
      [reflexivity|].
    symmetry. apply ltb_false. apply Rnot_lt_le. intros H.
    apply Hratio in H. lra.
  - intros Hfar Hzone.
    rewrite (proj2 (ltb_true _ _) Hfar).
    assert (Hone : Rmin (dist / radius) 1 = 1).
    { apply Rmin_right.
      apply Rmult_le_reg_r with radius; [exact Hr|].
      unfold Rdiv. rewrite Rmult_assoc, Rinv_l by lra. lra. }
    rewrite Hone.
    replace (1 <? deadZone / radius) with false.
    + cbn [InputManager.joystick]. f_equal; field; lra.
    + symmetry. apply ltb_false. apply Rnot_lt_le. intros H.
      assert (H1 : radius / radius < deadZone / radius)
        by (replace (radius / radius) with 1 by (field; lra); exact H).
      apply Hratio in H1. lra.
Qed.

Lemma joystick_reading_witness :
  InputManager.joystick
    (InputManager._updateJoystick InputManager.new (Some (0, 0)) 0 0)
  = InputManager.mkJoystick 0 0 0.
Proof.
  assert (Hr : 0 < InputManager.joystickRadius InputManager.new)
    by (cbn; lra).
  destruct (joystick_reading InputManager.new 0 0 0 0 Hr) as [_ [H _]].
  apply H. unfold Vec2.length. cbn.
  replace ((0 - 0) * (0 - 0) + (0 - 0) * (0 - 0)) with 0 by ring.
  rewrite sqrt_0. lra.
Defined.

(** ** The send and broadcast timers *)

(** What any run of [sendInput] calls keeps: the rate, the buffer, the delay
    and the ping; the timer stays at or below the larger of its first value
    and the rate, and after a call it is positive when the rate is. *)
Lemma sendInput_run {Input : Type} (c : ClientState.t)
    (calls : list (R * Input)) :
  Forall (fun call => 0 <= fst call) calls ->
  let client :=
    fold_left (fun c call => fst (ClientState.sendInput c (fst call)
                                    (snd call))) calls c in
  ClientState.sendRate client = ClientState.sendRate c
  /\ ClientState._stateBuffer client = ClientState._stateBuffer c
  /\ ClientState._interpDelay client = ClientState._interpDelay c
  /\ ClientState.ping client = ClientState.ping c
  /\ ClientState.sendTimer client
     <= Rmax (ClientState.sendTimer c) (ClientState.sendRate c)
  /\ (calls <> [] -> 0 < ClientState.sendRate c ->
      0 < ClientState.sendTimer client).
Proof.
  cbv zeta. induction calls as [|[dt input] calls IH] using rev_ind;
    intros Hdts.
  - cbn [fold_left]. repeat split; try reflexivity; [apply Rmax_l | tauto].
  - apply Forall_app in Hdts. destruct Hdts as [Hdts Hdt].
    apply Forall_inv in Hdt. cbn [fst] in Hdt.
    destruct (IH Hdts) as [Hrate [Hbuf [Hdel [Hping [Hup _]]]]].
    rewrite fold_left_app. cbn [fold_left fst snd].
    set (client := fold_left _ calls c) in *.
    unfold ClientState.sendInput.
    destruct (0 <? _) eqn:Hc; cmp_hyps;
      cbn [fst ClientState.sendRate ClientState._stateBuffer
           ClientState._interpDelay ClientState.ping ClientState.sendTimer];
      repeat split; try assumption.
    + lra.
    + intros _ _. lra.
    + rewrite Hrate. apply Rmax_r.
    + intros _ Hpos. rewrite Hrate. exact Hpos.
Qed.

(** The same of any run of [broadcastState] calls. *)
Lemma broadcastState_run {Input State : Type} (h : HostState.t Input)
    (calls : list (R * State)) :
  Forall (fun call => 0 <= fst call) calls ->
  let host :=
    fold_left (fun h call => fst (HostState.broadcastState h (fst call)
                                    (snd call))) calls h in
  HostState.broadcastRate host = HostState.broadcastRate h
  /\ HostState.inputBuffer host = HostState.inputBuffer h
  /\ HostState.broadcastTimer host
     <= Rmax (HostState.broadcastTimer h) (HostState.broadcastRate h)
  /\ (calls <> [] -> 0 < HostState.broadcastRate h ->
      0 < HostState.broadcastTimer host).
Proof.
  cbv zeta. induction calls as [|[dt state] calls IH] using rev_ind;
    intros Hdts.
  - cbn [fold_left]. repeat split; try reflexivity; [apply Rmax_l | tauto].
  - apply Forall_app in Hdts. destruct Hdts as [Hdts Hdt].
    apply Forall_inv in Hdt. cbn [fst] in Hdt.
    destruct (IH Hdts) as [Hrate [Hbuf [Hup _]]].
    rewrite fold_left_app. cbn [fold_left fst snd].
    set (host := fold_left _ calls h) in *.
    unfold HostState.broadcastState.
    destruct (0 <? _) eqn:Hc; cmp_hyps;
      cbn [fst HostState.broadcastRate HostState.inputBuffer
           HostState.broadcastTimer];
      repeat split; try assumption.
    + lra.
    + intros _ _. lra.
    + rewrite Hrate. apply Rmax_r.
    + intros _ Hpos. rewrite Hrate. exact Hpos.
Qed.

(** X29 (ClientState.sendInput, HostState.broadcastState): the two network
    timers, after any run of calls with steps of 0 or more, each call with
    its own step and its own input or state.  A call is silent exactly when
    its step is below the timer, and then it only lowers the timer by the
    step; otherwise it sends what it was given and rearms the timer at the
    rate.  No call touches the rate, the snapshot buffer, the delay, the
    ping or the input buffer.  The timer never exceeds the larger of its
    first value and the rate, and with a positive rate it is positive after
    every call; so the call that follows a send is silent whenever its step
    is below the rate. *)
Theorem network_throttles {Input State : Type} (c : ClientState.t)
    (h : HostState.t Input) (inputs : list (R * Input))
    (states : list (R * State)) (dt : R) (input : Input) (state : State)
    (dt' : R) (input' : Input) (state' : State) :
  Forall (fun call => 0 <= fst call) inputs ->
  Forall (fun call => 0 <= fst call) states ->
  let client :=
    fold_left (fun c call => fst (ClientState.sendInput c (fst call)
                                    (snd call))) inputs c in
  let host :=
    fold_left (fun h call => fst (HostState.broadcastState h (fst call)
                                    (snd call))) states h in
  (ClientState.sendRate client = ClientState.sendRate c
   /\ ClientState._stateBuffer client = ClientState._stateBuffer c
   /\ ClientState._interpDelay client = ClientState._interpDelay c
   /\ ClientState.ping client = ClientState.ping c
   /\ ClientState.sendTimer client
      <= Rmax (ClientState.sendTimer c) (ClientState.sendRate c)
   /\ (inputs <> [] -> 0 < ClientState.sendRate c ->
       0 < ClientState.sendTimer client))
  /\ (dt < ClientState.sendTimer client ->
      ClientState.sendInput client dt input
      = (ClientState.mk (ClientState.sendRate c)
           (ClientState.sendTimer client - dt) (ClientState._stateBuffer c)
           (ClientState._interpDelay c) (ClientState.ping c),
         None))
  /\ (ClientState.sendTimer client <= dt ->
      ClientState.sendInput client dt input
      = (ClientState.mk (ClientState.sendRate c) (ClientState.sendRate c)
           (ClientState._stateBuffer c) (ClientState._interpDelay c)
           (ClientState.ping c),
         Some input)
      /\ (snd (ClientState.sendInput
                 (fst (ClientState.sendInput client dt input)) dt' input')
          = None <-> dt' < ClientState.sendRate c))
  /\ (HostState.broadcastRate host = HostState.broadcastRate h
      /\ HostState.inputBuffer host = HostState.inputBuffer h
      /\ HostState.broadcastTimer host
         <= Rmax (HostState.broadcastTimer h) (HostState.broadcastRate h)
      /\ (states <> [] -> 0 < HostState.broadcastRate h ->
          0 < HostState.broadcastTimer host))
  /\ (dt < HostState.broadcastTimer host ->
      HostState.broadcastState host dt state
      = (HostState.mk (HostState.broadcastRate h)
           (HostState.broadcastTimer host - dt) (HostState.inputBuffer h),
         None))
  /\ (HostState.broadcastTimer host <= dt ->
      HostState.broadcastState host dt state
      = (HostState.mk (HostState.broadcastRate h)
           (HostState.broadcastRate h) (HostState.inputBuffer h),
         Some state)
      /\ (snd (HostState.broadcastState
                 (fst (HostState.broadcastState host dt state)) dt' state')
          = None <-> dt' < HostState.broadcastRate h)).
Proof.
  intros Hinputs Hstates. cbv zeta.
  pose proof (sendInput_run c inputs Hinputs) as Hclient.
  pose proof (broadcastState_run h states Hstates) as Hhost.
  cbv zeta in Hclient, Hhost.
  set (client := fold_left _ inputs c) in *.
  set (host := fold_left _ states h) in *.
  destruct Hclient as [Hrate [Hbuf [Hdel [Hping Htimer]]]].
  destruct Hhost as [Hrate' [Hbuf' Htimer']].
  split; [repeat split; try assumption; apply Htimer|].
  split; [|split; [|split; [|split]]].
  - intros Hlt. unfold ClientState.sendInput.
    replace (0 <? ClientState.sendTimer client - dt) with true
      by (symmetry; apply ltb_true; lra).
    rewrite Hrate, Hbuf, Hdel, Hping. reflexivity.
  - intros Hle. unfold ClientState.sendInput at 1 3.
    replace (0 <? ClientState.sendTimer client - dt) with false
      by (symmetry; apply ltb_false; lra).
    rewrite Hrate, Hbuf, Hdel, Hping. split; [reflexivity|].
    unfold ClientState.sendInput.
    cbn [fst ClientState.sendTimer ClientState.sendRate].
    destruct (0 <? ClientState.sendRate c - dt') eqn:Hc; cmp_hyps;
      cbn [snd]; split; intros H; try lra; try discriminate; reflexivity.
  - repeat split; try assumption; apply Htimer'.
  - intros Hlt. unfold HostState.broadcastState.
    replace (0 <? HostState.broadcastTimer host - dt) with true
      by (symmetry; apply ltb_true; lra).
    rewrite Hrate', Hbuf'. reflexivity.
  - intros Hle. unfold HostState.broadcastState at 1 3.
    replace (0 <? HostState.broadcastTimer host - dt) with false
      by (symmetry; apply ltb_false; lra).
    rewrite Hrate', Hbuf'. split; [reflexivity|].
    unfold HostState.broadcastState.
    cbn [fst HostState.broadcastTimer HostState.broadcastRate].
    destruct (0 <? HostState.broadcastRate h - dt') eqn:Hc; cmp_hyps;
      cbn [snd]; split; intros H; try lra; try discriminate; reflexivity.
Qed.

Lemma network_throttles_witness :
  ClientState.sendInput ClientState.new Sample.dt true
  = (ClientState.mk (1 / 30) (1 / 30) [] 100 0, Some true)
  /\ snd (ClientState.sendInput
            (fst (ClientState.sendInput ClientState.new Sample.dt true))
            Sample.dt false)
     = None.
Proof.
  destruct (network_throttles ClientState.new (@HostState.new bool) [] []
              Sample.dt true tt Sample.dt false tt
              (Forall_nil _) (Forall_nil _))
    as [_ [_ [H _]]].
  cbn [fold_left] in H.
  assert (Hle : ClientState.sendTimer ClientState.new <= Sample.dt)
    by (unfold Sample.dt; cbn; lra).
  destruct (H Hle) as [Hsend Hquiet].
  split; [exact Hsend|].
  apply Hquiet. unfold Sample.dt. cbn. lra.
Defined.

(** ** The room code *)

(** A draw of [0, 1) picks a character of the alphabet. *)
Lemma charAt_alphabet (r : R) :
  0 <= r < 1 ->
  exists c,
    NetworkManager.charAt
      (Num.floor (r * INR (String.length NetworkManager.chars)))
    = String c EmptyString
    /\ In c (list_ascii_of_string NetworkManager.chars)
    /\ String.get
         (Z.to_nat
            (Num.floor (r * INR (String.length NetworkManager.chars))))
         NetworkManager.chars = Some c.
Proof.
  intros Hr. unfold Num.floor.
  replace (INR (String.length NetworkManager.chars)) with 32
    by (cbn; lra).
  pose proof (Zfloor_bound (r * 32)) as [Hf1 Hf2].
  assert (H0 : (0 <= Zfloor (r * 32))%Z) by (apply Zfloor_lub; simpl; lra).
  assert (H32 : (Zfloor (r * 32) < 32)%Z) by (apply lt_IZR; lra).
  unfold NetworkManager.charAt.
  replace (Zfloor (r * 32) <? 0)%Z with false
    by (symmetry; apply Z.ltb_ge; exact H0).
  assert (Hi : (Z.to_nat (Zfloor (r * 32)) < 32)%nat) by lia.
  revert Hi. generalize (Z.to_nat (Zfloor (r * 32))) as i. intros i Hi.
  do 32 (destruct i as [|i];
         [eexists; split; [reflexivity|]; split; [cbn; tauto | reflexivity]|]).
  lia.
Qed.

(** X30 (NetworkManager._generateCode): on draws of [0, 1) the room code
    has exactly four characters, the one at each place picked from the
    alphabet by the draw of that place; so every character is a capital
    letter or a digit of the alphabet, and [I], [O], [0] and [1], which the
    alphabet leaves out, never occur.  Four draws are consumed. *)
Theorem room_code (rnd : Num.Rand) (k : nat) :
  Num.unit_draws rnd ->
  let code := fst (NetworkManager._generateCode rnd k) in
  String.length code = 4%nat
  /\ (forall i, (i < 4)%nat ->
        String.get i code
        = String.get
            (Z.to_nat
               (Num.floor
                  (rnd (i + k)%nat
                   * INR (String.length NetworkManager.chars))))
            NetworkManager.chars)
  /\ (forall c, In c (list_ascii_of_string code) ->
        In c (list_ascii_of_string NetworkManager.chars)
        /\ c <> "I"%char /\ c <> "O"%char /\ c <> "0"%char
        /\ c <> "1"%char)
  /\ snd (NetworkManager._generateCode rnd k) = (k + 4)%nat.
Proof.
  intros Hrnd. cbv zeta.
  unfold NetworkManager._generateCode. cbn [NetworkManager.codeLoop fst snd].
  destruct (charAt_alphabet (rnd k) (Hrnd k)) as [c0 [E0 [I0 G0]]].
  destruct (charAt_alphabet (rnd (S k)) (Hrnd (S k))) as [c1 [E1 [I1 G1]]].
  destruct (charAt_alphabet (rnd (S (S k))) (Hrnd (S (S k))))
    as [c2 [E2 [I2 G2]]].
  destruct (charAt_alphabet (rnd (S (S (S k)))) (Hrnd (S (S (S k)))))
    as [c3 [E3 [I3 G3]]].
  rewrite E0, E1, E2, E3. cbn [String.append String.length].
  split; [reflexivity|]. split; [|split; [|lia]].
  - intros i Hi.
    destruct i as [|[|[|[|i]]]]; cbn [String.get Nat.add]; try lia;
      symmetry; assumption.
  - intros c Hc. cbn [list_ascii_of_string In] in Hc.
    assert (Hin : In c (list_ascii_of_string NetworkManager.chars))
      by (destruct Hc as [<-|[<-|[<-|[<-|[]]]]]; assumption).
    split; [exact Hin|].
    cbn in Hin.
    repeat split; intros ->;
      repeat (destruct Hin as [Hin|Hin]; [discriminate Hin|]);
      exact Hin.
Qed.

Lemma room_code_witness :
  fst (NetworkManager._generateCode Sample.zeros O) = "AAAA"%string.
Proof.
  assert (Hrnd : Num.unit_draws Sample.zeros)
    by (intros n; unfold Sample.zeros; lra).
  destruct (room_code Sample.zeros O Hrnd) as [Hlen [Hget _]].
  assert (HA : forall i, (i < 4)%nat ->
             String.get i (fst (NetworkManager._generateCode Sample.zeros O))
             = Some "A"%char).
  { intros i Hi. rewrite (Hget i Hi). unfold Sample.zeros, Num.floor.
    rewrite Rmult_0_l.
    replace (Zfloor 0) with 0%Z; [reflexivity|].
    symmetry. apply Zfloor_eq. simpl. lra. }
  destruct (fst (NetworkManager._generateCode Sample.zeros O))
    as [|a0 [|a1 [|a2 [|a3 [|a4 rest]]]]]; cbn in Hlen; try discriminate.
  pose proof (HA 0%nat ltac:(lia)) as H0.
  pose proof (HA 1%nat ltac:(lia)) as H1.
  pose proof (HA 2%nat ltac:(lia)) as H2.
  pose proof (HA 3%nat ltac:(lia)) as H3.
  cbn in H0, H1, H2, H3. congruence.
Defined.

(** ** Worked instances *)

Lemma nearestPlanet_lowest_witness :
  Physics.nearestPlanet (Vec2.mk 200 0) [] = None.
Proof.
  apply (proj1 (nearestPlanet_lowest (Vec2.mk 200 0) [])). reflexivity.
Defined.

Lemma clampVelocity_exact_witness :
  Physics.clampVelocity (Vec2.mk 0 0) = Vec2.mk 0 0.
Proof.
  apply (proj1 (clampVelocity_exact (Vec2.mk 0 0))).
  unfold Vec2.length, Physics.MAX_VELOCITY. cbn.
  replace (0 * 0 + 0 * 0) with 0 by ring. rewrite sqrt_0. lra.
Defined.

Lemma lerp_endpoints_witness :
  Rmin 0 10 <= Physics.lerp 0 10 (1 / 2) <= Rmax 0 10.
Proof.
  destruct (lerp_endpoints 0 10 (1 / 2)) as [_ [_ [H _]]].
  apply H. lra.
Defined.
